(** * Phonotactic language model: data pipeline, model, trainer, evaluator

    A shallow embedding of [notebooks/class.ipynb] (Mayer & Nelson 2020):
    [get_corpus_data], [process_data], [Emb_RNNLM], [train_lm],
    [compute_perplexity], [get_probs] and [run_full_pipeline].

    Conventions.
    - Python lists are Rocq lists, dicts are [gmap]s, exceptions are the
      [Raise] results of [result].
    - A [str] is held as its UTF-8 encoding (a Rocq string is a list of
      bytes): the byte [0x20] occurs in it only as the space character,
      and two strings are equal exactly when their encodings are.
    - The global state of [random] is an explicit entropy stream ([rng]).
    - Tensors of symbol indices are lists of rows of [nat].
    - Model parameters are objects in a heap; a module holds references to
      them, so that two modules can share one parameter.  Standard output
      is a list of lines.
    - Floating-point tensors are lists over an abstract scalar type (class
      [Scalar]); nothing is assumed of its operations unless a theorem
      says so, so whatever is proved generically also holds for the
      IEEE arithmetic the notebook runs on.  Theorems that need the laws
      of arithmetic are stated for the reals ([R_scalar]); the reals have
      no [nan] or [inf], so these theorems assume that the tensor
      division of [compute_perplexity] is by a count that is not zero.
    - The Python floats that are not tensors, the split point of
      [process_data] and the learning rate, are binary64 values of
      [SpecFloat].
    - Automatic differentiation and the Adam update are a parameter of
      the trainer ([adam_step]); its control flow, its loss and the
      argument check of the optimizer's constructor are modelled.
    - Files are given by their contents: an input file is the list of
      its lines, the output file the list of the records written. *)

From Stdlib Require Import ZArith Ascii String List Lia.
From Stdlib Require Import SpecFloat.
From Stdlib Require Import Reals Lra.
From stdpp Require Import base option list gmap strings.

Set Warnings "-clear-no-such-hyp".

Local Open Scope string_scope.
Local Open Scope list_scope.
Local Open Scope nat_scope.

(* ===================================================================== *)
(** * Python exceptions as results *)
(* ===================================================================== *)

Inductive exn : Type :=
  | ValueError
  | KeyError (key : string)
  | IndexError
  | RuntimeError
  | OverflowError
  | ZeroDivisionError.

Inductive result (A : Type) : Type :=
  | Ok (a : A)
  | Raise (e : exn).
Arguments Ok {A} a.
Arguments Raise {A} e.

Definition rbind {A B : Type} (r : result A) (k : A → result B) : result B :=
  match r with
  | Ok a => k a
  | Raise e => Raise e
  end.

Notation "x ←ᵣ r ; k" := (rbind r (λ x, k))
  (at level 20, r at level 100, k at level 200, right associativity,
   format "x  ←ᵣ  r ;  '/' k").

(** A list comprehension whose body may raise: the first exception wins. *)
Fixpoint rmapM {A B : Type} (f : A → result B) (l : list A) : result (list B) :=
  match l with
  | [] => Ok []
  | a :: l' =>
      b ←ᵣ f a;
      bs ←ᵣ rmapM f l';
      Ok (b :: bs)
  end.

(* ===================================================================== *)
(** * [random.shuffle] over an explicit entropy stream *)
(* ===================================================================== *)

(** The generator's state is the stream of raw draws still to be consumed
    (an exhausted stream keeps drawing 0). *)
Definition rng : Type := list nat.

Definition randbelow (n : nat) (g : rng) : nat * rng :=
  match g with
  | [] => (0, [])
  | d :: g' => (d mod n, g')
  end.

(** [x[i], x[j] = x[j], x[i]] *)
Definition list_swap {A : Type} (i j : nat) (x : list A) : list A :=
  match x !! i, x !! j with
  | Some a, Some b => <[j:=a]> (<[i:=b]> x)
  | _, _ => x
  end.

(** [for i in reversed(range(1, len(x))): j = randbelow(i+1); swap].
    [shuffle_loop n] runs the iterations [i = n, n-1, ..., 1]. *)
Fixpoint shuffle_loop {A : Type} (n : nat) (x : list A) (g : rng) : list A * rng :=
  match n with
  | 0 => (x, g)
  | S n' =>
      let '(j, g') := randbelow (S n) g in
      shuffle_loop n' (list_swap n j x) g'
  end.

Definition shuffle {A : Type} (x : list A) (g : rng) : list A * rng :=
  shuffle_loop (length x - 1) x g.

(* ===================================================================== *)
(** * Python slices *)
(* ===================================================================== *)

(** A slice bound [k] of a sequence of length [len], as Python clamps it:
    a negative bound counts from the end. *)
Definition slice_bound (len : nat) (k : Z) : nat :=
  if (k <? 0)%Z then Z.to_nat (Z.max 0 (Z.of_nat len + k))
  else Z.to_nat (Z.min k (Z.of_nat len)).

(** [l[:k]] and [l[k:]] *)
Definition slice_to {A : Type} (l : list A) (k : Z) : list A :=
  take (slice_bound (length l) k) l.
Definition slice_from {A : Type} (l : list A) (k : Z) : list A :=
  drop (slice_bound (length l) k) l.

(** [l[start:stop]] for bounds that are not negative *)
Definition slice {A : Type} (l : list A) (start stop : nat) : list A :=
  drop start (take stop l).

(* ===================================================================== *)
(** * Binary64 arithmetic of the split point *)
(* ===================================================================== *)

Module Float64.
Definition prec : Z := 53.
Definition emax : Z := 1024.

(** [float(z)] for a Python int (round to nearest even; exact below
    [2^53]). *)
Definition of_int (z : Z) : spec_float :=
  binary_normalize prec emax z 0 false.

Definition div (x y : spec_float) : spec_float := SFdiv prec emax x y.
Definition mul (x y : spec_float) : spec_float := SFmul prec emax x y.

(** [0.0 <= x] *)
Definition nonneg (x : spec_float) : bool := SFleb (S754_zero false) x.

(** A Python int as a float that is not rounded yet: its mantissa is
    the int. *)
Definition exact (z : Z) : spec_float :=
  match z with
  | Z0 => S754_zero false
  | Zpos m => S754_finite false m 0
  | Zneg m => S754_finite true m 0
  end.

(** [a / b] of two Python ints: the exact quotient rounded once to
    nearest even; a quotient too large for a float raises. *)
Definition int_div (a b : Z) : result spec_float :=
  if (b =? 0)%Z then Raise ZeroDivisionError
  else if (a =? 0)%Z then Ok (S754_zero (b <? 0)%Z)
  else match SFdiv prec emax (exact a) (exact b) with
       | S754_infinity _ => Raise OverflowError
       | q => Ok q
       end.

(** The conversion of the int operand of [int * float]; an int too large
    for a float raises. *)
Definition int_to_float (z : Z) : result spec_float :=
  match of_int z with
  | S754_infinity _ => Raise OverflowError
  | x => Ok x
  end.

(** The decimal literal [m]e-[k]: the double nearest to [m / 10^k]. *)
Definition decimal (m : Z) (k : nat) : spec_float :=
  SFdiv prec emax (exact m) (exact (10 ^ Z.of_nat k)).

(** [int(f)]: truncation toward zero; [int] of an infinity or a NaN
    raises. *)
Definition to_int (f : spec_float) : result Z :=
  match f with
  | S754_zero _ => Ok 0%Z
  | S754_finite s m e =>
      let mag := if (0 <=? e)%Z then (Z.pos m * 2 ^ e)%Z
                 else (Z.pos m / 2 ^ (- e))%Z in
      Ok (if s then (- mag)%Z else mag)
  | S754_infinity _ => Raise OverflowError
  | S754_nan => Raise ValueError
  end.
End Float64.

(** [int(n * (training_split/100))], [n] and [training_split] being
    ints: the quotient is computed first, then [n] is converted and
    multiplied. *)
Definition split_index (n : nat) (training_split : Z) : result Z :=
  fraction ←ᵣ Float64.int_div training_split 100;
  len ←ᵣ Float64.int_to_float (Z.of_nat n);
  Float64.to_int (Float64.mul len fraction).

(* ===================================================================== *)
(** * [process_data] *)
(* ===================================================================== *)

(** A 2-D [LongTensor]: its rows. *)
Abbreviation LongTensor2 := (list (list nat)).

(** [torch.stack(tensors, 0)] of 1-D tensors: refuses an empty list and
    rows of unequal length. *)
Definition torch_stack (tensors : list (list nat)) : result LongTensor2 :=
  match tensors with
  | [] => Raise RuntimeError
  | t :: _ =>
      if forallb (λ r, length r =? length t) tensors then Ok tensors
      else Raise RuntimeError
  end.

(** [max(lens)] *)
Definition py_max (lens : list nat) : result nat :=
  match lens with
  | [] => Raise ValueError
  | n :: ns => Ok (foldl Nat.max n ns)
  end.

Fixpoint enumerate_from {A : Type} (ix : nat) (l : list A) : list (nat * A) :=
  match l with
  | [] => []
  | a :: l' => (ix, a) :: enumerate_from (S ix) l'
  end.
Definition enumerate {A : Type} (l : list A) : list (nat * A) := enumerate_from 0 l.

(** [[phone2ix[p] for p in sequence]] *)
Definition encode (phone2ix : gmap string nat) (sequence : list string)
  : result (list nat) :=
  rmapM (λ p, match phone2ix !! p with
              | Some ix => Ok ix
              | None => Raise (KeyError p)
              end) sequence.

Record processed : Type := Processed {
  inventory : list string;
  phone2ix : gmap string nat;
  ix2phone : gmap nat string;
  training_data : LongTensor2;
  dev_data : LongTensor2
}.

Definition pad_symbol : string := "<p>".

Section ProcessData.
(** [list(set(...))]: the iteration order of a Python set is up to the
    hash function; it is some duplicate-free enumeration of the elements
    that were put in. *)
Variable set_order : list string → list string.

Definition pad_all (max_chars : nat) (data : list (list string)) : list (list string) :=
  map (λ sequence, sequence ++ replicate (max_chars - length sequence) pad_symbol) data.

Definition build_inventory (padded : list (list string)) : list string :=
  let inventory := set_order (concat padded) in
  pad_symbol :: filter (λ x, x ≠ pad_symbol) inventory.

Definition build_phone2ix (inventory : list string) : gmap string nat :=
  foldl (λ d '(ix, p), <[p:=ix]> d) ∅ (enumerate inventory).

Definition build_ix2phone (inventory : list string) : gmap nat string :=
  foldl (λ d '(ix, p), <[ix:=p]> d) ∅ (enumerate inventory).

(** [process_data].  The generator's state after the call is returned
    with the result.  (The call also leaves the caller's list shuffled;
    nothing below depends on it.) *)
Definition process_data (g : rng) (string_training_data : list (list string))
    (dev : bool) (training_split : Z) : result processed * rng :=
  let '(shuffled, g') := shuffle string_training_data g in
  (max_chars ←ᵣ py_max (map length shuffled);
   let padded := pad_all max_chars shuffled in
   let inventory := build_inventory padded in
   let phone2ix := build_phone2ix inventory in
   let ix2phone := build_ix2phone inventory in
   as_ixs ←ᵣ rmapM (encode phone2ix) padded;
   if negb dev then
     training_data ←ᵣ torch_stack as_ixs;
     dev_data ←ᵣ torch_stack (slice_from as_ixs (-10));
     Ok (Processed inventory phone2ix ix2phone training_data dev_data)
   else
     split ←ᵣ split_index (length as_ixs) training_split;
     training_data ←ᵣ torch_stack (slice_to as_ixs split);
     dev_data ←ᵣ torch_stack (slice_from as_ixs split);
     Ok (Processed inventory phone2ix ix2phone training_data dev_data),
   g').
End ProcessData.

(* ===================================================================== *)
(** * Reading the words to score *)
(* ===================================================================== *)

(** The characters that [str.rstrip()] strips, those of [str.isspace]:
    below [U+0080] they are the bytes 9 to 13 and 28 to 32. *)
Definition is_whitespace (c : ascii) : bool :=
  let n := nat_of_ascii c in
  (n =? 32) || ((9 <=? n) && (n <=? 13)) || ((28 <=? n) && (n <=? 31)).

(** The others are [U+0085] and [U+00A0], encoded on two bytes, and
    [U+1680], [U+2000] to [U+200A], [U+2028], [U+2029], [U+202F],
    [U+205F] and [U+3000], encoded on three. *)
Definition is_whitespace2 (b1 b2 : ascii) : bool :=
  let '(n1, n2) := (nat_of_ascii b1, nat_of_ascii b2) in
  (n1 =? 194) && ((n2 =? 133) || (n2 =? 160)).
Definition is_whitespace3 (b1 b2 b3 : ascii) : bool :=
  let '(n1, n2, n3) := (nat_of_ascii b1, nat_of_ascii b2, nat_of_ascii b3) in
  ((n1 =? 225) && (n2 =? 154) && (n3 =? 128))
  || ((n1 =? 226) && (n2 =? 128)
      && (((128 <=? n3) && (n3 <=? 138)) || (n3 =? 168) || (n3 =? 169) || (n3 =? 175)))
  || ((n1 =? 226) && (n2 =? 129) && (n3 =? 159))
  || ((n1 =? 227) && (n2 =? 128) && (n3 =? 128)).

(** A string of whitespace characters only. *)
Fixpoint all_whitespace (s : string) : bool :=
  match s with
  | EmptyString => true
  | String b1 s1 =>
      if is_whitespace b1 then all_whitespace s1
      else match s1 with
           | EmptyString => false
           | String b2 s2 =>
               if is_whitespace2 b1 b2 then all_whitespace s2
               else match s2 with
                    | EmptyString => false
                    | String b3 s3 =>
                        if is_whitespace3 b1 b2 b3 then all_whitespace s3 else false
                    end
           end
  end.

(** [line.rstrip()]: the line up to its last character that is not
    whitespace. *)
Fixpoint rstrip (s : string) : string :=
  match s with
  | EmptyString => EmptyString
  | String c s' => if all_whitespace s then EmptyString else String c (rstrip s')
  end.

(** [line.replace(' ', '')] *)
Fixpoint remove_spaces (s : string) : string :=
  match s with
  | EmptyString => EmptyString
  | String c s' =>
      if Ascii.eqb c " " then remove_spaces s' else String c (remove_spaces s')
  end.

(** [line.split(' ')] *)
Fixpoint split_spaces (s : string) : list string :=
  match s with
  | EmptyString => [EmptyString]
  | String c s' =>
      if Ascii.eqb c " " then EmptyString :: split_spaces s'
      else match split_spaces s' with
           | w :: ws => String c w :: ws
           | [] => [String c EmptyString]
           end
  end.

(** The first loop: one encoded word per line of the input file. *)
Definition read_word (phone2ix : gmap string nat) (l : string)
  : result (string * list nat) :=
  let l := rstrip l in
  let as_string := remove_spaces l in
  let l := split_spaces l in
  let l := ["<s>"] ++ l ++ ["<e>"] in
  line_as_tensor ←ᵣ encode phone2ix l;
  Ok (as_string, line_as_tensor).

(* ===================================================================== *)
(** * [get_corpus_data] *)
(* ===================================================================== *)

(** [get_corpus_data]: a file is the list of its lines, as iterating over
    the open file yields them (each with its line terminator, if any). *)
Definition get_corpus_data (file : list string) : list (list string) :=
  map (λ line,
         let line := rstrip line in
         ["<s>"] ++ split_spaces line ++ ["<e>"]) file.

(* ===================================================================== *)
(** * Scalars *)
(* ===================================================================== *)

(** The arithmetic of float tensors.  [s_lit m e] is the decimal literal
    [m]e[e] and [s_of_nat] the conversion of an integer count. *)
Class Scalar (F : Type) : Type := {
  s_zero : F;
  s_add : F → F → F;
  s_sub : F → F → F;
  s_mul : F → F → F;
  s_div : F → F → F;
  s_exp : F → F;
  s_log : F → F;
  s_tanh : F → F;
  s_of_nat : nat → F;
  s_lit : Z → Z → F;
  s_gtb : F → F → bool
}.

(** What is written to standard output. *)
Inductive line (F : Type) : Type :=
  | Msg (s : string)
  | EpochReport (epoch : nat) (ep_loss dev_perplexity : F).
Arguments Msg {F} s.
Arguments EpochReport {F} epoch ep_loss dev_perplexity.

(** A parameter tensor: a bias vector or a weight matrix (list of rows). *)
Inductive tensor (F : Type) : Type :=
  | PVec (v : list F)
  | PMat (m : list (list F)).
Arguments PVec {F} v.
Arguments PMat {F} m.

(** Parameters are objects: a module field holds a reference. *)
Definition loc : Type := nat.

Record Embedding : Type := { emb_weight : loc }.
Record RNNLayer : Type := {
  weight_ih : loc; weight_hh : loc; bias_ih : loc; bias_hh : loc
}.
Record Linear : Type := { lin_weight : loc; lin_bias : loc }.

Record Emb_RNNLM : Type := {
  vocab_size : nat;
  d_emb : nat;
  n_layers : nat;
  d_hid : nat;
  embeddings : Embedding;
  i2R : list RNNLayer;
  R2o : Linear
}.

(** The [params] dictionary. *)
Record hyper : Type := {
  inv_size : nat;
  p_d_emb : nat;
  p_d_hid : nat;
  num_layers : nat;
  batch_size : nat;
  learning_rate : spec_float;
  epochs : nat;
  tied : bool
}.

Record world (F : Type) : Type := World {
  heap : gmap loc (tensor F);
  next_loc : loc;
  stdout : list (line F);
  rand : rng
}.
Arguments World {F} _ _ _ _.
Arguments heap {F} _.
Arguments next_loc {F} _.
Arguments stdout {F} _.
Arguments rand {F} _.

(** Computations that read and write the world and may raise. *)
Definition M (F A : Type) : Type := world F → result A * world F.

Definition mret {F A : Type} (a : A) : M F A := λ w, (Ok a, w).
Definition mbind {F A B : Type} (m : M F A) (k : A → M F B) : M F B :=
  λ w, match m w with
       | (Ok a, w') => k a w'
       | (Raise e, w') => (Raise e, w')
       end.
Definition mlift {F A : Type} (r : result A) : M F A := λ w, (r, w).

Notation "x ←ₘ m ; k" := (mbind m (λ x, k))
  (at level 20, m at level 100, k at level 200, right associativity,
   format "x  ←ₘ  m ;  '/' k").

Fixpoint mfoldl {F S A : Type} (f : S → A → M F S) (s : S) (l : list A) : M F S :=
  match l with
  | [] => mret s
  | a :: l' => s' ←ₘ f s a; mfoldl f s' l'
  end.

Definition print {F : Type} (l : line F) : M F unit :=
  λ w, (Ok tt, World (heap w) (next_loc w) (stdout w ++ [l]) (rand w)).

Definition read_heap {F : Type} : M F (gmap loc (tensor F)) := λ w, (Ok (heap w), w).

Definition tied_diagnostic : string := "Dimensions don't support tied embeddings".

Section Model.
Context {F : Type} `{Scalar F}.

(** The initial value torch draws for entry [(i, j)] of the parameter
    object [l]. *)
Variable init_value : loc → nat → nat → F.

Definition init_mat (l : loc) (rows cols : nat) : tensor F :=
  PMat (map (λ i, map (λ j, init_value l i j) (seq 0 cols)) (seq 0 rows)).
Definition init_vec (l : loc) (n : nat) : tensor F :=
  PVec (map (λ j, init_value l 0 j) (seq 0 n)).

Definition alloc (mk : loc → tensor F) : M F loc :=
  λ w, let l := next_loc w in
       (Ok l, World (<[l := mk l]> (heap w)) (S l) (stdout w) (rand w)).

(** [nn.Embedding(vocab_size, d_emb)] *)
Definition new_Embedding (num_embeddings embedding_dim : nat) : M F Embedding :=
  w ←ₘ alloc (λ l, init_mat l num_embeddings embedding_dim);
  mret {| emb_weight := w |}.

Definition new_RNNLayer (input_size hidden_size : nat) : M F RNNLayer :=
  w_ih ←ₘ alloc (λ l, init_mat l hidden_size input_size);
  w_hh ←ₘ alloc (λ l, init_mat l hidden_size hidden_size);
  b_ih ←ₘ alloc (λ l, init_vec l hidden_size);
  b_hh ←ₘ alloc (λ l, init_vec l hidden_size);
  mret {| weight_ih := w_ih; weight_hh := w_hh; bias_ih := b_ih; bias_hh := b_hh |}.

(** The layers of [nn.RNN]: the first reads the input, the others the
    layer below. *)
Fixpoint new_RNN_layers (input_size hidden_size n : nat) : M F (list RNNLayer) :=
  match n with
  | 0 => mret []
  | S n' =>
      l ←ₘ new_RNNLayer input_size hidden_size;
      ls ←ₘ new_RNN_layers hidden_size hidden_size n';
      mret (l :: ls)
  end.

(** [nn.RNN(input_size, hidden_size, batch_first=True, num_layers=n)].
    Current torch refuses an input size, a hidden size or a layer count
    that is not positive. *)
Definition new_RNN (input_size hidden_size n : nat) : M F (list RNNLayer) :=
  if input_size =? 0 then mlift (Raise ValueError)
  else if hidden_size =? 0 then mlift (Raise ValueError)
  else if n =? 0 then mlift (Raise ValueError)
  else new_RNN_layers input_size hidden_size n.

(** [nn.Linear(in_features, out_features)] *)
Definition new_Linear (in_features out_features : nat) : M F Linear :=
  w ←ₘ alloc (λ l, init_mat l out_features in_features);
  b ←ₘ alloc (λ l, init_vec l out_features);
  mret {| lin_weight := w; lin_bias := b |}.

(** [Emb_RNNLM.__init__] *)
Definition Emb_RNNLM_init (params : hyper) : M F Emb_RNNLM :=
  let vocab_size := inv_size params in
  let d_emb := p_d_emb params in
  let n_layers := num_layers params in
  let d_hid := p_d_hid params in
  embeddings ←ₘ new_Embedding vocab_size d_emb;
  i2R ←ₘ new_RNN d_emb d_hid n_layers;
  R2o ←ₘ new_Linear d_hid vocab_size;
  if tied params then
    if d_emb =? d_hid then
      mret {| vocab_size := vocab_size; d_emb := d_emb; n_layers := n_layers;
              d_hid := d_hid; embeddings := embeddings; i2R := i2R;
              R2o := {| lin_weight := emb_weight embeddings;
                        lin_bias := lin_bias R2o |} |}
    else
      u ←ₘ print (Msg tied_diagnostic);
      mret {| vocab_size := vocab_size; d_emb := d_emb; n_layers := n_layers;
              d_hid := d_hid; embeddings := embeddings; i2R := i2R; R2o := R2o |}
  else
    mret {| vocab_size := vocab_size; d_emb := d_emb; n_layers := n_layers;
            d_hid := d_hid; embeddings := embeddings; i2R := i2R; R2o := R2o |}.

(** ** Forward pass *)

Definition get_mat (h : gmap loc (tensor F)) (l : loc) : result (list (list F)) :=
  match h !! l with
  | Some (PMat m) => Ok m
  | _ => Raise RuntimeError
  end.
Definition get_vec (h : gmap loc (tensor F)) (l : loc) : result (list F) :=
  match h !! l with
  | Some (PVec v) => Ok v
  | _ => Raise RuntimeError
  end.

Definition vsum (v : list F) : F := foldl s_add s_zero v.
Definition dot (u v : list F) : F := vsum (zip_with s_mul u v).
Definition matvec (m : list (list F)) (v : list F) : list F :=
  map (λ row, dot row v) m.
Definition vadd (u v : list F) : list F := zip_with s_add u v.

(** The weights of one recurrent layer, read from the heap. *)
Record cell_weights : Type := {
  W_ih : list (list F); W_hh : list (list F); b_ih : list F; b_hh : list F
}.

Definition read_layer (h : gmap loc (tensor F)) (l : RNNLayer) : result cell_weights :=
  wih ←ᵣ get_mat h (weight_ih l);
  whh ←ᵣ get_mat h (weight_hh l);
  bih ←ᵣ get_vec h (bias_ih l);
  bhh ←ᵣ get_vec h (bias_hh l);
  Ok {| W_ih := wih; W_hh := whh; b_ih := bih; b_hh := bhh |}.

(** [h_t = tanh(x_t W_ih^T + b_ih + h_(t-1) W_hh^T + b_hh)] *)
Definition rnn_cell (c : cell_weights) (x h_prev : list F) : list F :=
  map s_tanh
    (vadd (vadd (vadd (matvec (W_ih c) x) (b_ih c)) (matvec (W_hh c) h_prev)) (b_hh c)).

(** One layer over the time axis, from the running hidden state. *)
Fixpoint rnn_scan (c : cell_weights) (h_prev : list F) (xs : list (list F))
  : list (list F) :=
  match xs with
  | [] => []
  | x :: xs' => let h := rnn_cell c x h_prev in h :: rnn_scan c h xs'
  end.

(** The stacked layers; each starts from the zero hidden state. *)
Definition rnn_forward (layers : list cell_weights) (hidden_size : nat)
    (xs : list (list F)) : list (list F) :=
  foldl (λ inp c, rnn_scan c (replicate hidden_size s_zero) inp) xs layers.

Definition embedding_lookup (weight : list (list F)) (ix : nat) : result (list F) :=
  match weight !! ix with
  | Some row => Ok row
  | None => Raise IndexError
  end.

Definition linear (weight : list (list F)) (bias : list F) (x : list F) : list F :=
  vadd (matvec weight x) bias.

(** [nn.RNN.forward] on a batch of sequences: a sequence of length 0 is
    refused. *)
Definition rnn_batch (layers : list cell_weights) (hidden_size : nat)
    (embs : list (list (list F))) : result (list (list (list F))) :=
  if forallb (λ xs, negb (length xs =? 0)) embs
  then Ok (map (rnn_forward layers hidden_size) embs)
  else Raise RuntimeError.

(** [Emb_RNNLM.forward]: scores of shape B x T x V. *)
Definition forward (h : gmap loc (tensor F)) (net : Emb_RNNLM) (batch : LongTensor2)
  : result (list (list (list F))) :=
  emb_w ←ᵣ get_mat h (emb_weight (embeddings net));
  layers ←ᵣ rmapM (read_layer h) (i2R net);
  out_w ←ᵣ get_mat h (lin_weight (R2o net));
  out_b ←ᵣ get_vec h (lin_bias (R2o net));
  embs ←ᵣ rmapM (rmapM (embedding_lookup emb_w)) batch;
  output ←ᵣ rnn_batch layers (d_hid net) embs;
  Ok (map (map (linear out_w out_b)) output).

(** ** Loss *)

(** [preds[:, :-1, :].contiguous().view(-1, vocab_size)]: the last
    position of every row is dropped, the rows are laid end to end. *)
Definition shift_preds (preds : list (list (list F))) : list (list F) :=
  concat (map (λ row, slice_to row (-1)) preds).

(** [batch[:, 1:].contiguous().view(-1)] *)
Definition shift_targets (batch : LongTensor2) : list nat :=
  concat (map (λ row, slice_from row 1) batch).

(** Negative log-likelihood of class [y] under the softmax of [scores]. *)
Definition nll_loss (scores : list F) (y : nat) : result F :=
  match scores !! y with
  | Some s_y => Ok (s_sub (s_log (vsum (map s_exp scores))) s_y)
  | None => Raise IndexError
  end.

(** The terms of the positions that are not ignored, in order. *)
Fixpoint loss_terms (ignore_index : nat) (preds : list (list F)) (targets : list nat)
  : result (list F) :=
  match preds, targets with
  | [], [] => Ok []
  | p :: preds', y :: targets' =>
      if y =? ignore_index then loss_terms ignore_index preds' targets'
      else
        l ←ᵣ nll_loss p y;
        ls ←ᵣ loss_terms ignore_index preds' targets';
        Ok (l :: ls)
  | _, _ => Raise ValueError
  end.

Inductive reduction : Type := Mean | Sum.

(** [nn.CrossEntropyLoss(ignore_index, reduction)(preds, targets)]:
    the mean is over the positions that are not ignored. *)
Definition reduce_loss (red : reduction) (terms : list F) : F :=
  match red with
  | Sum => vsum terms
  | Mean => s_div (vsum terms) (s_of_nat (length terms))
  end.

Definition CrossEntropyLoss (ignore_index : nat) (red : reduction)
    (preds : list (list F)) (targets : list nat) : result F :=
  terms ←ᵣ loss_terms ignore_index preds targets;
  Ok (reduce_loss red terms).

(** ** Batching *)

(** [range(0, stop, step)] *)
Definition py_range (stop step : nat) : result (list nat) :=
  match step with
  | 0 => Raise ValueError
  | _ => Ok (map (λ k, k * step) (seq 0 ((stop + step - 1) / step)))
  end.

(** [[(start, start + bsz) for start in range(0, num_examples, bsz)]] *)
Definition make_batches (num_examples bsz : nat) : result (list (nat * nat)) :=
  starts ←ᵣ py_range num_examples bsz;
  Ok (map (λ start, (start, start + bsz)) starts).

(** [torch.nonzero(batch).size(0)] *)
Definition count_nonzero (batch : LongTensor2) : nat :=
  length (filter (λ ix, ix ≠ 0) (concat batch)).

Fixpoint rfoldl {S A : Type} (f : S → A → result S) (s : S) (l : list A) : result S :=
  match l with
  | [] => Ok s
  | a :: l' => s' ←ᵣ f s a; rfoldl f s' l'
  end.

(** ** [compute_perplexity] *)

(** One turn of the loop: the state is [(nll, total_unmasked_tokens)]. *)
Definition perplexity_step (h : gmap loc (tensor F)) (net : Emb_RNNLM)
    (dataset : LongTensor2) (acc : F * F) (b : nat * nat) : result (F * F) :=
  let '(nll, total_unmasked_tokens) := acc in
  let '(start, stop) := b in
  let batch := slice dataset start stop in
  let ut := count_nonzero batch in
  preds ←ᵣ forward h net batch;
  let targets := shift_targets batch in
  let preds := shift_preds preds in
  loss ←ᵣ CrossEntropyLoss 0 Sum preds targets;
  Ok (s_add nll loss, s_add total_unmasked_tokens (s_of_nat ut)).

Definition compute_perplexity (h : gmap loc (tensor F)) (dataset : LongTensor2)
    (net : Emb_RNNLM) (bsz : nat) : result F :=
  let num_examples := length dataset in
  batches ←ᵣ make_batches num_examples bsz;
  acc ←ᵣ rfoldl (perplexity_step h net dataset) (s_zero, s_zero) batches;
  let '(nll, total_unmasked_tokens) := acc in
  match batches with
  | [] => Raise ZeroDivisionError
  | _ => Ok (s_exp (s_div nll total_unmasked_tokens))
  end.

(** ** [train_lm] *)

(** [net.parameters()]: every parameter object once, in registration
    order. *)
Definition layer_parameters (l : RNNLayer) : list loc :=
  [weight_ih l; weight_hh l; bias_ih l; bias_hh l].
Fixpoint dedup (seen : list loc) (ls : list loc) : list loc :=
  match ls with
  | [] => []
  | l :: ls' => if bool_decide (l ∈ seen) then dedup seen ls'
                else l :: dedup (l :: seen) ls'
  end.
Definition parameters (net : Emb_RNNLM) : list loc :=
  dedup [] (emb_weight (embeddings net) :: concat (map layer_parameters (i2R net))
            ++ [lin_weight (R2o net); lin_bias (R2o net)]).

(** The optimizer.  [adam_step opt net batch h] stands for
    [loss.backward(); optimizer.step(); optimizer.zero_grad()] on the
    loss of [batch]: the new moment estimates and the parameters updated
    in place.  Automatic differentiation is not modelled. *)
Variable optimizer : Type.
Variable adam_init : list loc → spec_float → optimizer.
Variable adam_step :
  optimizer → Emb_RNNLM → LongTensor2 → gmap loc (tensor F)
  → optimizer * gmap loc (tensor F).

(** [torch.optim.Adam(params, lr=lr)]: the constructor refuses a learning
    rate for which [0.0 <= lr] does not hold.  (The other arguments have
    their defaults, and [net.parameters()] is never empty.) *)
Definition Adam (params : list loc) (lr : spec_float) : result optimizer :=
  if Float64.nonneg lr then Ok (adam_init params lr) else Raise ValueError.

Definition shuffle_batches (batches : list (nat * nat)) : M F (list (nat * nat)) :=
  λ w, let '(batches', g') := shuffle batches (rand w) in
       (Ok batches', World (heap w) (next_loc w) (stdout w) g').

Definition write_heap (h : gmap loc (tensor F)) : M F unit :=
  λ w, (Ok tt, World h (next_loc w) (stdout w) (rand w)).

(** The body of the inner loop; the state is [(optimizer, ep_loss)]. *)
Definition train_batch (net : Emb_RNNLM) (dataset : LongTensor2)
    (st : optimizer * F) (b : nat * nat) : M F (optimizer * F) :=
  let '(opt, ep_loss) := st in
  let '(start, stop) := b in
  let batch := slice dataset start stop in
  h ←ₘ read_heap;
  preds ←ₘ mlift (forward h net batch);
  let preds := shift_preds preds in
  let targets := shift_targets batch in
  loss ←ₘ mlift (CrossEntropyLoss 0 Mean preds targets);
  let '(opt', h') := adam_step opt net batch h in
  u ←ₘ write_heap h';
  mret (opt', s_add ep_loss loss).

(** The loop over the epochs still to run. *)
Fixpoint epoch_loop (net : Emb_RNNLM) (dataset dev : LongTensor2)
    (epochs_left : list nat) (prev_perplexity : F) (opt : optimizer)
    (batches : list (nat * nat)) : M F unit :=
  match epochs_left with
  | [] => mret tt
  | epoch :: epochs_left' =>
      let ep_loss := s_zero in
      batches ←ₘ shuffle_batches batches;
      st ←ₘ mfoldl (train_batch net dataset) (opt, ep_loss) batches;
      let '(opt, ep_loss) := st in
      h ←ₘ read_heap;
      dev_perplexity ←ₘ mlift (compute_perplexity h dev net 64);
      u ←ₘ print (EpochReport epoch ep_loss dev_perplexity);
      if s_gtb (s_sub dev_perplexity prev_perplexity) (s_lit 1 (-2)) then
        print (Msg "Stop early reached")
      else
        epoch_loop net dataset dev epochs_left' prev_perplexity opt batches
  end.

Definition train_lm (dataset dev : LongTensor2) (params : hyper) (net : Emb_RNNLM)
  : M F unit :=
  optimizer ←ₘ mlift (Adam (parameters net) (learning_rate params));
  let num_examples := length dataset in
  batches ←ₘ mlift (make_batches num_examples (batch_size params));
  let prev_perplexity := s_lit 1 10 in
  epoch_loop net dataset dev (seq 0 (epochs params)) prev_perplexity optimizer batches.

(** ** [get_probs] *)

(** [get_probs]: the records written to the output file, one per word
    (surface string, perplexity). *)
Definition get_probs (h : gmap loc (tensor F)) (input_file : list string)
    (model : Emb_RNNLM) (phone2ix : gmap string nat) : result (list (string * F)) :=
  words ←ᵣ rmapM (read_word phone2ix) input_file;
  rmapM (λ '(curr_string, word),
           ppl ←ᵣ compute_perplexity h [word] model 64;
           Ok (curr_string, ppl)) words.
End Model.
(* ===================================================================== *)
(** * [run_full_pipeline] *)
(* ===================================================================== *)

Section Pipeline.
Context {F : Type} `{Scalar F}.
Variable set_order : list string → list string.
Variable init_value : loc → nat → nat → F.
Variable optimizer : Type.
Variable adam_init : list loc → spec_float → optimizer.
Variable adam_step :
  optimizer → Emb_RNNLM → LongTensor2 → gmap loc (tensor F)
  → optimizer * gmap loc (tensor F).

(** [process_data] drawing from the generator of the world. *)
Definition process_data_io (string_training_data : list (list string)) (dev : bool)
    (training_split : Z) : M F processed :=
  λ w, let '(r, g') := process_data set_order (rand w) string_training_data dev
                         training_split in
       (r, World (heap w) (next_loc w) (stdout w) g').

(** [run_full_pipeline]: the two input files are given by their lines;
    the result is the list of records written to the output file.
    ([RNN.eval()] changes nothing in a model without dropout or batch
    normalisation.) *)
Definition run_full_pipeline (train_file test_file : list string)
  : M F (list (string * F)) :=
  let raw_data := get_corpus_data train_file in
  p ←ₘ process_data_io raw_data true 60;
  let inventory_size := length (inventory p) in
  let rnn_params := {| p_d_emb := 24; p_d_hid := 64; num_layers := 1;
                       batch_size := 64; learning_rate := Float64.decimal 5 3;
                       epochs := 10; tied := true;
                       inv_size := inventory_size |} in
  RNN ←ₘ Emb_RNNLM_init init_value rnn_params;
  u ←ₘ train_lm optimizer adam_init adam_step (training_data p) (dev_data p)
         rnn_params RNN;
  h ←ₘ read_heap;
  mlift (get_probs h test_file RNN (phone2ix p)).
End Pipeline.

(* ===================================================================== *)
(** * Exact real arithmetic as scalars *)
(* ===================================================================== *)

(** The reals have no [nan] and no [inf]: [s_div] is the division of the
    floats only where the divisor is not 0. *)
#[export] Instance R_scalar : Scalar R := {|
  s_zero := 0%R;
  s_add := Rplus;
  s_sub := Rminus;
  s_mul := Rmult;
  s_div := Rdiv;
  s_exp := exp;
  s_log := ln;
  s_tanh := tanh;
  s_of_nat := INR;
  s_lit := λ m e, (IZR m * powerRZ 10 e)%R;
  s_gtb := λ a b, if Rgt_dec a b then true else false
|}.

(* ===================================================================== *)
(** * Predicates used in the statements *)
(* ===================================================================== *)

(** How one row of [as_ixs] comes from its sequence: the sequence
    encoded in full, then the padding index up to [m]. *)
Definition padded_encoding (d : gmap string nat) (m : nat)
    (sequence : list string) (row : list nat) : Prop :=
  ∃ enc, encode d sequence = Ok enc
         ∧ row = enc ++ replicate (m - length sequence) 0.

(** A pair whose target is not the padding index. *)
Definition unmasked {F : Type} (pair : list F * nat) : bool := negb (pair.2 =? 0).

(** What a constructor does to the world: it returns, allocates [k] fresh
    objects and writes nothing else. *)
Definition allocates {F A : Type} (m : M F A) (k : nat) (w : world F) (a : A)
    (w' : world F) : Prop :=
  m w = (Ok a, w')
  ∧ next_loc w' = next_loc w + k
  ∧ stdout w' = stdout w
  ∧ rand w' = rand w
  ∧ ∀ l, l < next_loc w → heap w' !! l = heap w !! l.

(** The summed negative log-likelihood of a dataset scored in one pass
    (no batching): the sum over its non-padding targets. *)
Definition total_nll {F : Type} `{Scalar F} (h : gmap loc (tensor F)) (net : Emb_RNNLM)
    (dataset : LongTensor2) : result F :=
  preds ←ᵣ forward h net dataset;
  CrossEntropyLoss 0 Sum (shift_preds preds) (shift_targets dataset).

(** The number of non-padding target positions: the entries at positions
    [1 .. T-1] that are not 0. *)
Definition count_targets (dataset : LongTensor2) : nat :=
  length (List.filter (λ y, negb (y =? 0)) (shift_targets dataset)).

(** A row whose entry at position 0 is not the padding index. *)
Definition starts_nonzero (row : list nat) : bool :=
  match row with
  | [] => false
  | ix :: _ => negb (ix =? 0)
  end.

(** A heap that holds every parameter of [net] with the vocabulary on the
    right axis: the forward pass and the loss find what they read. *)
Definition well_formed {F : Type} (h : gmap loc (tensor F)) (net : Emb_RNNLM) : Prop :=
  (∃ emb_w, get_mat h (emb_weight (embeddings net)) = Ok emb_w
            ∧ length emb_w = vocab_size net)
  ∧ (∃ layers, rmapM (read_layer h) (i2R net) = Ok layers)
  ∧ (∃ out_w, get_mat h (lin_weight (R2o net)) = Ok out_w
              ∧ length out_w = vocab_size net)
  ∧ (∃ out_b, get_vec h (lin_bias (R2o net)) = Ok out_b
              ∧ length out_b = vocab_size net).

(** The line printed for an epoch [(epoch, ep_loss, dev_perplexity)]. *)
Definition report_line {F : Type} (r : nat * F * F) : line F :=
  EpochReport r.1.1 r.1.2 r.2.

(** The test that ends training, against the value [prev] it is given. *)
Definition stop_test {F : Type} `{Scalar F} (dev_perplexity prev : F) : bool :=
  s_gtb (s_sub dev_perplexity prev) (s_lit 1 (-2)).

(** What a run of the epochs [k, ..., k + n - 1] against [prev], started
    in [w], has printed: one report per epoch it ran, in order, then the
    stop message if it stopped early; a report passes [stop_test] against
    [prev] exactly when it is the last one of a run that stopped early; a
    run that returns without stopping early has run all [n] epochs. *)
Definition loop_outcome {F : Type} `{Scalar F} (k n : nat) (prev : F) (w : world F)
    (run : result unit * world F) : Prop :=
  ∃ (reports : list (nat * F * F)) (stopped : bool),
    stdout run.2 = stdout w ++ map report_line reports
                     ++ (if stopped then [Msg "Stop early reached"] else [])
    ∧ map (λ r, r.1.1) reports = seq k (length reports)
    ∧ length reports ≤ n
    ∧ (∀ i r, reports !! i = Some r →
              stop_test r.2 prev = stopped && (S i =? length reports))
    ∧ (run.1 = Ok tt → stopped = false → length reports = n)
    ∧ (stopped = true → run.1 = Ok tt ∧ reports ≠ []).

(** A computation that prints nothing. *)
Definition silent {F A : Type} (m : M F A) : Prop :=
  ∀ w, stdout (m w).2 = stdout w.

(** A string without the space character. *)
Definition no_space (s : string) : Prop := ¬ In " "%char (list_ascii_of_string s).

(** Every row followed by [k] more padding indices. *)
Definition pad_rows (k : nat) (dataset : LongTensor2) : LongTensor2 :=
  map (λ row, row ++ replicate k 0) dataset.

(** An optimizer keeps the model well formed: it changes the values of
    the parameters, not their shapes. *)
Definition keeps_shapes {F : Type} {optimizer : Type}
    (adam_step : optimizer → Emb_RNNLM → LongTensor2 → gmap loc (tensor F)
                 → optimizer * gmap loc (tensor F)) : Prop :=
  ∀ opt net batch h, well_formed h net → well_formed (adam_step opt net batch h).2 net.

(** What [j] right shifts ([shr_1] of [SpecFloat]) have kept of [M]: the
    quotient, and where the remainder lies against the half-way point. *)
Definition shr_inv (M j : Z) (mrs : shr_record) : Prop :=
  ∃ rem : Z,
    (M = shr_m mrs * 2 ^ j + rem)%Z
    ∧ (0 ≤ rem < 2 ^ j)%Z
    ∧ (0 ≤ shr_m mrs)%Z
    ∧ shr_r mrs = (2 ^ j <=? 2 * rem)%Z
    ∧ shr_s mrs = negb (rem =? 0)%Z && negb (2 * rem =? 2 ^ j)%Z.

(* ===================================================================== *)
(** * Sample inputs *)
(* ===================================================================== *)

Definition corpus3 : list (list string) :=
  [ ["<s>"; "p"; "a"; "t"; "<e>"]; ["<s>"; "a"; "<e>"]; ["<s>"; "b"; "a"; "<e>"] ].

(** The hyperparameters of the notebook, for an inventory of 30 phones. *)
Definition rnn_params : hyper := {|
  inv_size := 30;
  p_d_emb := 24;
  p_d_hid := 64;
  num_layers := 1;
  batch_size := 64;
  learning_rate := Float64.decimal 5 3;
  epochs := 10;
  tied := true
|}.

(** A small tied model over four symbols. *)
Definition small_params : hyper := {|
  inv_size := 4;
  p_d_emb := 2;
  p_d_hid := 2;
  num_layers := 1;
  batch_size := 2;
  learning_rate := Float64.decimal 5 3;
  epochs := 2;
  tied := true
|}.

Definition small_init (l : loc) (i j : nat) : R := INR (l + i + j).

Definition empty_world : world R := World ∅ 0 [] [].

Definition small_net : Emb_RNNLM := {|
  vocab_size := 4; d_emb := 2; n_layers := 1; d_hid := 2;
  embeddings := {| emb_weight := 0 |};
  i2R := [ {| weight_ih := 1; weight_hh := 2; bias_ih := 3; bias_hh := 4 |} ];
  R2o := {| lin_weight := 0; lin_bias := 6 |}
|}.

Definition small_world : world R :=
  (Emb_RNNLM_init small_init small_params empty_world).2.

Definition small_heap : gmap loc (tensor R) := heap small_world.

Definition newline : string := String "010"%char EmptyString.

(** A corpus file of two words over one phone. *)
Definition small_file : list string :=
  [String.append "a" newline; String.append "a a" newline].

(** An optimizer that leaves the parameters as they are. *)
Definition idle_init (ps : list loc) (lr : spec_float) : unit := tt.
Definition idle_step (opt : unit) (net : Emb_RNNLM) (batch : LongTensor2)
    (h : gmap loc (tensor R)) : unit * gmap loc (tensor R) := (opt, h).

(* ===================================================================== *)
(** * Results and list comprehensions *)
(* ===================================================================== *)

Lemma rbind_Ok {A B : Type} (r : result A) (k : A → result B) (b : B) :
  rbind r k = Ok b ↔ ∃ a, r = Ok a ∧ k a = Ok b.
Proof.
  destruct r as [a|e]; simpl; split.
  - intros Hk. by exists a.
  - by intros (a' & [= <-] & Hk).
  - discriminate.
  - by intros (a' & [=] & _).
Qed.

Lemma rmapM_Ok {A B : Type} (f : A → result B) (l : list A) (l' : list B) :
  rmapM f l = Ok l' ↔ Forall2 (λ a b, f a = Ok b) l l'.
Proof.
  revert l'. induction l as [|a l IH]; intros l'; simpl.
  - split; [intros [= <-]; constructor | by inversion 1].
  - rewrite rbind_Ok. split.
    + intros (b & Hb & Hrest). apply rbind_Ok in Hrest as (bs & Hbs & [= <-]).
      constructor; [done | by apply IH].
    + inversion 1 as [|? b ? bs Hb Hbs]; subst. exists b. split; [done|].
      apply IH in Hbs. by rewrite Hbs.
Qed.

Lemma elem_of_concat {A : Type} (x : A) (ls : list (list A)) :
  x ∈ concat ls ↔ ∃ l, x ∈ l ∧ l ∈ ls.
Proof.
  induction ls as [|l ls IH]; simpl.
  - split; [by intros ?%elem_of_nil | by intros (l & _ & ?%elem_of_nil)].
  - rewrite elem_of_app, IH. split.
    + intros [Hx|(l' & Hx & Hl')]; [exists l; split; [done | left]
                                   | exists l'; split; [done | by right]].
    + intros (l' & Hx & [->|Hl']%elem_of_cons); [by left | right; by exists l'].
Qed.

Lemma rmapM_total {A B : Type} (f : A → result B) (g : A → B) (l : list A) :
  Forall (λ a, f a = Ok (g a)) l → rmapM f l = Ok (map g l).
Proof.
  intros Hall. apply rmapM_Ok. induction Hall; simpl; by constructor.
Qed.

(* ===================================================================== *)
(** * The shuffle is a permutation *)
(* ===================================================================== *)

Lemma insert_cons_perm {A : Type} (t : list A) (j : nat) (b h : A) :
  t !! j = Some b → b :: <[j:=h]> t ≡ₚ h :: t.
Proof.
  revert j. induction t as [|c t IH]; intros [|j] Hj; simplify_eq/=.
  - apply perm_swap.
  - rewrite (perm_swap c b). rewrite (IH _ Hj). apply perm_swap.
Qed.

Lemma list_swap_perm {A : Type} (i j : nat) (x : list A) : list_swap i j x ≡ₚ x.
Proof.
  unfold list_swap.
  destruct (x !! i) as [a|] eqn:Hi; [|done].
  destruct (x !! j) as [b|] eqn:Hj; [|done].
  revert i j Hi Hj. induction x as [|h t IH]; intros [|i] [|j] Hi Hj; simplify_eq/=.
  - done.
  - by apply insert_cons_perm.
  - by apply insert_cons_perm.
  - f_equiv. by apply IH.
Qed.

Lemma shuffle_loop_perm {A : Type} (n : nat) (x : list A) (g : rng) :
  (shuffle_loop n x g).1 ≡ₚ x.
Proof.
  revert x g. induction n as [|n IH]; intros x g; simpl; [done|].
  destruct (randbelow (S (S n)) g) as [j g']. rewrite IH. apply list_swap_perm.
Qed.

Lemma shuffle_perm {A : Type} (x : list A) (g : rng) : (shuffle x g).1 ≡ₚ x.
Proof. apply shuffle_loop_perm. Qed.
(* ===================================================================== *)
(** * Slices *)
(* ===================================================================== *)

Lemma slice_from_last10 {A : Type} (l : list A) :
  slice_from l (-10) = drop (length l - 10) l.
Proof. unfold slice_from, slice_bound. simpl. f_equal. lia. Qed.

Lemma slice_to_drop_last {A : Type} (l : list A) :
  slice_to l (-1) = take (length l - 1) l.
Proof. unfold slice_to, slice_bound. simpl. f_equal. lia. Qed.

Lemma slice_from_1 {A : Type} (l : list A) : slice_from l 1 = drop 1 l.
Proof.
  unfold slice_from, slice_bound. simpl. destruct l as [|a l]; [done|].
  f_equal. simpl. lia.
Qed.

Lemma slice_to_from_app {A : Type} (l : list A) (k : Z) :
  slice_to l k ++ slice_from l k = l.
Proof. apply take_drop. Qed.

(* ===================================================================== *)
(** * The vocabulary *)
(* ===================================================================== *)

Lemma phone2ix_foldl_notin (l : list string) (k : nat) (d : gmap string nat) (p : string) :
  p ∉ l →
  foldl (λ d '(ix, q), <[q:=ix]> d) d (enumerate_from k l) !! p = d !! p.
Proof.
  revert k d. induction l as [|q l IH]; intros k d Hp; simpl; [done|].
  apply not_elem_of_cons in Hp as [Hne Hp].
  rewrite IH by done. by rewrite lookup_insert_ne.
Qed.

Lemma phone2ix_foldl_lookup (l : list string) (k i : nat) (d : gmap string nat)
    (p : string) :
  NoDup l → l !! i = Some p →
  foldl (λ d '(ix, q), <[q:=ix]> d) d (enumerate_from k l) !! p = Some (k + i).
Proof.
  revert k i d. induction l as [|q l IH]; intros k i d Hnd Hi; [done|].
  apply NoDup_cons in Hnd as [Hq Hnd]. destruct i as [|i]; simplify_eq/=.
  - rewrite phone2ix_foldl_notin by done.
    rewrite lookup_insert_eq. by rewrite Nat.add_0_r.
  - rewrite (IH (S k) i) by done. f_equal. lia.
Qed.

Lemma ix2phone_foldl_lookup (l : list string) (k j : nat) (d : gmap nat string) :
  foldl (λ d '(ix, q), <[ix:=q]> d) d (enumerate_from k l) !! j
  = if bool_decide (k ≤ j < k + length l) then l !! (j - k) else d !! j.
Proof.
  revert k d. induction l as [|q l IH]; intros k d; simpl.
  - rewrite bool_decide_eq_false_2 by lia. done.
  - rewrite IH. case_bool_decide as H1; case_bool_decide as H2; try lia.
    + replace (j - k) with (S (j - S k)) by lia. done.
    + assert (j = k) as -> by lia. rewrite lookup_insert_eq.
      by rewrite Nat.sub_diag.
    + rewrite lookup_insert_ne by lia. done.
Qed.

Lemma encode_Ok (d : gmap string nat) (sequence : list string) (row : list nat) :
  encode d sequence = Ok row ↔ Forall2 (λ p ix, d !! p = Some ix) sequence row.
Proof.
  unfold encode. rewrite rmapM_Ok.
  split; intros HF; (eapply Forall2_impl; [exact HF|]);
    intros p ix; simpl; destruct (d !! p); naive_solver.
Qed.

Lemma encode_app (d : gmap string nat) (s1 s2 : list string) (r1 r2 : list nat) :
  encode d s1 = Ok r1 → encode d s2 = Ok r2 → encode d (s1 ++ s2) = Ok (r1 ++ r2).
Proof. rewrite !encode_Ok. apply Forall2_app. Qed.

Lemma encode_replicate (d : gmap string nat) (p : string) (ix n : nat) :
  d !! p = Some ix → encode d (replicate n p) = Ok (replicate n ix).
Proof. intros Hp. apply encode_Ok. by apply Forall2_replicate. Qed.

Lemma encode_length (d : gmap string nat) (sequence : list string) (row : list nat) :
  encode d sequence = Ok row → length row = length sequence.
Proof. rewrite encode_Ok. intros Hrow. symmetry. by eapply Forall2_length. Qed.

Lemma foldl_max_spec (ns : list nat) (n : nat) :
  (foldl Nat.max n ns = n ∨ foldl Nat.max n ns ∈ ns)
  ∧ n ≤ foldl Nat.max n ns
  ∧ ∀ k, k ∈ ns → k ≤ foldl Nat.max n ns.
Proof.
  revert n. induction ns as [|a ns IH]; intros n; simpl.
  - split_and!; [by left | done | by intros k ?%elem_of_nil].
  - destruct (IH (n `max` a)) as (Hin & Hle & Hall). split_and!.
    + destruct Hin as [Heq|Hin]; [|right; by right].
      rewrite Heq. destruct (Nat.max_spec n a) as [[_ ->]|[_ ->]]; [right; left|by left].
    + lia.
    + intros k [->|Hk]%elem_of_cons; [lia | by apply Hall].
Qed.

Lemma py_max_spec (lens : list nat) (m : nat) :
  py_max lens = Ok m → m ∈ lens ∧ ∀ k, k ∈ lens → k ≤ m.
Proof.
  destruct lens as [|n ns]; [done|]. intros [= <-].
  destruct (foldl_max_spec ns n) as (Hin & Hle & Hall). split.
  - destruct Hin as [->|Hin]; [left | by right].
  - intros k [->|Hk]%elem_of_cons; [done | by apply Hall].
Qed.

Lemma py_max_nonempty (lens : list nat) : lens ≠ [] → ∃ m, py_max lens = Ok m.
Proof. destruct lens; [done|]. intros _. by eexists. Qed.

Lemma torch_stack_Ok (tensors : list (list nat)) (m : nat) :
  tensors ≠ [] → (∀ row, row ∈ tensors → length row = m) →
  torch_stack tensors = Ok tensors.
Proof.
  destruct tensors as [|t ts]; [done|]. intros _ Hlen. unfold torch_stack.
  rewrite (proj2 (forallb_forall _ _)); [done|].
  intros r Hr%list_elem_of_In. apply Nat.eqb_eq.
  rewrite (Hlen r Hr). symmetry. apply Hlen. left.
Qed.

Lemma torch_stack_inv (tensors out : list (list nat)) :
  torch_stack tensors = Ok out → out = tensors ∧ tensors ≠ [].
Proof.
  destruct tensors as [|t ts]; [done|]. unfold torch_stack.
  destruct (forallb _ _); [|done]. by intros [= <-].
Qed.

Section ProcessDataFacts.
Variable set_order : list string → list string.
Hypothesis set_order_NoDup : ∀ l, NoDup (set_order l).
Hypothesis set_order_elem : ∀ l x, x ∈ set_order l ↔ x ∈ l.

Lemma inventory_NoDup (padded : list (list string)) :
  NoDup (build_inventory set_order padded).
Proof.
  unfold build_inventory. apply NoDup_cons. split.
  - rewrite list_elem_of_filter. naive_solver.
  - apply NoDup_filter, set_order_NoDup.
Qed.

Lemma inventory_elem (padded : list (list string)) (x : string) :
  x ∈ build_inventory set_order padded ↔ x = pad_symbol ∨ x ∈ concat padded.
Proof.
  unfold build_inventory. rewrite elem_of_cons, list_elem_of_filter, set_order_elem.
  destruct (decide (x = pad_symbol)); naive_solver.
Qed.

Lemma phone2ix_lookup (inv : list string) (i : nat) (p : string) :
  NoDup inv → inv !! i = Some p → build_phone2ix inv !! p = Some i.
Proof. intros Hnd Hi. unfold build_phone2ix, enumerate. by rewrite (phone2ix_foldl_lookup inv 0 i). Qed.

Lemma ix2phone_lookup (inv : list string) (i : nat) :
  build_ix2phone inv !! i = inv !! i.
Proof.
  unfold build_ix2phone, enumerate. rewrite ix2phone_foldl_lookup.
  case_bool_decide as Hi.
  - by rewrite Nat.sub_0_r.
  - rewrite lookup_empty. symmetry. apply lookup_ge_None. lia.
Qed.

(** Every symbol of the padded data encodes, and the padding symbol
    encodes to 0. *)
Lemma phone2ix_pad (padded : list (list string)) :
  build_phone2ix (build_inventory set_order padded) !! pad_symbol = Some 0.
Proof. apply phone2ix_lookup; [apply inventory_NoDup | done]. Qed.

Lemma phone2ix_total (padded : list (list string)) (sequence : list string) :
  sequence ⊆ concat padded →
  ∃ row, encode (build_phone2ix (build_inventory set_order padded)) sequence = Ok row.
Proof.
  intros Hsub. induction sequence as [|p sequence IH].
  - by exists [].
  - destruct IH as [row Hrow]; [set_solver|].
    assert (p ∈ build_inventory set_order padded) as Hp.
    { apply inventory_elem. right. apply Hsub. left. }
    apply list_elem_of_lookup in Hp as [i Hi].
    exists (i :: row). apply encode_Ok. constructor.
    + apply phone2ix_lookup; [apply inventory_NoDup | done].
    + by apply encode_Ok.
Qed.

Lemma padded_encoding_length (d : gmap string nat) (m : nat)
    (sequence : list string) (row : list nat) :
  length sequence ≤ m → padded_encoding d m sequence row → length row = m.
Proof.
  intros Hle (enc & Henc & ->). rewrite length_app, length_replicate.
  rewrite (encode_length _ _ _ Henc). lia.
Qed.

Lemma encode_padded (data : list (list string)) (m : nat) :
  let d := build_phone2ix (build_inventory set_order (pad_all m data)) in
  ∃ as_ixs, rmapM (encode d) (pad_all m data) = Ok as_ixs
            ∧ Forall2 (padded_encoding d m) data as_ixs.
Proof.
  intros d.
  assert (∀ sequence, sequence ∈ data → ∃ enc, encode d sequence = Ok enc) as Henc.
  { intros sequence Hin. apply phone2ix_total. intros p Hp.
    apply elem_of_concat. exists (sequence ++ replicate (m - length sequence) pad_symbol).
    split; [set_solver|]. unfold pad_all. apply list_elem_of_fmap.
    by exists sequence. }
  assert (d !! pad_symbol = Some 0) as Hpad by apply phone2ix_pad.
  clearbody d. unfold pad_all.
  induction data as [|sequence data IH]; simpl.
  - exists []. split; [done | constructor].
  - destruct IH as (rows & Hrows & Hall); [intros; apply Henc; by right|].
    destruct (Henc sequence) as [enc Henc1]; [left|].
    exists ((enc ++ replicate (m - length sequence) 0) :: rows). split.
    + rewrite (encode_app d _ _ enc (replicate (m - length sequence) 0));
        [|done|by apply encode_replicate].
      simpl. by rewrite Hrows.
    + constructor; [by exists enc | done].
Qed.

(** What a successful call has computed. *)
Lemma process_data_inv (g g' : rng) (corpus : list (list string)) (dev : bool)
    (training_split : Z) (p : processed) :
  process_data set_order g corpus dev training_split = (Ok p, g') →
  ∃ m as_ixs,
    let shuffled := (shuffle corpus g).1 in
    py_max (map length shuffled) = Ok m
    ∧ inventory p = build_inventory set_order (pad_all m shuffled)
    ∧ phone2ix p = build_phone2ix (inventory p)
    ∧ ix2phone p = build_ix2phone (inventory p)
    ∧ Forall2 (padded_encoding (phone2ix p) m) shuffled as_ixs
    ∧ training_data p ≠ [] ∧ dev_data p ≠ []
    ∧ if dev then
        ∃ split, split_index (length as_ixs) training_split = Ok split
                 ∧ training_data p = slice_to as_ixs split
                 ∧ dev_data p = slice_from as_ixs split
      else training_data p = as_ixs ∧ dev_data p = slice_from as_ixs (-10).
Proof.
  unfold process_data. destruct (shuffle corpus g) as [shuffled g1] eqn:Hsh.
  intros [= Hres _]. simpl.
  apply rbind_Ok in Hres as (m & Hm & Hres). exists m.
  destruct (encode_padded shuffled m) as (as_ixs & Henc & Hrows).
  simpl in Henc, Hrows. rewrite Henc in Hres. simpl in Hres. exists as_ixs.
  destruct dev; simpl in Hres.
  - apply rbind_Ok in Hres as (split & Hsplit & Hres).
    apply rbind_Ok in Hres as (tr & [-> Htr]%torch_stack_inv & Hres).
    apply rbind_Ok in Hres as (dv & [-> Hdv]%torch_stack_inv & [= <-]).
    simpl. split_and!; try done. by exists split.
  - apply rbind_Ok in Hres as (tr & [-> Htr]%torch_stack_inv & Hres).
    apply rbind_Ok in Hres as (dv & [-> Hdv]%torch_stack_inv & [= <-]).
    simpl. by split_and!.
Qed.

Lemma as_ixs_rows (d : gmap string nat) (m : nat) (shuffled : list (list string))
    (as_ixs : list (list nat)) :
  py_max (map length shuffled) = Ok m →
  Forall2 (padded_encoding d m) shuffled as_ixs →
  ∀ row, row ∈ as_ixs → length row = m.
Proof.
  intros [_ Hmax]%py_max_spec Hrows row Hrow.
  apply list_elem_of_lookup in Hrow as [i Hi].
  destruct (Forall2_lookup_r _ _ _ _ _ Hrows Hi) as (sequence & Hs & Hpe).
  eapply padded_encoding_length; [|done].
  apply Hmax, list_elem_of_fmap. exists sequence. split; [done|].
  by eapply list_elem_of_lookup_2.
Qed.

(** Without a dev split the call succeeds on every non-empty corpus. *)
Lemma process_data_no_dev_Ok (g : rng) (corpus : list (list string))
    (training_split : Z) :
  corpus ≠ [] →
  ∃ p, process_data set_order g corpus false training_split
       = (Ok p, (shuffle corpus g).2).
Proof.
  intros Hne. unfold process_data.
  pose proof (shuffle_perm corpus g) as Hperm.
  destruct (shuffle corpus g) as [shuffled g1]. simpl in Hperm |- *.
  assert (shuffled ≠ []) as Hsh.
  { intros ->. by apply Permutation_nil_l in Hperm. }
  destruct (py_max_nonempty (map length shuffled)) as [m Hm].
  { by destruct shuffled. }
  rewrite Hm. simpl.
  destruct (encode_padded shuffled m) as (as_ixs & Henc & Hrows).
  simpl in Henc, Hrows. rewrite Henc. simpl.
  pose proof (as_ixs_rows _ _ _ _ Hm Hrows) as Hlen.
  assert (as_ixs ≠ []) as Hne'.
  { intros ->. apply Forall2_nil_inv_r in Hrows. done. }
  rewrite (torch_stack_Ok as_ixs m) by done. simpl.
  rewrite (torch_stack_Ok (slice_from as_ixs (-10)) m).
  - simpl. by eexists.
  - rewrite slice_from_last10. intros Hnil.
    apply (f_equal length) in Hnil. rewrite length_drop in Hnil. simpl in Hnil.
    destruct as_ixs; [done|]. simpl in Hnil. lia.
  - intros row Hrow. apply Hlen. rewrite slice_from_last10 in Hrow.
    by eapply subseteq_drop.
Qed.

(** With a dev split the call succeeds exactly when both partitions are
    non-empty, and fails in [torch.stack] otherwise. *)
Lemma process_data_dev_Ok (g : rng) (corpus : list (list string))
    (training_split split : Z) :
  corpus ≠ [] →
  split_index (length corpus) training_split = Ok split →
  0 < slice_bound (length corpus) split < length corpus →
  ∃ p, process_data set_order g corpus true training_split
       = (Ok p, (shuffle corpus g).2).
Proof.
  intros Hne Hsplit Hbound. unfold process_data.
  pose proof (shuffle_perm corpus g) as Hperm.
  destruct (shuffle corpus g) as [shuffled g1]. simpl in Hperm |- *.
  assert (shuffled ≠ []) as Hsh.
  { intros ->. by apply Permutation_nil_l in Hperm. }
  destruct (py_max_nonempty (map length shuffled)) as [m Hm].
  { by destruct shuffled. }
  rewrite Hm. simpl.
  destruct (encode_padded shuffled m) as (as_ixs & Henc & Hrows).
  simpl in Henc, Hrows. rewrite Henc. simpl.
  pose proof (as_ixs_rows _ _ _ _ Hm Hrows) as Hlen.
  assert (length as_ixs = length corpus) as Hn.
  { rewrite <- (Forall2_length _ _ _ Hrows). by apply Permutation_length. }
  rewrite Hn, Hsplit. simpl.
  rewrite (torch_stack_Ok (slice_to as_ixs split) m); simpl.
  - rewrite (torch_stack_Ok (slice_from as_ixs split) m); simpl.
    + by eexists.
    + intros Hnil. apply (f_equal length) in Hnil. unfold slice_from in Hnil.
      rewrite length_drop, Hn in Hnil. simpl in Hnil. lia.
    + intros row Hrow. apply Hlen. by eapply subseteq_drop.
  - intros Hnil. apply (f_equal length) in Hnil. unfold slice_to in Hnil.
    rewrite length_take, Hn in Hnil. simpl in Hnil. lia.
  - intros row Hrow. apply Hlen. by eapply subseteq_take.
Qed.

Lemma padded_symbols (m : nat) (data : list (list string)) (x : string) :
  x = pad_symbol ∨ x ∈ concat (pad_all m data)
  ↔ x = pad_symbol ∨ ∃ sequence, sequence ∈ data ∧ x ∈ sequence.
Proof.
  rewrite elem_of_concat. unfold pad_all. split.
  - intros [->|(l & Hx & Hl)]; [by left|].
    apply list_elem_of_fmap in Hl as (sequence & -> & Hs).
    apply elem_of_app in Hx as [Hx|Hx]; [right; by exists sequence|].
    apply elem_of_replicate in Hx as [-> _]. by left.
  - intros [->|(sequence & Hs & Hx)]; [by left|]. right.
    exists (sequence ++ replicate (m - length sequence) pad_symbol). split.
    + apply elem_of_app. by left.
    + apply list_elem_of_fmap. by exists sequence.
Qed.

(** C5.  Whenever [process_data] returns, the padding symbol is at
    index 0 of the inventory and of both dictionaries, the inventory is
    the padding symbol together with the symbols of the corpus, and the
    two dictionaries are inverse to each other on it:
    [ix2phone[phone2ix[s]] == s] for every symbol [s] of the inventory
    (and [phone2ix[ix2phone[ix]] == ix] for every index). *)
Theorem vocabulary_round_trip (g g' : rng) (corpus : list (list string))
    (dev : bool) (training_split : Z) (p : processed) :
  process_data set_order g corpus dev training_split = (Ok p, g') →
  inventory p !! 0 = Some pad_symbol
  ∧ phone2ix p !! pad_symbol = Some 0
  ∧ ix2phone p !! 0 = Some pad_symbol
  ∧ (∀ s, s ∈ inventory p
          ↔ s = pad_symbol ∨ ∃ sequence, sequence ∈ corpus ∧ s ∈ sequence)
  ∧ (∀ s, s ∈ inventory p →
          ∃ ix, phone2ix p !! s = Some ix ∧ ix2phone p !! ix = Some s)
  ∧ (∀ ix s, ix2phone p !! ix = Some s → phone2ix p !! s = Some ix).
Proof.
  intros Hp. apply process_data_inv in Hp
    as (m & as_ixs & Hm & Hinv & Hp2i & Hi2p & _).
  pose proof (inventory_NoDup (pad_all m (shuffle corpus g).1)) as Hnd.
  rewrite <- Hinv in Hnd. rewrite Hp2i, Hi2p. split_and!.
  - by rewrite Hinv.
  - apply phone2ix_lookup; [done | by rewrite Hinv].
  - rewrite ix2phone_lookup. by rewrite Hinv.
  - intros s. rewrite Hinv, inventory_elem, padded_symbols.
    pose proof (shuffle_perm corpus g) as Hperm.
    split; (intros [->|(sequence & Hs & Hx)]; [by left|]);
      right; exists sequence; split; try done.
    + by rewrite <- Hperm.
    + by rewrite Hperm.
  - intros s [ix Hix]%list_elem_of_lookup. exists ix. split.
    + by apply phone2ix_lookup.
    + by rewrite ix2phone_lookup.
  - intros ix s Hs. rewrite ix2phone_lookup in Hs. by apply phone2ix_lookup.
Qed.

(** C6.  Whenever [process_data] returns, there is one length [m], the
    length of a longest sequence of the corpus, such that every row of
    the training and dev tensors has exactly [m] entries; row by row the
    encoded data is the shuffled corpus, each sequence encoded in full
    (nothing cut) and followed by the padding index 0 up to [m]. *)
Theorem encoded_rows_uniform (g g' : rng) (corpus : list (list string))
    (dev : bool) (training_split : Z) (p : processed) :
  process_data set_order g corpus dev training_split = (Ok p, g') →
  ∃ m,
    (∃ longest, longest ∈ corpus ∧ length longest = m)
    ∧ (∀ sequence, sequence ∈ corpus → length sequence ≤ m)
    ∧ (∀ row, row ∈ training_data p ++ dev_data p → length row = m)
    ∧ Forall2 (padded_encoding (phone2ix p) m) (shuffle corpus g).1
        (if dev then training_data p ++ dev_data p else training_data p)
    ∧ phone2ix p !! pad_symbol = Some 0.
Proof.
  intros Hp. apply process_data_inv in Hp
    as (m & as_ixs & Hm & Hinv & Hp2i & _ & Hrows & _ & _ & Hsplit).
  simpl in Hm, Hrows. exists m.
  assert (phone2ix p !! pad_symbol = Some 0) as Hpad.
  { rewrite Hp2i, Hinv. apply phone2ix_pad. }
  pose proof (shuffle_perm corpus g) as Hperm.
  pose proof (as_ixs_rows _ _ _ _ Hm Hrows) as Hlen.
  destruct (py_max_spec _ _ Hm) as [Hin Hmax]. split_and!.
  - apply list_elem_of_fmap in Hin as (longest & -> & Hl).
    exists longest. split; [by rewrite <- Hperm | done].
  - intros sequence Hs. apply Hmax, list_elem_of_fmap.
    exists sequence. split; [done | by rewrite Hperm].
  - intros row Hrow. apply Hlen. destruct dev.
    + destruct Hsplit as (split & _ & Htr & Hdv). rewrite Htr, Hdv in Hrow.
      by rewrite slice_to_from_app in Hrow.
    + destruct Hsplit as [Htr Hdv]. rewrite Htr, Hdv in Hrow.
      apply elem_of_app in Hrow as [Hrow|Hrow]; [done|].
      by eapply subseteq_drop.
  - destruct dev.
    + destruct Hsplit as (split & _ & -> & ->). by rewrite slice_to_from_app.
    + by destruct Hsplit as [-> _].
  - done.
Qed.

(** C10.  With [dev=False] and a non-empty corpus, [process_data]
    returns; its training tensor is the whole encoded (shuffled) corpus,
    its dev tensor is the last 10 rows of that same tensor (all of them
    when there are fewer than 10), so every dev row is a training row. *)
Theorem no_dev_split_overlaps (g : rng) (corpus : list (list string))
    (training_split : Z) :
  corpus ≠ [] →
  ∃ p m,
    process_data set_order g corpus false training_split
      = (Ok p, (shuffle corpus g).2)
    ∧ Forall2 (padded_encoding (phone2ix p) m) (shuffle corpus g).1 (training_data p)
    ∧ length (training_data p) = length corpus
    ∧ dev_data p = drop (length (training_data p) - 10) (training_data p)
    ∧ length (dev_data p) = length corpus `min` 10
    ∧ ∀ row, row ∈ dev_data p → row ∈ training_data p.
Proof.
  intros Hne. destruct (process_data_no_dev_Ok g corpus training_split Hne) as [p Hp].
  exists p. pose proof Hp as Hinv. apply process_data_inv in Hinv
    as (m & as_ixs & _ & _ & _ & _ & Hrows & _ & _ & Htr & Hdv).
  simpl in Hrows. exists m. rewrite Hdv, Htr, slice_from_last10.
  assert (length as_ixs = length corpus) as Hn.
  { rewrite <- (Forall2_length _ _ _ Hrows).
    apply Permutation_length, shuffle_perm. }
  split_and!; try done.
  - rewrite length_drop. lia.
  - intros row Hrow. by eapply subseteq_drop.
Qed.
End ProcessDataFacts.
(* ===================================================================== *)
(** * The forward pass *)
(* ===================================================================== *)

Lemma rmapM_take {A B : Type} (f : A → result B) (l : list A) (l' : list B) (n : nat) :
  rmapM f l = Ok l' → rmapM f (take n l) = Ok (take n l').
Proof. rewrite !rmapM_Ok. apply Forall2_take. Qed.

Lemma rmapM_length {A B : Type} (f : A → result B) (l : list A) (l' : list B) :
  rmapM f l = Ok l' → length l' = length l.
Proof. rewrite rmapM_Ok. intros HF. symmetry. by eapply Forall2_length. Qed.

Lemma rmapM_prefix_eq {A B : Type} (f : A → result B) (l1 l2 : list A)
    (l1' l2' : list B) (n : nat) :
  take n l1 = take n l2 → rmapM f l1 = Ok l1' → rmapM f l2 = Ok l2' →
  take n l1' = take n l2'.
Proof.
  intros Hpre H1%(rmapM_take _ _ _ n) H2%(rmapM_take _ _ _ n).
  rewrite Hpre in H1. congruence.
Qed.

Section ForwardFacts.
Context {F : Type} `{Scalar F}.

Lemma rnn_scan_length (c : cell_weights) (h : list F) (xs : list (list F)) :
  length (rnn_scan c h xs) = length xs.
Proof. revert h. induction xs as [|x xs IH]; intros h; simpl; [done | by rewrite IH]. Qed.

Lemma rnn_scan_take (c : cell_weights) (h : list F) (xs : list (list F)) (n : nat) :
  take n (rnn_scan c h xs) = rnn_scan c h (take n xs).
Proof.
  revert h n. induction xs as [|x xs IH]; intros h [|n]; simpl; try done.
  by rewrite IH.
Qed.

Lemma rnn_forward_length (layers : list cell_weights) (hidden_size : nat)
    (xs : list (list F)) :
  length (rnn_forward layers hidden_size xs) = length xs.
Proof.
  unfold rnn_forward. revert xs.
  induction layers as [|c layers IH]; intros xs; simpl; [done|].
  by rewrite IH, rnn_scan_length.
Qed.

Lemma rnn_forward_take (layers : list cell_weights) (hidden_size : nat)
    (xs : list (list F)) (n : nat) :
  take n (rnn_forward layers hidden_size xs)
  = rnn_forward layers hidden_size (take n xs).
Proof.
  unfold rnn_forward. revert xs.
  induction layers as [|c layers IH]; intros xs; simpl; [done|].
  by rewrite IH, rnn_scan_take.
Qed.

Lemma rnn_batch_Ok (layers : list cell_weights) (hidden_size : nat)
    (embs output : list (list (list F))) :
  rnn_batch layers hidden_size embs = Ok output
  ↔ Forall (λ xs, xs ≠ []) embs ∧ output = map (rnn_forward layers hidden_size) embs.
Proof.
  unfold rnn_batch.
  destruct (forallb _ embs) eqn:Hall.
  - split; [intros [= <-]; split; [|done] | by intros [_ ->]].
    apply Forall_forall. intros xs Hxs%list_elem_of_In.
    apply (proj1 (forallb_forall _ _) Hall) in Hxs. by destruct xs.
  - split; [done|]. intros [Hne _].
    assert (forallb (λ xs : list (list F), negb (length xs =? 0)) embs = true) as Ht.
    { apply forallb_forall. intros xs Hxs%list_elem_of_In.
      apply (proj1 (Forall_forall _ _) Hne) in Hxs. by destruct xs. }
    congruence.
Qed.

(** The shape of what [forward] returns, and how it is computed from
    the weights it read. *)
Lemma forward_inv (h : gmap loc (tensor F)) (net : Emb_RNNLM) (batch : LongTensor2)
    (out : list (list (list F))) :
  forward h net batch = Ok out →
  ∃ emb_w layers out_w out_b,
    get_mat h (emb_weight (embeddings net)) = Ok emb_w
    ∧ rmapM (read_layer h) (i2R net) = Ok layers
    ∧ get_mat h (lin_weight (R2o net)) = Ok out_w
    ∧ get_vec h (lin_bias (R2o net)) = Ok out_b
    ∧ Forall2 (λ row scores, ∃ embs,
                 rmapM (embedding_lookup emb_w) row = Ok embs
                 ∧ scores = map (linear out_w out_b)
                              (rnn_forward layers (d_hid net) embs))
        batch out.
Proof.
  unfold forward. intros Hf.
  apply rbind_Ok in Hf as (emb_w & Hemb & Hf).
  apply rbind_Ok in Hf as (layers & Hlayers & Hf).
  apply rbind_Ok in Hf as (out_w & Hw & Hf).
  apply rbind_Ok in Hf as (out_b & Hb & Hf).
  apply rbind_Ok in Hf as (embs & Hembs & Hf).
  apply rbind_Ok in Hf as (output & [_ ->]%rnn_batch_Ok & [= <-]).
  exists emb_w, layers, out_w, out_b. split_and!; try done.
  apply rmapM_Ok in Hembs. clear -Hembs.
  induction Hembs; simpl; constructor; [by eexists | done].
Qed.

(** [forward] returns only on sequences that are not empty. *)
Lemma forward_rows_nonempty (h : gmap loc (tensor F)) (net : Emb_RNNLM)
    (batch : LongTensor2) (out : list (list (list F))) :
  forward h net batch = Ok out → Forall (λ row, row ≠ []) batch.
Proof.
  unfold forward. intros Hf.
  apply rbind_Ok in Hf as (emb_w & Hemb & Hf).
  apply rbind_Ok in Hf as (layers & Hlayers & Hf).
  apply rbind_Ok in Hf as (out_w & Hw & Hf).
  apply rbind_Ok in Hf as (out_b & Hb & Hf).
  apply rbind_Ok in Hf as (embs & Hembs & Hf).
  apply rbind_Ok in Hf as (output & [Hne _]%rnn_batch_Ok & _).
  apply rmapM_Ok in Hembs. clear -Hembs Hne.
  induction Hembs as [|row xs batch embs Hrow _ IH]; [constructor|].
  apply Forall_cons in Hne as [Hxs Hne]. constructor; [|by apply IH].
  intros ->. by simplify_eq/=.
Qed.

Lemma forward_shape (h : gmap loc (tensor F)) (net : Emb_RNNLM) (batch : LongTensor2)
    (out : list (list (list F))) :
  forward h net batch = Ok out →
  Forall2 (λ row scores, length scores = length row) batch out.
Proof.
  intros (emb_w & layers & out_w & out_b & _ & _ & _ & _ & Hrows)%forward_inv.
  eapply Forall2_impl; [exact Hrows|]. intros row scores (embs & Hembs & ->).
  rewrite length_map, rnn_forward_length. by eapply rmapM_length.
Qed.

(** C9.  Causality of [Emb_RNNLM.forward]: if two batches agree, row by
    row, on the positions up to and including [t], then so do the
    scores computed for them; in particular the scores at position [t]
    are the same. *)
Theorem forward_causal (h : gmap loc (tensor F)) (net : Emb_RNNLM)
    (batch1 batch2 : LongTensor2) (out1 out2 : list (list (list F))) (t : nat) :
  Forall2 (λ row1 row2, take (S t) row1 = take (S t) row2) batch1 batch2 →
  forward h net batch1 = Ok out1 →
  forward h net batch2 = Ok out2 →
  Forall2 (λ scores1 scores2, ∀ t', t' ≤ t → scores1 !! t' = scores2 !! t')
    out1 out2.
Proof.
  intros Hagree
    (emb_w & layers & out_w & out_b & Hemb & Hlayers & Hw & Hb & Hrows1)%forward_inv
    (emb_w' & layers' & out_w' & out_b' & Hemb' & Hlayers' & Hw' & Hb' & Hrows2)%forward_inv.
  assert (emb_w' = emb_w) as -> by congruence.
  assert (layers' = layers) as -> by congruence.
  assert (out_w' = out_w) as -> by congruence.
  assert (out_b' = out_b) as -> by congruence.
  revert out1 out2 Hrows1 Hrows2.
  induction Hagree as [|row1 row2 batch1 batch2 Hpre Hagree IH];
    intros out1 out2 Hrows1 Hrows2.
  - apply Forall2_nil_inv_l in Hrows1 as ->.
    apply Forall2_nil_inv_l in Hrows2 as ->. constructor.
  - apply Forall2_cons_inv_l in Hrows1
      as (scores1 & out1' & (embs1 & Hembs1 & ->) & Hrows1 & ->).
    apply Forall2_cons_inv_l in Hrows2
      as (scores2 & out2' & (embs2 & Hembs2 & ->) & Hrows2 & ->).
    constructor; [|by apply IH].
    intros t' Ht'.
    pose proof (rmapM_prefix_eq _ _ _ _ _ (S t) Hpre Hembs1 Hembs2) as Hembs.
    assert (take (S t) (map (linear out_w out_b) (rnn_forward layers (d_hid net) embs1))
            = take (S t) (map (linear out_w out_b) (rnn_forward layers (d_hid net) embs2)))
      as Htake.
    { rewrite <- !fmap_take, !rnn_forward_take. by rewrite Hembs. }
    rewrite <- (lookup_take_lt _ (S t) t') by lia.
    rewrite <- (lookup_take_lt (map _ (rnn_forward _ _ embs2)) (S t) t') by lia.
    by rewrite Htake.
Qed.
End ForwardFacts.

(* ===================================================================== *)
(** * Shifted targets and the masked loss *)
(* ===================================================================== *)

Lemma concat_lookup_uniform {A : Type} (ls : list (list A)) (n b t : nat) (l : list A) :
  Forall (λ l, length l = n) ls → ls !! b = Some l → t < n →
  concat ls !! (b * n + t) = l !! t.
Proof.
  intros Hall. revert b. induction Hall as [|l0 ls Hl0 Hall IH]; intros b Hb Ht; [done|].
  destruct b as [|b]; simplify_eq/=.
  - rewrite lookup_app_l by lia. done.
  - rewrite lookup_app_r by lia. rewrite <- (IH b) by done. f_equal. lia.
Qed.

Lemma concat_length_uniform {A : Type} (ls : list (list A)) (n : nat) :
  Forall (λ l, length l = n) ls → length (concat ls) = length ls * n.
Proof.
  induction 1 as [|l ls Hl Hall IH]; simpl; [done|].
  rewrite length_app, IH. lia.
Qed.

Section LossFacts.
Context {F : Type} `{Scalar F}.

Lemma loss_terms_pairs (preds : list (list F)) (targets : list nat) :
  length preds = length targets →
  loss_terms 0 preds targets
  = rmapM (λ pair, nll_loss pair.1 pair.2) (List.filter unmasked (zip preds targets)).
Proof.
  revert targets. induction preds as [|p preds IH]; intros [|y targets] Hlen;
    simplify_eq/=; [done|].
  unfold unmasked at 1. simpl. destruct (y =? 0) eqn:Hy; simpl.
  - by apply IH.
  - by rewrite IH.
Qed.

Lemma loss_terms_masked (preds preds' : list (list F)) (targets : list nat) :
  Forall3 (λ p p' y, y ≠ 0 → p = p') preds preds' targets →
  loss_terms 0 preds' targets = loss_terms 0 preds targets.
Proof.
  induction 1 as [|p p' y preds preds' targets Hp _ IH]; simpl; [done|].
  destruct (y =? 0) eqn:Hy; [done|].
  apply Nat.eqb_neq in Hy. by rewrite (Hp Hy), IH.
Qed.

Lemma shift_preds_rows (out : list (list (list F))) (T : nat) :
  Forall (λ scores, length scores = T) out →
  Forall (λ l, length l = T - 1) (map (λ row, slice_to row (-1)) out).
Proof.
  intros Hall. apply Forall_fmap. eapply Forall_impl; [exact Hall|].
  intros scores Hlen. simpl in *. rewrite slice_to_drop_last, length_take. lia.
Qed.

Lemma shift_targets_rows (batch : LongTensor2) (T : nat) :
  Forall (λ row, length row = T) batch →
  Forall (λ l, length l = T - 1) (map (λ row, slice_from row 1) batch).
Proof.
  intros Hall. apply Forall_fmap. eapply Forall_impl; [exact Hall|].
  intros row Hlen. simpl in *. rewrite slice_from_1, length_drop. lia.
Qed.

(** C3.  On a batch of [B] rows of length [T] whose forward pass gave
    [out], one turn of the Trainer's loop and one turn of the Perplexity
    Evaluator's loop both compute [CrossEntropyLoss 0] (the mean for the
    Trainer, the sum for the Evaluator) of the shifted scores [preds] and
    targets, where:
    - both flattened lists have [B * (T - 1)] entries, entry
      [b * (T - 1) + t] pairing the scores of row [b] at position [t]
      with the symbol of row [b] at position [t + 1], for [t] from 0 to
      [T - 2] (the scores at the last position are not used);
    - the loss is the reduction of the negative log-likelihoods of the
      pairs whose target is not 0 only, so a padded position adds no
      term (and is not counted by the mean);
    - the loss does not depend on the scores at padded positions:
      changing them in any way leaves it unchanged, hence its gradient
      with respect to them is zero. *)
Theorem shifted_masked_loss (h : gmap loc (tensor F)) (net : Emb_RNNLM)
    (batch : LongTensor2) (out : list (list (list F))) (T : nat) :
  Forall (λ row, length row = T) batch →
  forward h net batch = Ok out →
  let preds := shift_preds out in
  let targets := shift_targets batch in
  (∀ dataset start stop nll total,
     slice dataset start stop = batch →
     perplexity_step h net dataset (nll, total) (start, stop)
     = (loss ←ᵣ CrossEntropyLoss 0 Sum preds targets;
        Ok (s_add nll loss, s_add total (s_of_nat (count_nonzero batch)))))
  ∧ (∀ (optimizer : Type)
       (adam_step : optimizer → Emb_RNNLM → LongTensor2 → gmap loc (tensor F)
                    → optimizer * gmap loc (tensor F))
       dataset start stop opt ep_loss w,
       slice dataset start stop = batch → heap w = h →
       (train_batch optimizer adam_step net dataset (opt, ep_loss) (start, stop) w).1
       = (loss ←ᵣ CrossEntropyLoss 0 Mean preds targets;
          Ok ((adam_step opt net batch h).1, s_add ep_loss loss)))
  ∧ length preds = length batch * (T - 1)
  ∧ length targets = length batch * (T - 1)
  ∧ (∀ b t row scores,
       batch !! b = Some row → out !! b = Some scores → t + 1 < T →
       preds !! (b * (T - 1) + t) = scores !! t
       ∧ targets !! (b * (T - 1) + t) = row !! (t + 1))
  ∧ (∀ red,
       CrossEntropyLoss 0 red preds targets
       = (terms ←ᵣ rmapM (λ pair, nll_loss pair.1 pair.2)
                     (List.filter unmasked (zip preds targets));
          Ok (reduce_loss red terms)))
  ∧ (∀ red preds',
       Forall3 (λ p p' y, y ≠ 0 → p = p') preds preds' targets →
       CrossEntropyLoss 0 red preds' targets = CrossEntropyLoss 0 red preds targets).
Proof.
  intros Hrect Hf preds targets.
  pose proof (forward_shape _ _ _ _ Hf) as Hshape.
  assert (Forall (λ scores, length scores = T) out) as Hout.
  { clear -Hrect Hshape. induction Hshape as [|row scores batch out Hlen _ IH];
      [constructor|].
    apply Forall_cons in Hrect as [Hrow Hrect]. constructor; [congruence | by apply IH]. }
  assert (length out = length batch) as HB.
  { symmetry. by eapply Forall2_length. }
  assert (length preds = length batch * (T - 1)) as Hlp.
  { unfold preds, shift_preds.
    rewrite (concat_length_uniform _ (T - 1)) by by apply shift_preds_rows.
    by rewrite length_map, HB. }
  assert (length targets = length batch * (T - 1)) as Hlt.
  { unfold targets, shift_targets.
    rewrite (concat_length_uniform _ (T - 1)) by by apply shift_targets_rows.
    by rewrite length_map. }
  split_and!; try done.
  - intros dataset start stop nll total Hslice.
    unfold perplexity_step. rewrite Hslice, Hf. simpl.
    by destruct (CrossEntropyLoss 0 Sum _ _).
  - intros optimizer adam_step dataset start stop opt ep_loss w Hslice Hw.
    unfold train_batch, mbind, read_heap, mlift, write_heap, mret.
    rewrite Hslice, Hw, Hf. fold preds targets.
    destruct (CrossEntropyLoss 0 Mean preds targets) as [loss|e]; simpl; [|done].
    by destruct (adam_step opt net batch h).
  - intros b t row scores Hrow Hscores Ht. split.
    + unfold preds, shift_preds.
      rewrite (concat_lookup_uniform _ (T - 1) b t (slice_to scores (-1)));
        [| by apply shift_preds_rows | by rewrite list_lookup_fmap, Hscores | lia].
      rewrite slice_to_drop_last. apply lookup_take_lt.
      rewrite (proj1 (Forall_lookup _ _) Hout b scores Hscores). lia.
    + unfold targets, shift_targets.
      rewrite (concat_lookup_uniform _ (T - 1) b t (slice_from row 1));
        [| by apply shift_targets_rows | by rewrite list_lookup_fmap, Hrow | lia].
      rewrite slice_from_1, lookup_drop. f_equal. lia.
  - intros red. unfold CrossEntropyLoss. rewrite loss_terms_pairs by congruence. done.
  - intros red preds' Hagree. unfold CrossEntropyLoss.
    by rewrite (loss_terms_masked preds preds' targets).
Qed.
End LossFacts.

(* ===================================================================== *)
(** * Construction of the model and weight tying *)
(* ===================================================================== *)

Lemma mbind_run {F A B : Type} (m : M F A) (k : A → M F B) (w w' : world F) (a : A) :
  m w = (Ok a, w') → mbind m k w = k a w'.
Proof. unfold mbind. by intros ->. Qed.

Section InitFacts.
Context {F : Type} `{Scalar F}.
Variable init_value : loc → nat → nat → F.

Lemma allocates_bind {A B : Type} (m : M F A) (f : A → M F B) (k1 k2 : nat)
    (w w1 w2 : world F) (a : A) (b : B) :
  allocates m k1 w a w1 → allocates (f a) k2 w1 b w2 →
  allocates (mbind m f) (k1 + k2) w b w2.
Proof.
  intros (Hm & Hn1 & Ho1 & Hr1 & Hh1) (Hf & Hn2 & Ho2 & Hr2 & Hh2).
  unfold allocates. split_and!.
  - by rewrite (mbind_run _ _ _ _ _ Hm).
  - lia.
  - congruence.
  - congruence.
  - intros l Hl. rewrite Hh2 by lia. by apply Hh1.
Qed.

Lemma allocates_ret {A : Type} (a : A) (w : world F) : allocates (mret a) 0 w a w.
Proof. unfold allocates, mret. split_and!; try done; lia. Qed.




End InitFacts.
(* ===================================================================== *)
(** * Unknown symbols *)
(* ===================================================================== *)

Lemma rmapM_first_Raise {A B : Type} (f : A → result B) (l : list A) :
  (∃ a, a ∈ l ∧ ∃ e, f a = Raise e) →
  ∃ a e, a ∈ l ∧ f a = Raise e ∧ rmapM f l = Raise e.
Proof.
  induction l as [|x l IH]; intros (a & Ha & e & He).
  - by apply elem_of_nil in Ha.
  - simpl. destruct (f x) as [b|e'] eqn:Hx.
    + apply elem_of_cons in Ha as [->|Ha]; [congruence|].
      destruct IH as (a' & e' & Ha' & Hf & Hrest); [by eauto|].
      exists a', e'. split_and!; [by right | done |]. simpl. by rewrite Hrest.
    + exists x, e'. split_and!; [left | done | done].
Qed.

Lemma encode_Raise_inv (d : gmap string nat) (sequence : list string) (e : exn) :
  encode d sequence = Raise e → ∃ q, e = KeyError q ∧ q ∈ sequence ∧ d !! q = None.
Proof.
  unfold encode. induction sequence as [|x sequence IH]; simpl; [done|].
  destruct (d !! x) eqn:Hx; simpl.
  - destruct (rmapM _ sequence); [done|]. simpl. intros [= <-].
    destruct IH as (q & -> & Hq & Hdq); [done|]. exists q. split_and!; [done | by right | done].
  - intros [= <-]. exists x. split_and!; [done | left | done].
Qed.

Lemma encode_unknown (d : gmap string nat) (sequence : list string) (p : string) :
  p ∈ sequence → d !! p = None →
  ∃ q, q ∈ sequence ∧ d !! q = None ∧ encode d sequence = Raise (KeyError q).
Proof.
  intros Hp Hnone. destruct (encode d sequence) as [row|e] eqn:Henc.
  - apply encode_Ok in Henc. apply list_elem_of_lookup in Hp as [i Hi].
    destruct (Forall2_lookup_l _ _ _ _ _ Henc Hi) as (ix & _ & Hix). congruence.
  - apply encode_Raise_inv in Henc as (q & -> & Hq & Hdq). by exists q.
Qed.

Section ScoringFacts.
Context {F : Type} `{Scalar F}.

(** C8.  A symbol that is not a key of [phone2ix] makes the encoding
    comprehension [[phone2ix[p] for p in sequence]] (the one
    [process_data] and [get_probs] both run) raise [KeyError] on an
    unknown symbol of that sequence; no index is made up for it.  In
    [get_probs] the error is raised while the words are read, whatever
    the model and its weights are: nothing is scored. *)
Theorem unknown_symbol_raises (d : gmap string nat) (sequence : list string)
    (p : string) :
  p ∈ sequence → d !! p = None →
  (∃ q, q ∈ sequence ∧ d !! q = None ∧ encode d sequence = Raise (KeyError q))
  ∧ (∀ row, encode d sequence ≠ Ok row)
  ∧ (∀ (h : gmap loc (tensor F)) (model : Emb_RNNLM) (input_file : list string)
       (l : string),
       l ∈ input_file →
       sequence = ["<s>"] ++ split_spaces (rstrip l) ++ ["<e>"] →
       ∃ q, d !! q = None
            ∧ get_probs h input_file model d = Raise (KeyError q)).
Proof.
  intros Hp Hnone. destruct (encode_unknown d sequence p Hp Hnone) as (q & Hq & Hdq & Henc).
  split_and!.
  - by exists q.
  - intros row Hrow. congruence.
  - intros h model input_file l Hl ->. unfold get_probs.
    destruct (rmapM_first_Raise (read_word d) input_file)
      as (l' & e & Hl' & Hread & Hrun).
    { exists l. split; [done|]. unfold read_word. rewrite Henc. by eexists. }
    rewrite Hrun. simpl. unfold read_word in Hread.
    destruct (encode d (["<s>"] ++ split_spaces (rstrip l') ++ ["<e>"]))
      as [row|e'] eqn:Henc'; simpl in Hread; [done|].
    assert (e' = e) as -> by congruence.
    apply encode_Raise_inv in Henc' as (q' & -> & _ & Hq'). by exists q'.
Qed.
End ScoringFacts.

(* ===================================================================== *)
(** * Concrete runs *)
(* ===================================================================== *)

Lemma remove_dups_elem (l : list string) (x : string) : x ∈ remove_dups l ↔ x ∈ l.
Proof. apply elem_of_remove_dups. Qed.

Lemma remove_dups_NoDup (l : list string) : NoDup (remove_dups l).
Proof. apply NoDup_remove_dups. Qed.

Lemma vocabulary_round_trip_witness :
  ∃ p, process_data remove_dups [3; 1; 4] corpus3 true 60 = (Ok p, [4])
       ∧ inventory p !! 0 = Some pad_symbol
       ∧ phone2ix p !! pad_symbol = Some 0
       ∧ ix2phone p !! 0 = Some pad_symbol
       ∧ (∀ s, s ∈ inventory p
               ↔ s = pad_symbol ∨ ∃ sequence, sequence ∈ corpus3 ∧ s ∈ sequence)
       ∧ (∀ s, s ∈ inventory p →
               ∃ ix, phone2ix p !! s = Some ix ∧ ix2phone p !! ix = Some s)
       ∧ (∀ ix s, ix2phone p !! ix = Some s → phone2ix p !! s = Some ix).
Proof.
  eexists. split; [vm_compute; reflexivity|].
  apply (vocabulary_round_trip remove_dups remove_dups_NoDup remove_dups_elem
           [3; 1; 4] [4] corpus3 true 60).
  vm_compute. reflexivity.
Defined.

Lemma encoded_rows_uniform_witness :
  ∃ p, process_data remove_dups [3; 1; 4] corpus3 true 60 = (Ok p, [4])
       ∧ training_data p = [[2; 1; 4; 6; 0]]
       ∧ dev_data p = [[2; 4; 6; 0; 0]; [2; 3; 4; 5; 6]]
       ∧ ∃ m,
           (∃ longest, longest ∈ corpus3 ∧ length longest = m)
           ∧ (∀ sequence, sequence ∈ corpus3 → length sequence ≤ m)
           ∧ (∀ row, row ∈ training_data p ++ dev_data p → length row = m)
           ∧ Forall2 (padded_encoding (phone2ix p) m) (shuffle corpus3 [3; 1; 4]).1
               (training_data p ++ dev_data p)
           ∧ phone2ix p !! pad_symbol = Some 0.
Proof.
  eexists. split; [vm_compute; reflexivity|]. split; [reflexivity|]. split; [reflexivity|].
  apply (encoded_rows_uniform remove_dups remove_dups_NoDup remove_dups_elem
           [3; 1; 4] [4] corpus3 true 60).
  vm_compute. reflexivity.
Defined.

Lemma no_dev_split_overlaps_witness :
  corpus3 ≠ []
  ∧ ∃ p m,
      process_data remove_dups [3; 1; 4] corpus3 false 60
        = (Ok p, (shuffle corpus3 [3; 1; 4]).2)
      ∧ Forall2 (padded_encoding (phone2ix p) m) (shuffle corpus3 [3; 1; 4]).1
          (training_data p)
      ∧ length (training_data p) = length corpus3
      ∧ dev_data p = drop (length (training_data p) - 10) (training_data p)
      ∧ length (dev_data p) = length corpus3 `min` 10
      ∧ ∀ row, row ∈ dev_data p → row ∈ training_data p.
Proof.
  split; [discriminate|].
  apply (no_dev_split_overlaps remove_dups remove_dups_NoDup remove_dups_elem
           [3; 1; 4] corpus3 60).
  discriminate.
Defined.

(** C7 (the split point).  [process_data] computes the split point as
    [int(n * (training_split/100))] in double precision.  For 100
    sequences and a training share of 29 percent the quotient 29/100 is
    rounded below 0.29, the product falls just short of 29, and the
    truncation gives 28: the training tensor gets 28 rows and the dev
    tensor 72, where [floor(100 * 29 / 100)] is 29.  The same happens for
    50 sequences at 58 percent. *)
Theorem split_point_rounds_down :
  split_index 100 29 = Ok 28%Z
  ∧ (100 * 29 / 100 = 29)%Z
  ∧ split_index 50 58 = Ok 28%Z
  ∧ (50 * 58 / 100 = 29)%Z
  ∧ ∃ p g',
      process_data remove_dups [] (replicate 100 ["<s>"; "a"; "<e>"]) true 29
        = (Ok p, g')
      ∧ length (training_data p) = 28
      ∧ length (dev_data p) = 72.
Proof.
  split_and!; try (vm_compute; reflexivity).
  eexists _, _. split; [vm_compute; reflexivity|]. split; reflexivity.
Qed.

(** With a dev split, a split point at either end makes [torch.stack]
    refuse the empty partition: the call raises. *)
Lemma split_at_end_raises :
  (process_data remove_dups [] corpus3 true 100).1 = Raise RuntimeError
  ∧ (process_data remove_dups [] corpus3 true 30).1 = Raise RuntimeError
  ∧ (process_data remove_dups [] [] true 60).1 = Raise ValueError.
Proof. split_and!; vm_compute; reflexivity. Qed.

Lemma unknown_symbol_raises_witness :
  let d : gmap string nat := <["<s>" := 1]> (<["<e>" := 2]> (<["a" := 3]> ∅)) in
  let sequence := ["<s>"] ++ split_spaces (rstrip "a x
") ++ ["<e>"] in
  "x" ∈ sequence ∧ d !! "x" = None
  ∧ (∃ q, q ∈ sequence ∧ d !! q = None ∧ encode d sequence = Raise (KeyError q))
  ∧ (∀ row, encode d sequence ≠ Ok row)
  ∧ (∀ (h : gmap loc (tensor R)) (model : Emb_RNNLM) (input_file : list string)
       (l : string),
       l ∈ input_file →
       sequence = ["<s>"] ++ split_spaces (rstrip l) ++ ["<e>"] →
       ∃ q, d !! q = None
            ∧ get_probs h input_file model d = Raise (KeyError q)).
Proof.
  intros d sequence.
  assert ("x" ∈ sequence) as Hin by (vm_compute; do 2 right; left).
  assert (d !! "x" = None) as Hnone by (vm_compute; reflexivity).
  split; [exact Hin|]. split; [exact Hnone|].
  exact (unknown_symbol_raises (F:=R) d sequence "x" Hin Hnone).
Defined.

Section PerplexityFacts.
Context {F : Type} `{Scalar F}.

(** Whatever the scalars are: a dataset that fits in one batch (as every
    word scored by [get_probs] does) is scored in one pass, and the sum
    is divided by the number of its non-zero entries. *)
Lemma compute_perplexity_single_batch (h : gmap loc (tensor F)) (net : Emb_RNNLM)
    (dataset : LongTensor2) (bsz : nat) :
  0 < length dataset ≤ bsz →
  compute_perplexity h dataset net bsz
  = (loss ←ᵣ total_nll h net dataset;
     Ok (s_exp (s_div (s_add s_zero loss)
                  (s_add s_zero (s_of_nat (count_nonzero dataset)))))).
Proof.
  intros [Hpos Hle]. unfold compute_perplexity, make_batches, py_range.
  destruct bsz as [|b]; [lia|].
  replace ((length dataset + S b - 1) / S b) with 1.
  2:{ apply Nat.div_unique with (r := length dataset - 1); lia. }
  cbn [seq map rbind rfoldl].
  replace (slice dataset (0 * S b) (0 * S b + S b)) with dataset
    by (unfold slice; simpl; rewrite take_ge by lia; done).
  unfold perplexity_step, total_nll.
  replace (slice dataset (0 * S b) (0 * S b + S b)) with dataset
    by (unfold slice; simpl; rewrite take_ge by lia; done).
  destruct (forward h net dataset) as [preds|e]; simpl; [|done].
  by destruct (CrossEntropyLoss 0 Sum _ _).
Qed.

(** Whatever the scalars are: on the one-word dataset
    [<s> a <e>] = [[1; 2; 3]] the evaluator sums the negative
    log-likelihood of the 2 targets (positions 1 and 2) and divides by
    3: [torch.nonzero(batch)] counts every non-zero entry of the batch,
    the start symbol at position 0 included. *)
Lemma perplexity_counts_start_symbol (h : gmap loc (tensor F)) (net : Emb_RNNLM) :
  shift_targets [[1; 2; 3]] = [2; 3]
  ∧ count_nonzero [[1; 2; 3]] = 3
  ∧ compute_perplexity h [[1; 2; 3]] net 64
    = (preds ←ᵣ forward h net [[1; 2; 3]];
       loss ←ᵣ CrossEntropyLoss 0 Sum (shift_preds preds) [2; 3];
       Ok (s_exp (s_div (s_add s_zero loss) (s_add s_zero (s_of_nat 3))))).
Proof.
  split; [reflexivity|]. split; [reflexivity|].
  unfold compute_perplexity. simpl. unfold perplexity_step.
  change (slice [[1; 2; 3]] 0 64) with [[1; 2; 3]].
  change (shift_targets [[1; 2; 3]]) with [2; 3].
  change (count_nonzero [[1; 2; 3]]) with 3.
  destruct (forward h net [[1; 2; 3]]) as [preds|e]; simpl; [|done].
  destruct (CrossEntropyLoss 0 Sum (shift_preds preds) [2; 3]) as [loss|e]; simpl; done.
Qed.
End PerplexityFacts.

Lemma small_net_built :
  (Emb_RNNLM_init small_init small_params empty_world).1 = Ok small_net.
Proof. reflexivity. Qed.

Lemma forward_causal_witness :
  ∃ out1 out2,
    Forall2 (λ row1 row2, take 2 row1 = take 2 row2) [[1; 2; 3; 0]] [[1; 2; 0; 0]]
    ∧ forward small_heap small_net [[1; 2; 3; 0]] = Ok out1
    ∧ forward small_heap small_net [[1; 2; 0; 0]] = Ok out2
    ∧ Forall2 (λ scores1 scores2 : list (list R),
                 ∀ t', t' ≤ 1 → scores1 !! t' = scores2 !! t') out1 out2.
Proof.
  eexists _, _. split; [repeat constructor|].
  split; [reflexivity|]. split; [reflexivity|].
  apply (forward_causal small_heap small_net [[1; 2; 3; 0]] [[1; 2; 0; 0]] _ _ 1);
    [repeat constructor | reflexivity | reflexivity].
Defined.

Lemma shifted_masked_loss_witness :
  ∃ out,
    Forall (λ row, length row = 4) [[1; 2; 3; 0]; [1; 3; 0; 0]]
    ∧ forward small_heap small_net [[1; 2; 3; 0]; [1; 3; 0; 0]] = Ok out
    ∧ shift_targets [[1; 2; 3; 0]; [1; 3; 0; 0]] = [2; 3; 0; 3; 0; 0]
    ∧ let batch := [[1; 2; 3; 0]; [1; 3; 0; 0]] in
      let preds := shift_preds out in
      let targets := shift_targets batch in
      (∀ dataset start stop nll total,
         slice dataset start stop = batch →
         perplexity_step small_heap small_net dataset (nll, total) (start, stop)
         = (loss ←ᵣ CrossEntropyLoss 0 Sum preds targets;
            Ok (s_add nll loss, s_add total (s_of_nat (count_nonzero batch)))))
      ∧ (∀ (optimizer : Type)
           (adam_step : optimizer → Emb_RNNLM → LongTensor2 → gmap loc (tensor R)
                        → optimizer * gmap loc (tensor R))
           dataset start stop opt ep_loss w,
           slice dataset start stop = batch → heap w = small_heap →
           (train_batch optimizer adam_step small_net dataset (opt, ep_loss)
              (start, stop) w).1
           = (loss ←ᵣ CrossEntropyLoss 0 Mean preds targets;
              Ok ((adam_step opt small_net batch small_heap).1, s_add ep_loss loss)))
      ∧ length preds = 2 * (4 - 1)
      ∧ length targets = 2 * (4 - 1)
      ∧ (∀ b t row scores,
           batch !! b = Some row → out !! b = Some scores → t + 1 < 4 →
           preds !! (b * (4 - 1) + t) = scores !! t
           ∧ targets !! (b * (4 - 1) + t) = row !! (t + 1))
      ∧ (∀ red,
           CrossEntropyLoss 0 red preds targets
           = (terms ←ᵣ rmapM (λ pair, nll_loss pair.1 pair.2)
                         (List.filter unmasked (zip preds targets));
              Ok (reduce_loss red terms)))
      ∧ (∀ red preds',
           Forall3 (λ p p' y, y ≠ 0 → p = p') preds preds' targets →
           CrossEntropyLoss 0 red preds' targets = CrossEntropyLoss 0 red preds targets).
Proof.
  eexists. split; [repeat constructor|]. split; [reflexivity|]. split; [reflexivity|].
  apply (shifted_masked_loss small_heap small_net [[1; 2; 3; 0]; [1; 3; 0; 0]] _ 4);
    [repeat constructor | reflexivity].
Defined.

(* ===================================================================== *)
(** * The training loop *)
(* ===================================================================== *)

Lemma silent_bind {F A B : Type} (m : M F A) (k : A → M F B) :
  silent m → (∀ a, silent (k a)) → silent (mbind m k).
Proof.
  intros Hm Hk w. unfold mbind. specialize (Hm w).
  destruct (m w) as [[a|e] w1]; simpl in *; [|done].
  by rewrite Hk.
Qed.

Lemma silent_ret {F A : Type} (a : A) : silent (mret (F:=F) a).
Proof. done. Qed.

Lemma silent_lift {F A : Type} (r : result A) : silent (mlift (F:=F) r).
Proof. done. Qed.

Lemma silent_mfoldl {F S A : Type} (f : S → A → M F S) (s : S) (l : list A) :
  (∀ s a, silent (f s a)) → silent (mfoldl f s l).
Proof.
  intros Hf. revert s. induction l as [|a l IH]; intros s; simpl.
  - apply silent_ret.
  - apply silent_bind; [apply Hf | intros s'; apply IH].
Qed.

Lemma mbind_cases {F A B : Type} (m : M F A) (k : A → M F B) (w : world F) :
  (∃ a w1, m w = (Ok a, w1) ∧ mbind m k w = k a w1)
  ∨ (∃ e w1, m w = (Raise e, w1) ∧ mbind m k w = (Raise e, w1)).
Proof.
  unfold mbind. destruct (m w) as [[a|e] w1]; [left | right]; by eexists _, _.
Qed.

Lemma silent_run {F A : Type} (m : M F A) (w w1 : world F) (r : result A) :
  silent m → m w = (r, w1) → stdout w1 = stdout w.
Proof. intros Hm Hrun. specialize (Hm w). by rewrite Hrun in Hm. Qed.

Section TrainFacts.
Context {F : Type} `{Scalar F}.
Variable optimizer : Type.
Variable adam_init : list loc → spec_float → optimizer.
Variable adam_step :
  optimizer → Emb_RNNLM → LongTensor2 → gmap loc (tensor F)
  → optimizer * gmap loc (tensor F).

Lemma silent_train_batch (net : Emb_RNNLM) (dataset : LongTensor2)
    (st : optimizer * F) (b : nat * nat) :
  silent (train_batch optimizer adam_step net dataset st b).
Proof.
  unfold train_batch. destruct st as [opt ep_loss]. destruct b as [start stop].
  apply silent_bind; [done|]. intros h.
  apply silent_bind; [apply silent_lift|]. intros preds.
  apply silent_bind; [apply silent_lift|]. intros loss.
  destruct (adam_step opt net (slice dataset start stop) h) as [opt' h'].
  apply silent_bind; [done|]. intros u. apply silent_ret.
Qed.

Lemma silent_shuffle_batches (batches : list (nat * nat)) :
  silent (F:=F) (shuffle_batches batches).
Proof. intros w. unfold shuffle_batches. by destruct (shuffle batches (rand w)). Qed.

Lemma loop_outcome_raise (k n : nat) (prev : F) (w w1 : world F) (e : exn) :
  stdout w1 = stdout w → loop_outcome k n prev w (Raise e, w1).
Proof.
  intros Hw1. exists [], false. simpl. rewrite app_nil_r.
  split_and!; try done. lia.
Qed.

Lemma epoch_loop_outcome (net : Emb_RNNLM) (dataset dev : LongTensor2) (n k : nat)
    (prev : F) (opt : optimizer) (batches : list (nat * nat)) (w : world F) :
  loop_outcome k n prev w
    (epoch_loop optimizer adam_step net dataset dev (seq k n) prev opt batches w).
Proof.
  revert k opt batches w. induction n as [|n IH]; intros k opt batches w.
  - exists [], false. simpl. rewrite app_nil_r. split_and!; try done.
  - cbn [seq epoch_loop].
    match goal with |- loop_outcome _ _ _ _ (mbind ?m ?f ?w0) =>
      destruct (mbind_cases m f w0)
        as [(batches' & w1 & Hm1 & ->)|(e & w1 & Hm1 & ->)] end;
      pose proof (silent_run _ _ _ _ (silent_shuffle_batches batches) Hm1) as Hs1.
    2:{ by apply loop_outcome_raise. }
    match goal with |- loop_outcome _ _ _ _ (mbind ?m ?f ?w0) =>
      destruct (mbind_cases m f w0)
        as [([opt' ep_loss] & w2 & Hm2 & ->)|(e & w2 & Hm2 & ->)] end;
      pose proof (silent_run _ _ _ _
                    (silent_mfoldl _ _ _ (silent_train_batch net dataset)) Hm2) as Hs2.
    2:{ apply loop_outcome_raise. congruence. }
    unfold mbind at 1. simpl.
    match goal with |- loop_outcome _ _ _ _ (mbind ?m ?f ?w0) =>
      destruct (mbind_cases m f w0)
        as [(dev_perplexity & w3 & Hm3 & ->)|(e & w3 & Hm3 & ->)] end;
      pose proof (silent_run _ _ _ _ (silent_lift _) Hm3) as Hs3.
    2:{ apply loop_outcome_raise. congruence. }
    unfold mbind at 1. simpl.
    set (w4 := World (heap w3) (next_loc w3)
                 (stdout w3 ++ [EpochReport k ep_loss dev_perplexity]) (rand w3)).
    fold (stop_test dev_perplexity prev).
    destruct (stop_test dev_perplexity prev) eqn:Hstop.
    + exists [(k, ep_loss, dev_perplexity)], true. simpl.
      rewrite Hs3, Hs2, Hs1. rewrite <- !app_assoc. simpl. split_and!; try done; try lia.
      intros [|i] r Hr; simplify_eq/=. done.
    + destruct (IH (S k) opt' batches' w4)
        as (reports & stopped & Hout & Hep & Hlen & Htest & Hall & Hok).
      exists ((k, ep_loss, dev_perplexity) :: reports), stopped. simpl.
      split_and!.
      * rewrite Hout. subst w4. simpl. rewrite Hs3, Hs2, Hs1. by rewrite <- !app_assoc.
      * by rewrite Hep.
      * lia.
      * intros [|i] r Hr; simplify_eq/=.
        -- rewrite Hstop. destruct reports as [|r reports].
           ++ destruct stopped; [|done]. by destruct (Hok eq_refl).
           ++ simpl. by rewrite andb_false_r.
        -- by apply Htest.
      * intros Hrun Hns. f_equal. by apply Hall.
      * intros Hst. destruct (Hok Hst). done.
Qed.

(** C2 (the stopping rule).  Whatever the data, the model and the
    optimizer, [train_lm] prints one report per epoch it ran and then
    the stop message if it stopped early, and it stops after an epoch
    exactly when that epoch's dev perplexity exceeds the constant [1e10]
    by more than [0.01]: the reported perplexity [p] of an epoch
    satisfies [p - 1e10 > 0.01] if and only if it is the last report of
    a run that stopped early.  The perplexity of the epoch before plays
    no part, because [prev_perplexity] is never assigned in the loop.  A
    run that returns without the stop message has run all the epochs. *)
Theorem train_lm_stop_rule (dataset dev : LongTensor2) (params : hyper)
    (net : Emb_RNNLM) (w : world F) :
  let run := train_lm optimizer adam_init adam_step dataset dev params net w in
  ∃ (reports : list (nat * F * F)) (stopped : bool),
    stdout run.2 = stdout w ++ map report_line reports
                     ++ (if stopped then [Msg "Stop early reached"] else [])
    ∧ map (λ r, r.1.1) reports = seq 0 (length reports)
    ∧ length reports ≤ epochs params
    ∧ (∀ i r, reports !! i = Some r →
              s_gtb (s_sub r.2 (s_lit 1 10)) (s_lit 1 (-2))
              = stopped && (S i =? length reports))
    ∧ (run.1 = Ok tt → stopped = false → length reports = epochs params)
    ∧ (stopped = true → run.1 = Ok tt ∧ reports ≠ []).
Proof.
  intros run. subst run. unfold train_lm.
  match goal with |- context [mbind ?m ?f ?w0] =>
    destruct (mbind_cases m f w0)
      as [(opt & w0' & Hm0 & ->)|(e & w0' & Hm0 & ->)] end.
  2:{ unfold mlift in Hm0. injection Hm0 as _ <-.
      apply (loop_outcome_raise 0 (epochs params) (s_lit 1 10) w w e eq_refl). }
  unfold mlift in Hm0. injection Hm0 as _ <-.
  match goal with |- context [mbind ?m ?f ?w0] =>
    destruct (mbind_cases m f w0)
      as [(batches & w1 & Hm1 & ->)|(e & w1 & Hm1 & ->)] end.
  - unfold mlift in Hm1. injection Hm1 as _ <-.
    apply (epoch_loop_outcome net dataset dev (epochs params) 0).
  - unfold mlift in Hm1. injection Hm1 as _ <-.
    apply (loop_outcome_raise 0 (epochs params) (s_lit 1 10) w w e eq_refl).
Qed.
End TrainFacts.

(* ===================================================================== *)
(** * Perplexity over batches *)
(* ===================================================================== *)

Lemma rfoldl_app {S A : Type} (f : S → A → result S) (s : S) (l1 l2 : list A) :
  rfoldl f s (l1 ++ l2) = (s' ←ᵣ rfoldl f s l1; rfoldl f s' l2).
Proof.
  revert s. induction l1 as [|a l1 IH]; intros s; simpl; [done|].
  destruct (f s a) as [s'|e]; simpl; [apply IH | done].
Qed.

Lemma take_slice_app {A : Type} (l : list A) (a b : nat) :
  take (a + b) l = take a l ++ slice l a (a + b).
Proof.
  unfold slice. rewrite <- (take_drop a (take (a + b) l)) at 1.
  f_equal. rewrite take_take. f_equal. lia.
Qed.

Lemma count_filter_app (l1 l2 : list nat) :
  length (filter (λ ix, ix ≠ 0) (l1 ++ l2))
  = length (filter (λ ix, ix ≠ 0) l1) + length (filter (λ ix, ix ≠ 0) l2).
Proof. by rewrite filter_app, length_app. Qed.

Lemma count_nonzero_app (b1 b2 : LongTensor2) :
  count_nonzero (b1 ++ b2) = count_nonzero b1 + count_nonzero b2.
Proof. unfold count_nonzero. by rewrite concat_app, count_filter_app. Qed.

Lemma filter_nonzero_length (row : list nat) :
  length (filter (λ ix, ix ≠ 0) row) = length (List.filter (λ y, negb (y =? 0)) row).
Proof.
  induction row as [|y row IH]; [done|]. simpl.
  destruct (decide (y ≠ 0)) as [Hy|Hy].
  - rewrite filter_cons_True by done. apply Nat.eqb_neq in Hy. rewrite Hy.
    simpl. by rewrite IH.
  - rewrite filter_cons_False by done. assert (y = 0) as -> by lia. done.
Qed.

Lemma count_nonzero_targets (dataset : LongTensor2) :
  count_nonzero dataset
  = count_targets dataset + length (List.filter starts_nonzero dataset).
Proof.
  unfold count_nonzero, count_targets, shift_targets.
  induction dataset as [|row dataset IH]; [done|].
  cbn [concat map List.filter]. rewrite count_filter_app, IH.
  rewrite List.filter_app, length_app, slice_from_1.
  destruct row as [|ix row]; simpl; [done|].
  rewrite drop_0, <- (filter_nonzero_length row).
  destruct (decide (ix ≠ 0)) as [Hix|Hix].
  - rewrite filter_cons_True by done. apply Nat.eqb_neq in Hix. rewrite Hix.
    simpl. lia.
  - rewrite filter_cons_False by done. assert (ix = 0) as -> by lia. simpl. lia.
Qed.

Section BatchFacts.
Context {F : Type} `{Scalar F}.

Lemma forward_Ok (h : gmap loc (tensor F)) (net : Emb_RNNLM) (batch : LongTensor2)
    (out : list (list (list F))) :
  forward h net batch = Ok out ↔
  ∃ emb_w layers out_w out_b,
    get_mat h (emb_weight (embeddings net)) = Ok emb_w
    ∧ rmapM (read_layer h) (i2R net) = Ok layers
    ∧ get_mat h (lin_weight (R2o net)) = Ok out_w
    ∧ get_vec h (lin_bias (R2o net)) = Ok out_b
    ∧ Forall2 (λ row scores,
                 row ≠ []
                 ∧ ∃ embs,
                     rmapM (embedding_lookup emb_w) row = Ok embs
                     ∧ scores = map (linear out_w out_b)
                                  (rnn_forward layers (d_hid net) embs))
        batch out.
Proof.
  split.
  - intros Hf. pose proof (forward_rows_nonempty _ _ _ _ Hf) as Hne.
    apply forward_inv in Hf
      as (emb_w & layers & out_w & out_b & Hemb & Hlayers & Hw & Hb & Hrows).
    exists emb_w, layers, out_w, out_b. split_and!; try done.
    clear -Hne Hrows. induction Hrows as [|row scores batch out Hrow _ IH];
      [constructor|].
    apply Forall_cons in Hne as [Hr Hne]. constructor; [done | by apply IH].
  - intros (emb_w & layers & out_w & out_b & Hemb & Hlayers & Hw & Hb & Hrows).
    unfold forward. rewrite Hemb, Hlayers, Hw, Hb. simpl.
    assert (∃ embs, rmapM (rmapM (embedding_lookup emb_w)) batch = Ok embs
                    ∧ Forall (λ xs, xs ≠ []) embs
                    ∧ out = map (map (linear out_w out_b))
                              (map (rnn_forward layers (d_hid net)) embs))
      as (embs & -> & Hne & ->).
    { clear -Hrows.
      induction Hrows as [|row scores batch out (Hr & e & He & ->) _ IH].
      - by exists [].
      - destruct IH as (embs & Hembs & Hne & ->). exists (e :: embs). simpl.
        rewrite He, Hembs. split_and!; try done. constructor; [|done].
        intros ->. destruct row; [done|]. simpl in He.
        destruct (embedding_lookup emb_w n); [|done].
        by destruct (rmapM (embedding_lookup emb_w) row). }
    simpl. by rewrite (proj2 (rnn_batch_Ok layers (d_hid net) embs _) (conj Hne eq_refl)).
Qed.

Lemma forward_app (h : gmap loc (tensor F)) (net : Emb_RNNLM) (b1 b2 : LongTensor2)
    (out : list (list (list F))) :
  forward h net (b1 ++ b2) = Ok out ↔
  ∃ o1 o2, out = o1 ++ o2 ∧ forward h net b1 = Ok o1 ∧ forward h net b2 = Ok o2.
Proof.
  split.
  - intros (emb_w & layers & out_w & out_b & Hemb & Hlayers & Hw & Hb & Hrows)%forward_Ok.
    apply Forall2_app_inv_l in Hrows as (o1 & o2 & H1 & H2 & ->).
    exists o1, o2. split; [done|]. split; apply forward_Ok; by eexists _, _, _, _.
  - intros (o1 & o2 & -> & Hf1 & Hf2).
    apply forward_Ok in Hf1
      as (emb_w & layers & out_w & out_b & Hemb & Hlayers & Hw & Hb & Hrows1).
    apply forward_Ok in Hf2
      as (emb_w' & layers' & out_w' & out_b' & Hemb' & Hlayers' & Hw' & Hb' & Hrows2).
    assert (emb_w' = emb_w) as -> by congruence.
    assert (layers' = layers) as -> by congruence.
    assert (out_w' = out_w) as -> by congruence.
    assert (out_b' = out_b) as -> by congruence.
    apply forward_Ok. exists emb_w, layers, out_w, out_b.
    split_and!; try done. by apply Forall2_app.
Qed.

Lemma shift_preds_app (o1 o2 : list (list (list F))) :
  shift_preds (o1 ++ o2) = shift_preds o1 ++ shift_preds o2.
Proof. unfold shift_preds. by rewrite map_app, concat_app. Qed.

Lemma shift_targets_app (b1 b2 : LongTensor2) :
  shift_targets (b1 ++ b2) = shift_targets b1 ++ shift_targets b2.
Proof. unfold shift_targets. by rewrite map_app, concat_app. Qed.

Lemma shift_lengths (batch : LongTensor2) (out : list (list (list F))) :
  Forall2 (λ row scores, length scores = length row) batch out →
  length (shift_preds out) = length (shift_targets batch).
Proof.
  unfold shift_preds, shift_targets.
  induction 1 as [|row scores batch out Hlen _ IH]; [done|].
  simpl. rewrite !length_app, IH. f_equal.
  rewrite slice_to_drop_last, slice_from_1, length_take, length_drop. lia.
Qed.

Lemma loss_terms_app (p1 p2 : list (list F)) (t1 t2 : list nat) :
  length p1 = length t1 →
  loss_terms 0 (p1 ++ p2) (t1 ++ t2)
  = (a ←ᵣ loss_terms 0 p1 t1; b ←ᵣ loss_terms 0 p2 t2; Ok (a ++ b)).
Proof.
  revert t1. induction p1 as [|p p1 IH]; intros [|y t1] Hlen; simplify_eq/=.
  - by destruct (loss_terms 0 p2 t2).
  - destruct (y =? 0); [by apply IH|].
    destruct (nll_loss p y) as [l|e]; simpl; [|done].
    rewrite IH by done. destruct (loss_terms 0 p1 t1) as [a|e]; simpl; [|done].
    by destruct (loss_terms 0 p2 t2).
Qed.
End BatchFacts.

Lemma perplexity_step_total_nll {F : Type} `{Scalar F} (h : gmap loc (tensor F))
    (net : Emb_RNNLM) (dataset : LongTensor2) (nll total : F) (start stop : nat) :
  perplexity_step h net dataset (nll, total) (start, stop)
  = (loss ←ᵣ total_nll h net (slice dataset start stop);
     Ok (s_add nll loss, s_add total (s_of_nat (count_nonzero (slice dataset start stop))))).
Proof.
  unfold perplexity_step, total_nll.
  destruct (forward h net (slice dataset start stop)) as [preds|e]; simpl; [|done].
  by destruct (CrossEntropyLoss 0 Sum _ _).
Qed.

Lemma make_batches_Ok (n bsz : nat) :
  0 < bsz →
  make_batches n bsz
  = Ok (map (λ k, (k * bsz, k * bsz + bsz)) (seq 0 ((n + bsz - 1) / bsz))).
Proof.
  intros Hb. unfold make_batches, py_range. destruct bsz as [|b]; [lia|].
  simpl rbind. by rewrite map_map.
Qed.

Lemma batch_count_covers (n bsz : nat) :
  0 < bsz → n ≤ (n + bsz - 1) / bsz * bsz.
Proof.
  intros Hb.
  assert (n + bsz - 1 < bsz * S ((n + bsz - 1) / bsz)) as Hgt
    by (apply Nat.mul_succ_div_gt; lia).
  generalize dependent ((n + bsz - 1) / bsz). intros q Hgt. nia.
Qed.

Lemma batch_count_pos (n bsz : nat) :
  0 < bsz → 0 < n → 1 ≤ (n + bsz - 1) / bsz.
Proof. intros Hb Hn. apply Nat.div_le_lower_bound; lia. Qed.

Lemma batch_count_zero (bsz : nat) : 0 < bsz → (0 + bsz - 1) / bsz = 0.
Proof. intros Hb. apply Nat.div_small. lia. Qed.

Section ExactPerplexity.
Local Open Scope R_scope.

Lemma foldl_Rplus_from (x : R) (v : list R) : foldl Rplus x v = x + vsum v.
Proof.
  unfold vsum. simpl. revert x. induction v as [|y v IH]; intros x; simpl.
  - lra.
  - rewrite (IH (x + y)), (IH (0 + y)). lra.
Qed.

Lemma vsum_app_R (a b : list R) : vsum (a ++ b) = vsum a + vsum b.
Proof. unfold vsum at 1. simpl. rewrite foldl_app. apply foldl_Rplus_from. Qed.

Lemma total_nll_app (h : gmap loc (tensor R)) (net : Emb_RNNLM) (b1 b2 : LongTensor2)
    (v : R) :
  total_nll h net (b1 ++ b2) = Ok v ↔
  ∃ v1 v2, total_nll h net b1 = Ok v1 ∧ total_nll h net b2 = Ok v2 ∧ v = v1 + v2.
Proof.
  unfold total_nll, CrossEntropyLoss. split.
  - intros (out & (o1 & o2 & -> & Hf1 & Hf2)%forward_app & Hloss)%rbind_Ok.
    rewrite shift_preds_app, shift_targets_app in Hloss.
    rewrite loss_terms_app in Hloss by (eapply shift_lengths, forward_shape; done).
    apply rbind_Ok in Hloss as (terms & Hterms & [= <-]).
    apply rbind_Ok in Hterms as (a & Ha & Hterms).
    apply rbind_Ok in Hterms as (b & Hb & [= <-]).
    exists (vsum a), (vsum b). rewrite Hf1, Hf2. simpl. rewrite Ha, Hb. simpl.
    split_and!; try done. apply vsum_app_R.
  - intros (v1 & v2 & (o1 & Hf1 & Hl1)%rbind_Ok & (o2 & Hf2 & Hl2)%rbind_Ok & ->).
    apply rbind_Ok in Hl1 as (a & Ha & [= <-]).
    apply rbind_Ok in Hl2 as (b & Hb & [= <-]).
    assert (forward h net (b1 ++ b2) = Ok (o1 ++ o2)) as ->.
    { apply forward_app. by exists o1, o2. }
    simpl. rewrite shift_preds_app, shift_targets_app.
    rewrite loss_terms_app by (eapply shift_lengths, forward_shape; done).
    rewrite Ha, Hb. simpl. by rewrite vsum_app_R.
Qed.

(** The state of the evaluator's loop after the first [m] batches. *)
Lemma perplexity_fold (h : gmap loc (tensor R)) (net : Emb_RNNLM) (dataset : LongTensor2)
    (bsz m : nat) (acc : R * R) :
  rfoldl (perplexity_step h net dataset) (0, 0)
    (map (λ k, (k * bsz, k * bsz + bsz)%nat) (seq 0 (S m))) = Ok acc ↔
  ∃ L, total_nll h net (take (S m * bsz) dataset) = Ok L
       ∧ acc = (L, INR (count_nonzero (take (S m * bsz) dataset))).
Proof.
  revert acc. induction m as [|m IH]; intros acc.
  - cbn [seq map rfoldl]. rewrite perplexity_step_total_nll.
    replace (slice dataset (0 * bsz) (0 * bsz + bsz)) with (take (1 * bsz) dataset)
      by (unfold slice; simpl; by rewrite Nat.add_0_r).
    split.
    + intros (s' & (L & HL & [= <-])%rbind_Ok & [= <-])%rbind_Ok.
      exists L. split; [done|]. f_equal; simpl; lra.
    + intros (L & -> & ->). simpl. f_equal. f_equal; lra.
  - rewrite seq_S, map_app, rfoldl_app. cbn [map rfoldl plus].
    replace (S (S m) * bsz)%nat with (S m * bsz + bsz)%nat by lia.
    rewrite (take_slice_app dataset (S m * bsz) bsz). split.
    + intros ([a t] & (L1 & HL1 & [= -> ->])%IH & Hstep)%rbind_Ok.
      apply rbind_Ok in Hstep as (s' & Hstep & [= <-]).
      rewrite perplexity_step_total_nll in Hstep.
      apply rbind_Ok in Hstep as (L2 & HL2 & [= <-]).
      exists (L1 + L2). split.
      * apply total_nll_app. by exists L1, L2.
      * by rewrite count_nonzero_app, plus_INR.
    + intros (L & (L1 & L2 & HL1 & HL2 & ->)%total_nll_app & ->).
      rewrite (proj2 (IH (L1, INR (count_nonzero (take (S m * bsz) dataset))))).
      2:{ by exists L1. }
      cbn [rbind]. rewrite perplexity_step_total_nll, HL2. cbn [rbind].
      by rewrite count_nonzero_app, plus_INR.
Qed.

Lemma compute_perplexity_Ok (h : gmap loc (tensor R)) (net : Emb_RNNLM)
    (dataset : LongTensor2) (bsz : nat) (v : R) :
  (0 < bsz)%nat →
  dataset ≠ [] →
  compute_perplexity h dataset net bsz = Ok v ↔
  ∃ nll, total_nll h net dataset = Ok nll
         ∧ v = exp (nll / INR (count_nonzero dataset)).
Proof.
  intros Hb Hne. unfold compute_perplexity.
  rewrite make_batches_Ok by done. simpl rbind at 1.
  pose proof (batch_count_covers (length dataset) bsz Hb) as Hcover.
  assert (1 ≤ (length dataset + bsz - 1) / bsz)%nat as Hpos.
  { apply batch_count_pos; [done|]. destruct dataset; [done | simpl; lia]. }
  destruct ((length dataset + bsz - 1) / bsz)%nat as [|m] eqn:Hm; [lia|].
  assert (take (S m * bsz) dataset = dataset) as Htake by (apply take_ge; lia).
  split.
  - intros ([nll total] & (L & HL & [= -> ->])%perplexity_fold & Hres)%rbind_Ok.
    cbn [seq map] in Hres.
    change (bsz + m * bsz)%nat with (S m * bsz)%nat in Hres.
    rewrite Htake in *. injection Hres as <-. by exists L.
  - intros (nll & Hnll & ->).
    rewrite (proj2 (perplexity_fold h net dataset bsz m
                      (nll, INR (count_nonzero dataset)))).
    2:{ exists nll. by rewrite Htake. }
    done.
Qed.

(** ** Every term of the loss is positive *)

Lemma vsum_cons_R (x : R) (v : list R) : vsum (x :: v) = x + vsum v.
Proof.
  change (x :: v) with ([x] ++ v). rewrite vsum_app_R.
  unfold vsum at 1. simpl. lra.
Qed.

Lemma vsum_nonneg (v : list R) : Forall (λ x, 0 < x) v → 0 <= vsum v.
Proof.
  induction 1 as [|x v Hx _ IH]; [unfold vsum; simpl; lra|].
  rewrite vsum_cons_R. lra.
Qed.

Lemma vsum_pos (v : list R) : v ≠ [] → Forall (λ x, 0 < x) v → 0 < vsum v.
Proof.
  intros Hne Hall. destruct Hall as [|x v Hx Hall]; [done|].
  rewrite vsum_cons_R. pose proof (vsum_nonneg v Hall). lra.
Qed.

Lemma vsum_above_entry (v : list R) (y : nat) (e : R) :
  Forall (λ x, 0 < x) v → (2 ≤ length v)%nat → v !! y = Some e → e < vsum v.
Proof.
  intros Hall. revert y. induction Hall as [|x v Hx Hall IH]; intros y Hlen Hy; [done|].
  rewrite vsum_cons_R. destruct y as [|y]; simplify_eq/=.
  - assert (0 < vsum v); [|lra]. apply vsum_pos; [|done]. destruct v; [simpl in Hlen; lia|done].
  - destruct v as [|x' v]; [done|]. destruct v as [|x'' v].
    + destruct y; simplify_eq/=. unfold vsum. simpl. lra.
    + assert (e < vsum (x' :: x'' :: v)); [apply (IH y); [simpl; lia | done] | lra].
Qed.

Lemma nll_loss_pos (scores : list R) (y : nat) (v : R) :
  (2 ≤ length scores)%nat → nll_loss scores y = Ok v → 0 < v.
Proof.
  intros Hlen. unfold nll_loss. destruct (scores !! y) as [s_y|] eqn:Hy; [|done].
  intros [= <-]. simpl.
  assert (exp s_y < vsum (map exp scores)) as Hlt.
  { apply (vsum_above_entry _ y).
    - apply Forall_fmap, Forall_true. intros x. apply exp_pos.
    - by rewrite length_map.
    - by rewrite list_lookup_fmap, Hy. }
  pose proof (ln_increasing _ _ (exp_pos s_y) Hlt) as Hln. rewrite ln_exp in Hln. lra.
Qed.

Lemma loss_terms_pos (preds : list (list R)) (targets : list nat) (terms : list R) :
  Forall (λ p, (2 ≤ length p)%nat) preds →
  loss_terms 0 preds targets = Ok terms →
  Forall (λ x, 0 < x) terms
  ∧ length terms = length (List.filter (λ y, negb (y =? 0)) targets).
Proof.
  intros Hall. revert targets terms.
  induction Hall as [|p preds Hp Hall IH]; intros [|y targets] terms; simpl; try done.
  - intros [= <-]. by split.
  - destruct (y =? 0) eqn:Hy; simpl; [by apply IH|].
    intros (l & Hl & (ls & Hls & [= <-])%rbind_Ok)%rbind_Ok.
    destruct (IH _ _ Hls) as [Hpos Hlen]. split.
    + constructor; [by eapply nll_loss_pos | done].
    + simpl. by rewrite Hlen.
Qed.

Lemma linear_length (weight : list (list R)) (bias x : list R) :
  length (linear weight bias x) = (length weight `min` length bias)%nat.
Proof. unfold linear, vadd, matvec. by rewrite length_zip_with, length_map. Qed.

(** With at least two symbols to choose from, the summed loss of a
    dataset that has a non-padding target is positive. *)
Lemma total_nll_pos (h : gmap loc (tensor R)) (net : Emb_RNNLM) (dataset : LongTensor2)
    (out_w : list (list R)) (out_b : list R) (nll : R) :
  get_mat h (lin_weight (R2o net)) = Ok out_w →
  get_vec h (lin_bias (R2o net)) = Ok out_b →
  (2 ≤ length out_w)%nat → (2 ≤ length out_b)%nat →
  (0 < count_targets dataset)%nat →
  total_nll h net dataset = Ok nll →
  0 < nll.
Proof.
  intros Hw Hb Hlw Hlb Hcount. unfold total_nll, CrossEntropyLoss.
  intros (out & Hf & (terms & Hterms & [= <-])%rbind_Ok)%rbind_Ok.
  apply forward_Ok in Hf
    as (emb_w & layers & out_w' & out_b' & _ & _ & Hw' & Hb' & Hrows).
  assert (out_w' = out_w) as -> by congruence.
  assert (out_b' = out_b) as -> by congruence.
  assert (Forall (λ p, (2 ≤ length p)%nat) (shift_preds out)) as Hpreds.
  { unfold shift_preds. clear -Hrows Hlw Hlb.
    induction Hrows as [|row scores batch out (_ & embs & _ & ->) _ IH]; [constructor|].
    simpl. apply Forall_app. split; [|done].
    unfold slice_to. apply Forall_take, Forall_fmap, Forall_true.
    intros x. simpl. rewrite linear_length. lia. }
  destruct (loss_terms_pos _ _ _ Hpreds Hterms) as [Hpos Hlen].
  simpl. apply vsum_pos; [|done].
  unfold count_targets in Hcount. destruct terms; [simpl in Hlen; lia | done].
Qed.

(** C1, what the code computes.  In exact arithmetic, for every dataset
    with a non-zero entry and every positive batch size,
    [compute_perplexity] returns exactly when the dataset can be scored
    in one pass, and it then returns [exp (total_nll / total_count)],
    where [total_nll] is the summed negative log-likelihood of the
    non-padding targets of the whole dataset and [total_count] is the
    number of non-zero entries of the whole dataset at all positions
    [0 .. T-1]: the non-padding targets and, on top of them, every row's
    non-zero entry at position 0 (the start symbol), which is no term of
    the sum.  The result does not depend on the batch size. *)
Theorem compute_perplexity_exact (h : gmap loc (tensor R)) (net : Emb_RNNLM)
    (dataset : LongTensor2) (bsz : nat) :
  (0 < bsz)%nat →
  (0 < count_nonzero dataset)%nat →
  (∀ v, compute_perplexity h dataset net bsz = Ok v ↔
        ∃ nll, total_nll h net dataset = Ok nll
               ∧ v = exp (nll / INR (count_nonzero dataset)))
  ∧ count_nonzero dataset
    = (count_targets dataset + length (List.filter starts_nonzero dataset))%nat
  ∧ ∀ bsz' v, (0 < bsz')%nat →
               compute_perplexity h dataset net bsz' = Ok v ↔
               compute_perplexity h dataset net bsz = Ok v.
Proof.
  intros Hb Hcount.
  assert (dataset ≠ []) as Hne by (intros ->; vm_compute in Hcount; lia).
  split_and!.
  - intros v. by apply compute_perplexity_Ok.
  - apply count_nonzero_targets.
  - intros bsz' v Hb'. by rewrite !compute_perplexity_Ok.
Qed.

End ExactPerplexity.

Local Open Scope R_scope.

Lemma compute_perplexity_exact_witness :
  (0 < 64)%nat
  ∧ (0 < count_nonzero [[1; 2; 3]]%nat)%nat
  ∧ (∀ v, compute_perplexity small_heap [[1; 2; 3]]%nat small_net 64 = Ok v ↔
          ∃ nll, total_nll small_heap small_net [[1; 2; 3]]%nat = Ok nll
                 ∧ v = exp (nll / INR (count_nonzero [[1; 2; 3]]%nat)))
  ∧ count_nonzero [[1; 2; 3]]%nat
    = (count_targets [[1; 2; 3]]%nat
       + length (List.filter starts_nonzero [[1; 2; 3]]%nat))%nat
  ∧ ∀ bsz' v, (0 < bsz')%nat →
               compute_perplexity small_heap [[1; 2; 3]]%nat small_net bsz' = Ok v ↔
               compute_perplexity small_heap [[1; 2; 3]]%nat small_net 64 = Ok v.
Proof.
  split; [lia|]. split; [vm_compute; lia|].
  apply (compute_perplexity_exact small_heap small_net [[1; 2; 3]]%nat 64);
    [lia | vm_compute; lia].
Defined.

(** C1, the divergence: on the one-word dataset [[1; 2; 3]] the small
    model's perplexity is not [exp (total_nll / 2)], 2 being the number of
    non-padding targets, that is of terms of the sum. *)
Lemma perplexity_not_over_targets :
  count_targets [[1; 2; 3]]%nat = 2%nat
  ∧ ∃ v nll,
      compute_perplexity small_heap [[1; 2; 3]]%nat small_net 64 = Ok v
      ∧ total_nll small_heap small_net [[1; 2; 3]]%nat = Ok nll
      ∧ v ≠ exp (nll / INR (count_targets [[1; 2; 3]]%nat)).
Proof.
  split; [reflexivity|].
  assert (∃ nll, total_nll small_heap small_net [[1; 2; 3]]%nat = Ok nll) as [nll Hnll].
  { eexists. reflexivity. }
  exists (exp (nll / INR (count_nonzero [[1; 2; 3]]%nat))), nll. split_and!.
  - apply compute_perplexity_Ok; [lia | discriminate |].
    exists nll. split; [exact Hnll | reflexivity].
  - exact Hnll.
  - assert (0 < nll) as Hpos.
    { eapply (total_nll_pos small_heap small_net [[1; 2; 3]]%nat); [| | | | | exact Hnll].
      - reflexivity.
      - reflexivity.
      - simpl. lia.
      - simpl. lia.
      - unfold count_targets. simpl. lia. }
    change (count_nonzero [[1; 2; 3]]%nat) with 3%nat.
    change (count_targets [[1; 2; 3]]%nat) with 2%nat.
    intros Heq%exp_inv. simpl in Heq. lra.
Qed.

Local Close Scope R_scope.
(* ===================================================================== *)
(** * Models that were built score every batch over their vocabulary *)
(* ===================================================================== *)

Section Totality.
Context {F : Type} `{Scalar F}.
Variable init_value : loc → nat → nat → F.

Lemma init_mat_rows (l : loc) (rows cols : nat) :
  ∃ m, init_mat init_value l rows cols = PMat m ∧ length m = rows.
Proof. eexists. split; [reflexivity|]. by rewrite length_map, length_seq. Qed.

Lemma init_vec_length (l : loc) (n : nat) :
  ∃ v, init_vec init_value l n = PVec v ∧ length v = n.
Proof. eexists. split; [reflexivity|]. by rewrite length_map, length_seq. Qed.

Lemma read_layer_agree (h h' : gmap loc (tensor F)) (l : RNNLayer) (bound : loc) :
  (∀ k, k < bound → h' !! k = h !! k) →
  weight_ih l < bound → weight_hh l < bound → bias_ih l < bound → bias_hh l < bound →
  read_layer h' l = read_layer h l.
Proof.
  intros Hagree H1 H2 H3 H4. unfold read_layer, get_mat, get_vec.
  by rewrite !Hagree by done.
Qed.

(** The layers just built can be read back, and their objects are below
    the allocation pointer. *)
Lemma new_RNN_layers_readable (input_size hidden_size n : nat) (w : world F) :
  ∃ ls w' layers,
    allocates (new_RNN_layers init_value input_size hidden_size n) (4 * n) w ls w'
    ∧ rmapM (read_layer (heap w')) ls = Ok layers
    ∧ Forall (λ l, weight_ih l < next_loc w' ∧ weight_hh l < next_loc w'
                   ∧ bias_ih l < next_loc w' ∧ bias_hh l < next_loc w') ls.
Proof.
  revert input_size w. induction n as [|n IH]; intros input_size w.
  - exists [], w, []. split; [apply allocates_ret|]. split; [done | constructor].
  - set (l0 := next_loc w).
    set (l := {| weight_ih := l0; weight_hh := S l0; bias_ih := S (S l0);
                 bias_hh := S (S (S l0)) |}).
    set (w1 := (new_RNNLayer init_value input_size hidden_size w).2).
    assert (allocates (new_RNNLayer init_value input_size hidden_size) 4 w l w1) as Hl.
    { unfold allocates. subst w1 l l0. simpl. split_and!; try done; [lia|].
      intros k Hk. by rewrite !lookup_insert_ne by lia. }
    assert (∃ cw, read_layer (heap w1) l = Ok cw) as [cw Hcw].
    { subst w1 l l0. unfold read_layer, get_mat, get_vec, init_mat, init_vec. simpl.
    repeat first [ rewrite lookup_insert_eq
                 | rewrite lookup_insert_ne by lia
                 | progress cbn [rbind] ].
    by eexists. }
  destruct (IH hidden_size w1) as (ls & w' & layers & Hls & Hread & Hbelow).
    destruct Hl as (Hrun1 & Hn1 & Ho1 & Hr1 & Hh1).
    pose proof Hls as (Hrun2 & Hn2 & Ho2 & Hr2 & Hh2).
    exists (l :: ls), w', (cw :: layers). split_and!.
    + replace (4 * S n) with (4 + (4 * n + 0)) by lia. cbn [new_RNN_layers].
      eapply allocates_bind; [by unfold allocates|].
      eapply allocates_bind; [exact Hls|]. apply allocates_ret.
    + simpl. rewrite (read_layer_agree (heap w1) (heap w') l (next_loc w1));
        [by rewrite Hcw, Hread | done | | | |]; subst l l0; simpl; lia.
    + constructor; [subst l l0; simpl; lia | done].
Qed.

(** A model that [Emb_RNNLM_init] returned finds all
    its parameters in the heap it was built in, with as many rows of
    embeddings and of output weights, and as many output biases, as there
    are symbols. *)
Lemma built_model_well_formed (params : hyper) (w w' : world F) (net : Emb_RNNLM) :
  Emb_RNNLM_init init_value params w = (Ok net, w') →
  well_formed (heap w') net ∧ vocab_size net = inv_size params.
Proof.
  unfold Emb_RNNLM_init, new_Embedding. unfold mbind at 1. unfold mbind at 1. simpl.
  set (w1 := World _ (S (next_loc w)) (stdout w) (rand w)).
  unfold mbind at 1. unfold new_RNN.
  destruct (p_d_emb params =? 0); [done|].
  destruct (p_d_hid params =? 0); [done|].
  destruct (num_layers params =? 0); [done|].
  destruct (new_RNN_layers_readable (p_d_emb params) (p_d_hid params)
              (num_layers params) w1)
    as (ls & w2 & layers & (Hrun & Hnext & Hout & Hrand & Hheap) & Hread & Hbelow).
  rewrite Hrun. unfold new_Linear.
  unfold mbind at 1. unfold mbind at 1. unfold mbind at 1. simpl.
  assert (next_loc w < next_loc w2) as Hlt.
  { rewrite Hnext. subst w1. simpl. lia. }
  set (h3 := <[S (next_loc w2) := init_vec init_value (S (next_loc w2)) (inv_size params)]>
               (<[next_loc w2 := init_mat init_value (next_loc w2) (inv_size params)
                                   (p_d_hid params)]> (heap w2))).
  assert (∃ m, get_mat h3 (next_loc w) = Ok m ∧ length m = inv_size params) as Hemb.
  { destruct (init_mat_rows (next_loc w) (inv_size params) (p_d_emb params))
      as (m & Hm & Hlen).
    exists m. split; [|done]. unfold get_mat. subst h3.
    rewrite !lookup_insert_ne by lia. rewrite Hheap by (subst w1; simpl; lia).
    subst w1. simpl. rewrite lookup_insert_eq. by rewrite Hm. }
  assert (∃ m, get_mat h3 (next_loc w2) = Ok m ∧ length m = inv_size params) as Hlinw.
  { destruct (init_mat_rows (next_loc w2) (inv_size params) (p_d_hid params))
      as (m & Hm & Hlen).
    exists m. split; [|done]. unfold get_mat. subst h3.
    rewrite lookup_insert_ne by lia. rewrite lookup_insert_eq. by rewrite Hm. }
  assert (∃ v, get_vec h3 (S (next_loc w2)) = Ok v ∧ length v = inv_size params) as Hlinb.
  { destruct (init_vec_length (S (next_loc w2)) (inv_size params)) as (v & Hv & Hlen).
    exists v. split; [|done]. unfold get_vec. subst h3.
    rewrite lookup_insert_eq. by rewrite Hv. }
  assert (rmapM (read_layer h3) ls = Ok layers) as Hread3.
  { rewrite <- Hread. clear -Hbelow.
    induction Hbelow as [|l ls (H1 & H2 & H3 & H4) _ IH]; [done|].
    simpl. rewrite IH.
    rewrite (read_layer_agree (heap w2) h3 l (next_loc w2)); try done.
    intros k Hk. subst h3. by rewrite !lookup_insert_ne by lia. }
  destruct (tied params); [destruct (p_d_emb params =? p_d_hid params)|];
    unfold mbind, print, mret; simpl; intros [= <- <-].
  all: split; [|done].
  all: unfold well_formed; simpl; fold h3.
  all: split; [exact Hemb|].
  all: split; [by exists layers|].
  all: split; [first [exact Hemb | exact Hlinw] | exact Hlinb].
Qed.
End Totality.

Section ForwardTotal.
Context {F : Type} `{Scalar F}.

Lemma Forall2_of_Forall {A B : Type} (P : A → Prop) (Q : B → Prop) (l1 : list A)
    (l2 : list B) :
  length l1 = length l2 → Forall P l1 → Forall Q l2 →
  Forall2 (λ a b, P a ∧ Q b) l1 l2.
Proof.
  revert l2. induction l1 as [|a l1 IH]; intros [|b l2] Hlen H1 H2; simplify_eq/=;
    [constructor|].
  apply Forall_cons in H1 as [Ha H1]. apply Forall_cons in H2 as [Hb H2].
  constructor; [done | by apply IH].
Qed.

Lemma linear_length_F (weight : list (list F)) (bias x : list F) :
  length (linear weight bias x) = length weight `min` length bias.
Proof. unfold linear, vadd, matvec. by rewrite length_zip_with, length_map. Qed.

(** The forward pass of a well-formed model returns on every batch of
    sequences that are not empty over its vocabulary: scores of shape
    [B x T x V]. *)
Lemma forward_total (h : gmap loc (tensor F)) (net : Emb_RNNLM) (batch : LongTensor2) :
  well_formed h net →
  Forall (Forall (λ ix, ix < vocab_size net)) batch →
  Forall (λ row, row ≠ []) batch →
  ∃ out, forward h net batch = Ok out
         ∧ Forall2 (λ row scores,
                      length scores = length row
                      ∧ Forall (λ s, length s = vocab_size net) scores) batch out.
Proof.
  intros ((emb_w & Hemb & Hlen_e) & (layers & Hlayers) & (out_w & Hw & Hlen_w)
          & (out_b & Hb & Hlen_b)) Hbatch Hne.
  set (score_row := λ row : list nat,
         map (linear out_w out_b)
           (rnn_forward layers (d_hid net) (map (λ ix, default [] (emb_w !! ix)) row))).
  exists (map score_row batch). split.
  - apply forward_Ok. exists emb_w, layers, out_w, out_b. split_and!; try done.
    apply Forall2_fmap_r, Forall_Forall2_diag.
    apply Forall_forall. intros row Hin.
    pose proof (proj1 (Forall_forall _ _) Hbatch row Hin) as Hrow.
    pose proof (proj1 (Forall_forall _ _) Hne row Hin) as Hr. simpl.
    split; [done|].
    exists (map (λ ix, default [] (emb_w !! ix)) row). split; [|done].
    apply rmapM_total. eapply Forall_impl; [exact Hrow|]. intros ix Hix. simpl in *.
    unfold embedding_lookup.
    destruct (lookup_lt_is_Some_2 emb_w ix) as [e He]; [lia|]. by rewrite He.
  - apply Forall2_fmap_r, Forall_Forall2_diag, Forall_true. intros row. split.
    + unfold score_row. by rewrite length_map, rnn_forward_length, length_map.
    + unfold score_row. apply Forall_fmap, Forall_true. intros x. simpl.
      rewrite linear_length_F. lia.
Qed.

Lemma loss_terms_total (preds : list (list F)) (targets : list nat) :
  Forall2 (λ p y, y < length p) preds targets →
  ∃ terms, loss_terms 0 preds targets = Ok terms.
Proof.
  induction 1 as [|p y preds targets Hy _ [terms IH]]; [by exists []|].
  simpl. destruct (y =? 0); [by exists terms|].
  unfold nll_loss. destruct (lookup_lt_is_Some_2 p y Hy) as [s_y Hs]. rewrite Hs.
  simpl. rewrite IH. simpl. by eexists.
Qed.

(** So does the one-pass loss. *)
Lemma total_nll_total (h : gmap loc (tensor F)) (net : Emb_RNNLM) (dataset : LongTensor2) :
  well_formed h net →
  Forall (Forall (λ ix, ix < vocab_size net)) dataset →
  Forall (λ row, row ≠ []) dataset →
  ∃ nll, total_nll h net dataset = Ok nll.
Proof.
  intros Hwf Hds Hrows.
  destruct (forward_total h net dataset Hwf Hds Hrows) as (out & Hf & Hshape).
  unfold total_nll, CrossEntropyLoss. rewrite Hf. simpl.
  destruct (loss_terms_total (shift_preds out) (shift_targets dataset)) as [terms Hterms].
  { unfold shift_preds, shift_targets. clear Hf Hrows.
    induction Hshape as [|row scores dataset out [Hlen Hscores] _ IH]; [constructor|].
    apply Forall_cons in Hds as [Hrow Hds]. simpl. apply Forall2_app; [|by apply IH].
    rewrite slice_to_drop_last, slice_from_1.
    eapply Forall2_impl.
    - apply (Forall2_of_Forall (λ s, length s = vocab_size net)
               (λ ix, ix < vocab_size net)).
      + rewrite length_take, length_drop. lia.
      + by apply Forall_take.
      + by apply Forall_drop.
    - intros p y [Hp Hy]. simpl in *. lia. }
  rewrite Hterms. simpl. by eexists.
Qed.
End ForwardTotal.

(* ===================================================================== *)
(** * Perplexity is at least 1 *)
(* ===================================================================== *)

Section PerplexityBounds.
Local Open Scope R_scope.

Lemma vsum_nonneg_R (v : list R) : Forall (λ x, 0 <= x) v → 0 <= vsum v.
Proof.
  induction 1 as [|x v Hx _ IH]; [unfold vsum; simpl; lra|].
  rewrite vsum_cons_R. lra.
Qed.

Lemma vsum_ge_entry (v : list R) (y : nat) (e : R) :
  Forall (λ x, 0 < x) v → v !! y = Some e → e <= vsum v.
Proof.
  intros Hall. revert y. induction Hall as [|x v Hx Hall IH]; intros y Hy; [done|].
  rewrite vsum_cons_R. destruct y as [|y]; simplify_eq/=.
  - pose proof (vsum_nonneg v Hall). lra.
  - pose proof (IH y Hy). lra.
Qed.

Lemma nll_loss_nonneg (scores : list R) (y : nat) (v : R) :
  nll_loss scores y = Ok v → 0 <= v.
Proof.
  unfold nll_loss. destruct (scores !! y) as [s_y|] eqn:Hy; [|done].
  intros [= <-]. simpl.
  assert (exp s_y <= vsum (map exp scores)) as Hle.
  { apply (vsum_ge_entry _ y).
    - apply Forall_fmap, Forall_true. intros x. apply exp_pos.
    - by rewrite list_lookup_fmap, Hy. }
  destruct Hle as [Hlt|Heq].
  - pose proof (ln_increasing _ _ (exp_pos s_y) Hlt) as Hln. rewrite ln_exp in Hln. lra.
  - rewrite <- Heq, ln_exp. lra.
Qed.

Lemma loss_terms_nonneg (preds : list (list R)) (targets : list nat) (terms : list R) :
  loss_terms 0 preds targets = Ok terms → Forall (λ x, 0 <= x) terms.
Proof.
  revert targets terms. induction preds as [|p preds IH]; intros [|y targets] terms;
    simpl; try done.
  - intros [= <-]. constructor.
  - destruct (y =? 0); [by apply IH|].
    intros (l & Hl & (ls & Hls & [= <-])%rbind_Ok)%rbind_Ok.
    constructor; [by eapply nll_loss_nonneg | by eapply IH].
Qed.

Lemma total_nll_nonneg (h : gmap loc (tensor R)) (net : Emb_RNNLM)
    (dataset : LongTensor2) (nll : R) :
  total_nll h net dataset = Ok nll → 0 <= nll.
Proof.
  unfold total_nll, CrossEntropyLoss.
  intros (out & _ & (terms & Hterms & [= <-])%rbind_Ok)%rbind_Ok.
  simpl. by eapply vsum_nonneg_R, loss_terms_nonneg.
Qed.

Lemma exp_ge_1 (x : R) : 0 <= x → 1 <= exp x.
Proof.
  intros [Hx|<-]; [|rewrite exp_0; lra].
  pose proof (exp_increasing 0 x Hx) as Hexp. rewrite exp_0 in Hexp. lra.
Qed.

Lemma compute_perplexity_Ok_inputs (h : gmap loc (tensor R)) (net : Emb_RNNLM)
    (dataset : LongTensor2) (bsz : nat) (v : R) :
  compute_perplexity h dataset net bsz = Ok v → (0 < bsz)%nat ∧ dataset ≠ [].
Proof.
  unfold compute_perplexity. destruct bsz as [|b]; [done|]. intros Hrun.
  split; [lia|]. intros ->. rewrite make_batches_Ok in Hrun by lia.
  simpl length in Hrun. rewrite batch_count_zero in Hrun by lia. done.
Qed.

Lemma perplexity_value_ge_1 (nll : R) (count : nat) :
  0 <= nll → 1 <= exp (nll / INR count).
Proof.
  intros Hnll. apply exp_ge_1. unfold Rdiv. apply Rmult_le_pos; [done|].
  destruct count as [|c].
  - simpl. rewrite Rinv_0. lra.
  - left. apply Rinv_0_lt_compat, lt_0_INR. lia.
Qed.

(** X1.  In exact arithmetic, whatever [compute_perplexity] returns on a
    dataset with an entry that is not padding is at least 1. *)
Theorem perplexity_at_least_one (h : gmap loc (tensor R)) (net : Emb_RNNLM)
    (dataset : LongTensor2) (bsz : nat) (v : R) :
  (0 < count_nonzero dataset)%nat →
  compute_perplexity h dataset net bsz = Ok v → 1 <= v.
Proof.
  intros _ Hrun. destruct (compute_perplexity_Ok_inputs _ _ _ _ _ Hrun) as [Hb Hne].
  apply compute_perplexity_Ok in Hrun as (nll & Hnll & ->); [|done..].
  apply perplexity_value_ge_1. by eapply total_nll_nonneg.
Qed.

(** X2.  A model fresh from [Emb_RNNLM_init] scores every dataset of
    sequences that are not empty over its vocabulary, one entry at least
    not being padding: in exact arithmetic [compute_perplexity] returns,
    for every positive batch size, a perplexity that is at least 1. *)
Theorem fresh_model_perplexity (init_value : loc → nat → nat → R) (params : hyper)
    (w w' : world R) (net : Emb_RNNLM) (dataset : LongTensor2) (bsz : nat) :
  Emb_RNNLM_init init_value params w = (Ok net, w') →
  Forall (λ row, row ≠ []) dataset →
  (0 < count_nonzero dataset)%nat →
  Forall (Forall (λ ix, (ix < inv_size params)%nat)) dataset →
  (0 < bsz)%nat →
  ∃ v, compute_perplexity (heap w') dataset net bsz = Ok v ∧ 1 <= v.
Proof.
  intros [Hwf Hv]%built_model_well_formed Hrows Hcount Hds Hb.
  assert (dataset ≠ []) as Hne by (intros ->; vm_compute in Hcount; lia).
  rewrite <- Hv in Hds.
  destruct (total_nll_total (heap w') net dataset Hwf Hds Hrows) as [nll Hnll].
  exists (exp (nll / INR (count_nonzero dataset))). split.
  - apply compute_perplexity_Ok; [done..|]. by exists nll.
  - apply perplexity_value_ge_1. by eapply total_nll_nonneg.
Qed.

Lemma stop_test_R (dev_perplexity prev : R) :
  stop_test dev_perplexity prev = true ↔ dev_perplexity - prev > 1 / 100.
Proof.
  unfold stop_test. simpl.
  replace (1 * / (10 * (10 * 1))) with (1 / 100) by lra.
  destruct (Rgt_dec (dev_perplexity - prev) (1 / 100)); split; (done || lra).
Qed.

(** Dev perplexities 5 then 6: a test against the previous epoch would
    stop, the test against [1e10] that the loop makes does not. *)
Lemma stop_test_example :
  stop_test (6 : R) 5 = true ∧ stop_test (6 : R) (s_lit 1 10) = false.
Proof.
  split.
  - apply stop_test_R. lra.
  - apply not_true_is_false. rewrite stop_test_R. simpl. lra.
Qed.
End PerplexityBounds.

Local Open Scope R_scope.

Lemma perplexity_at_least_one_witness :
  ∃ v, compute_perplexity small_heap [[1; 2; 3]]%nat small_net 64 = Ok v ∧ 1 <= v.
Proof.
  eexists. split; [reflexivity|].
  apply (perplexity_at_least_one small_heap small_net [[1; 2; 3]]%nat 64);
    [vm_compute; lia | reflexivity].
Defined.

Lemma fresh_model_perplexity_witness :
  Emb_RNNLM_init small_init small_params empty_world = (Ok small_net, small_world)
  ∧ Forall (λ row, row ≠ []) [[1; 2; 3; 0]; [1; 3; 0; 0]]%nat
  ∧ (0 < count_nonzero [[1; 2; 3; 0]; [1; 3; 0; 0]]%nat)%nat
  ∧ Forall (Forall (λ ix, (ix < inv_size small_params)%nat))
      [[1; 2; 3; 0]; [1; 3; 0; 0]]%nat
  ∧ (0 < 64)%nat
  ∧ ∃ v, compute_perplexity (heap small_world) [[1; 2; 3; 0]; [1; 3; 0; 0]]%nat
           small_net 64 = Ok v
         ∧ 1 <= v.
Proof.
  assert (Forall (Forall (λ ix, (ix < inv_size small_params)%nat))
            [[1; 2; 3; 0]; [1; 3; 0; 0]]%nat) as Hds.
  { repeat constructor; simpl; lia. }
  assert (Forall (λ row : list nat, row ≠ []) [[1; 2; 3; 0]; [1; 3; 0; 0]]%nat) as Hrows.
  { by repeat constructor. }
  split; [reflexivity|]. split; [exact Hrows|]. split; [vm_compute; lia|].
  split; [exact Hds|]. split; [lia|].
  apply (fresh_model_perplexity small_init small_params empty_world small_world
           small_net [[1; 2; 3; 0]; [1; 3; 0; 0]]%nat 64);
    [reflexivity | exact Hrows | vm_compute; lia | exact Hds | lia].
Defined.

Local Close Scope R_scope.
(* ===================================================================== *)
(** * The scorer keeps the order of its input *)
(* ===================================================================== *)

Lemma rmapM_fmap_Ok {A B C : Type} (f : A → result B) (g : A → C) (k : B → C)
    (l : list A) (l' : list B) :
  (∀ a b, f a = Ok b → k b = g a) → rmapM f l = Ok l' → map k l' = map g l.
Proof.
  intros Hf. rewrite rmapM_Ok. induction 1 as [|a b l l' Hab _ IH]; [done|].
  simpl. by rewrite (Hf a b Hab), IH.
Qed.

Section ScorerOrder.
Context {F : Type} `{Scalar F}.

(** X3.  When [get_probs] returns, it has written one record per line of
    the input file, in the order of the file, each with the line's
    phones joined without separators. *)
Theorem get_probs_order (h : gmap loc (tensor F)) (input_file : list string)
    (model : Emb_RNNLM) (d : gmap string nat) (out : list (string * F)) :
  get_probs h input_file model d = Ok out →
  map fst out = map (λ l, remove_spaces (rstrip l)) input_file.
Proof.
  unfold get_probs. intros (words & Hwords & Hout)%rbind_Ok.
  assert (map fst words = map (λ l, remove_spaces (rstrip l)) input_file) as <-.
  { eapply rmapM_fmap_Ok; [|exact Hwords].
    intros l [as_string row]. unfold read_word.
    by intros (row' & _ & [= <- _])%rbind_Ok. }
  eapply rmapM_fmap_Ok; [|exact Hout].
  intros [curr_string word] [s' ppl]. simpl.
  by intros (ppl' & _ & [= <- _])%rbind_Ok.
Qed.
End ScorerOrder.

(** An empty corpus makes [process_data] raise (at [max] of no lengths),
    whatever the other arguments. *)
Lemma empty_corpus_raises (set_order : list string → list string) (g : rng)
    (dev : bool) (training_split : Z) :
  process_data set_order g [] dev training_split = (Raise ValueError, g).
Proof. reflexivity. Qed.

Lemma get_probs_order_witness :
  let d : gmap string nat := <["<s>" := 1]> (<["<e>" := 3]> (<["a" := 2]> ∅)) in
  ∃ out, get_probs small_heap ["a a
"] small_net d = Ok out
         ∧ map fst out = map (λ l, remove_spaces (rstrip l)) ["a a
"].
Proof.
  intros d. eexists. split; [reflexivity|].
  apply (get_probs_order small_heap ["a a
"] small_net d). reflexivity.
Defined.

Section DevSplit.
Variable set_order : list string → list string.
Hypothesis set_order_NoDup : ∀ l, NoDup (set_order l).
Hypothesis set_order_elem : ∀ l x, x ∈ set_order l ↔ x ∈ l.

(** X5.  With a dev split, a call that returns has cut the encoded,
    shuffled corpus in two non-empty parts at the split point the code
    computed: the training tensor followed by the dev tensor is the whole
    encoded corpus. *)
Theorem dev_split_partitions (g g' : rng) (corpus : list (list string))
    (training_split : Z) (p : processed) :
  process_data set_order g corpus true training_split = (Ok p, g') →
  ∃ split m,
    split_index (length corpus) training_split = Ok split
    ∧ Forall2 (padded_encoding (phone2ix p) m) (shuffle corpus g).1
        (training_data p ++ dev_data p)
    ∧ length (training_data p) = slice_bound (length corpus) split
    ∧ 0 < length (training_data p) < length corpus.
Proof.
  intros Hp. apply (process_data_inv set_order set_order_NoDup set_order_elem) in Hp
    as (m & as_ixs & _ & _ & _ & _ & Hrows & Htr & Hdv & split & Hsplit & Htrain & Hdev).
  simpl in Hrows.
  assert (length as_ixs = length corpus) as Hn.
  { rewrite <- (Forall2_length _ _ _ Hrows). apply Permutation_length, shuffle_perm. }
  exists split, m. rewrite Htrain, Hdev, slice_to_from_app. rewrite Hn in Hsplit.
  split_and!; try done.
  - unfold slice_to. rewrite length_take, Hn.
    unfold slice_bound. destruct (Z.ltb_spec split 0); lia.
  - rewrite Htrain in Htr. destruct (slice_to as_ixs split) eqn:E; [done|]. simpl. lia.
  - rewrite Hdev in Hdv. unfold slice_to, slice_from in *.
    rewrite length_take. destruct (drop _ as_ixs) eqn:E; [done|].
    apply (f_equal length) in E. rewrite length_drop in E. simpl in E. lia.
Qed.
End DevSplit.

Lemma dev_split_partitions_witness :
  ∃ p, process_data remove_dups [3; 1; 4] corpus3 true 60 = (Ok p, [4])
       ∧ ∃ split m,
           split_index (length corpus3) 60 = Ok split
           ∧ Forall2 (padded_encoding (phone2ix p) m) (shuffle corpus3 [3; 1; 4]).1
               (training_data p ++ dev_data p)
           ∧ length (training_data p) = slice_bound (length corpus3) split
           ∧ 0 < length (training_data p) < length corpus3.
Proof.
  eexists. split; [vm_compute; reflexivity|].
  apply (dev_split_partitions remove_dups remove_dups_NoDup remove_dups_elem
           [3; 1; 4] [4] corpus3 60).
  vm_compute. reflexivity.
Defined.

(* ===================================================================== *)
(** * Tokenising a line *)
(* ===================================================================== *)

Lemma split_spaces_nonempty (s : string) : split_spaces s ≠ [].
Proof.
  destruct s as [|c s]; simpl; [done|].
  destruct (Ascii.eqb c " "); [done|]. by destruct (split_spaces s).
Qed.

Lemma split_spaces_join (s : string) : String.concat " " (split_spaces s) = s.
Proof.
  induction s as [|c s IH]; [done|]. simpl.
  destruct (Ascii.eqb c " ") eqn:Hc.
  - apply Ascii.eqb_eq in Hc as ->.
    pose proof (split_spaces_nonempty s) as Hne.
    destruct (split_spaces s) as [|w ws] eqn:Hs; [done|].
    change (String.concat " " ("" :: w :: ws))
      with (String " " (String.concat " " (w :: ws))).
    by rewrite IH.
  - pose proof (split_spaces_nonempty s) as Hne.
    destruct (split_spaces s) as [|w ws] eqn:Hs; [done|].
    destruct ws as [|w' ws]; simpl in *; by rewrite <- IH.
Qed.

Lemma split_spaces_concat (s : string) :
  String.concat "" (split_spaces s) = remove_spaces s.
Proof.
  induction s as [|c s IH]; [done|]. simpl.
  destruct (Ascii.eqb c " ") eqn:Hc.
  - pose proof (split_spaces_nonempty s) as Hne.
    destruct (split_spaces s) as [|w ws] eqn:Hs; [done|].
    change (String.concat "" ("" :: w :: ws)) with (String.concat "" (w :: ws)).
    done.
  - pose proof (split_spaces_nonempty s) as Hne.
    destruct (split_spaces s) as [|w ws] eqn:Hs; [done|].
    destruct ws as [|w' ws]; simpl in *; by rewrite <- IH.
Qed.

Lemma split_spaces_no_space (s : string) : Forall no_space (split_spaces s).
Proof.
  induction s as [|c s IH]; simpl.
  - constructor; [|constructor]. by intros [].
  - destruct (Ascii.eqb c " ") eqn:Hc.
    + constructor; [by intros []|done].
    + pose proof (split_spaces_nonempty s) as Hne.
      destruct (split_spaces s) as [|w ws] eqn:Hs; [done|].
      apply Forall_cons in IH as [Hw Hws]. constructor; [|done].
      unfold no_space in *. simpl. intros [->|Hin]; [|done].
      by rewrite Ascii.eqb_refl in Hc.
Qed.

Lemma split_spaces_token (t : string) : no_space t → split_spaces t = [t].
Proof.
  induction t as [|c t IH]; [done|]. intros Hns. simpl.
  destruct (Ascii.eqb c " ") eqn:Hc.
  - apply Ascii.eqb_eq in Hc as ->. destruct Hns. by left.
  - rewrite IH; [done|]. intros Hin. apply Hns. by right.
Qed.

Lemma split_spaces_token_app (t rest : string) :
  no_space t → split_spaces (String.append t (String " " rest)) = t :: split_spaces rest.
Proof.
  induction t as [|c t IH]; [done|]. intros Hns. simpl.
  destruct (Ascii.eqb c " ") eqn:Hc.
  - apply Ascii.eqb_eq in Hc as ->. destruct Hns. by left.
  - rewrite IH; [done|]. intros Hin. apply Hns. by right.
Qed.

Lemma split_spaces_of_join (phones : list string) :
  phones ≠ [] → Forall no_space phones →
  split_spaces (String.concat " " phones) = phones.
Proof.
  induction phones as [|p phones IH]; [done|]. intros _ Hns.
  apply Forall_cons in Hns as [Hp Hns].
  destruct phones as [|q phones]; [by apply split_spaces_token|].
  change (String.concat " " (p :: q :: phones))
    with (String.append p (String " " (String.concat " " (q :: phones)))).
  rewrite split_spaces_token_app by done. by rewrite IH.
Qed.

(** X6.  [get_corpus_data] returns one word per line of the file, in the
    order of the file.  Each word is [<s>], the phones of the line, [<e>];
    there is at least one phone (a blank line gives the empty phone), no
    phone contains a space, and the phones joined by single spaces are
    the line without its trailing whitespace.  The phones are the only
    such list: splitting is the inverse of joining. *)
Theorem get_corpus_data_words (file : list string) :
  length (get_corpus_data file) = length file
  ∧ ∀ i line, file !! i = Some line →
      ∃ phones,
        get_corpus_data file !! i = Some ("<s>" :: phones ++ ["<e>"])
        ∧ phones ≠ []
        ∧ String.concat " " phones = rstrip line
        ∧ Forall no_space phones
        ∧ (rstrip line = "" → phones = [""])
        ∧ (∀ phones', phones' ≠ [] → Forall no_space phones' →
                      String.concat " " phones' = rstrip line → phones' = phones).
Proof.
  split; [apply length_map|]. intros i line Hi.
  exists (split_spaces (rstrip line)). split_and!.
  - unfold get_corpus_data. by rewrite list_lookup_fmap, Hi.
  - apply split_spaces_nonempty.
  - apply split_spaces_join.
  - apply split_spaces_no_space.
  - by intros ->.
  - intros phones' Hne Hns <-. symmetry. by apply split_spaces_of_join.
Qed.

(** A line that ends in a no-break space ([U+00A0], the bytes 194 and
    160) and a line feed: both are stripped. *)
Lemma get_corpus_data_no_break_space :
  get_corpus_data
    [String.append "a b" (String (ascii_of_nat 194) (String (ascii_of_nat 160) newline))]
  = [["<s>"; "a"; "b"; "<e>"]].
Proof. reflexivity. Qed.

(* ===================================================================== *)
(** * The data of a corpus against a model of its inventory *)
(* ===================================================================== *)

Lemma rfoldl_total {S A : Type} (f : S → A → result S) (l : list A) (s : S) :
  (∀ s a, a ∈ l → ∃ s', f s a = Ok s') → ∃ s', rfoldl f s l = Ok s'.
Proof.
  revert s. induction l as [|a l IH]; intros s Hf; [by exists s|].
  simpl. destruct (Hf s a) as [s1 Hs1]; [left|]. rewrite Hs1. simpl.
  apply IH. intros s2 b Hb. apply Hf. by right.
Qed.

Lemma encode_total (d : gmap string nat) (sequence : list string) :
  (∀ s, s ∈ sequence → ∃ ix, d !! s = Some ix) → ∃ row, encode d sequence = Ok row.
Proof.
  induction sequence as [|s sequence IH]; intros Hd; [by exists []|].
  destruct (Hd s) as [ix Hix]; [left|].
  destruct IH as [row Hrow]; [intros s' Hs'; apply Hd; by right|].
  exists (ix :: row). unfold encode in *. simpl. by rewrite Hix, Hrow.
Qed.

Section ScoringTotal.
Context {F : Type} `{Scalar F}.

Lemma Forall_slice {A : Type} (P : A → Prop) (l : list A) (start stop : nat) :
  Forall P l → Forall P (slice l start stop).
Proof. intros Hl. unfold slice. by apply Forall_drop, Forall_take. Qed.

(** A well-formed model scores every non-empty dataset of sequences that
    are not empty over its vocabulary, whatever the arithmetic. *)
Lemma compute_perplexity_total (h : gmap loc (tensor F)) (net : Emb_RNNLM)
    (dataset : LongTensor2) (bsz : nat) :
  well_formed h net →
  Forall (Forall (λ ix, ix < vocab_size net)) dataset →
  Forall (λ row, row ≠ []) dataset →
  0 < bsz → dataset ≠ [] →
  ∃ v, compute_perplexity h dataset net bsz = Ok v.
Proof.
  intros Hwf Hds Hrows Hb Hne. unfold compute_perplexity.
  rewrite make_batches_Ok by done. cbn [rbind].
  destruct (rfoldl_total (perplexity_step h net dataset)
              (map (λ k, (k * bsz, k * bsz + bsz))
                 (seq 0 ((length dataset + bsz - 1) / bsz))) (s_zero, s_zero))
    as [[nll total] Hacc].
  { intros [nll total] [start stop] _. rewrite perplexity_step_total_nll.
    destruct (total_nll_total h net (slice dataset start stop) Hwf) as [loss Hloss];
      [by apply Forall_slice | by apply Forall_slice |].
    rewrite Hloss. simpl. by eexists. }
  rewrite Hacc. cbn [rbind].
  pose proof (batch_count_pos (length dataset) bsz Hb) as Hpos.
  destruct ((length dataset + bsz - 1) / bsz) as [|k] eqn:Hk.
  - destruct dataset; [done|]. simpl in Hpos. lia.
  - simpl. by eexists.
Qed.
End ScoringTotal.

Section CorpusFacts.
Variable set_order : list string → list string.
Hypothesis set_order_NoDup : ∀ l, NoDup (set_order l).
Hypothesis set_order_elem : ∀ l x, x ∈ set_order l ↔ x ∈ l.

Lemma phone2ix_lookup_inv (inv : list string) (i : nat) (p : string) :
  NoDup inv → build_phone2ix inv !! p = Some i → inv !! i = Some p.
Proof.
  intros Hnd Hp. destruct (decide (p ∈ inv)) as [Hin|Hnin].
  - apply list_elem_of_lookup in Hin as [j Hj].
    rewrite (phone2ix_lookup inv j p Hnd Hj) in Hp. by simplify_eq.
  - unfold build_phone2ix, enumerate in Hp.
    rewrite phone2ix_foldl_notin in Hp by done. by rewrite lookup_empty in Hp.
Qed.

Lemma encode_bound (inv : list string) (sequence : list string) (row : list nat) :
  NoDup inv → encode (build_phone2ix inv) sequence = Ok row →
  Forall (λ ix, ix < length inv) row.
Proof.
  intros Hnd. rewrite encode_Ok. induction 1 as [|p ix sequence row Hp _ IH];
    constructor; [|done].
  apply phone2ix_lookup_inv in Hp; [|done]. by eapply lookup_lt_Some.
Qed.

(** What a call that returned has computed, with the facts on the indices
    that the model relies on. *)
Lemma process_data_rows (g g' : rng) (corpus : list (list string)) (dev : bool)
    (training_split : Z) (p : processed) :
  process_data set_order g corpus dev training_split = (Ok p, g') →
  ∃ m as_ixs,
    Forall2 (padded_encoding (phone2ix p) m) (shuffle corpus g).1 as_ixs
    ∧ NoDup (inventory p)
    ∧ inventory p !! 0 = Some pad_symbol
    ∧ phone2ix p = build_phone2ix (inventory p)
    ∧ ix2phone p = build_ix2phone (inventory p)
    ∧ (∀ s, s ∈ inventory p
            ↔ s = pad_symbol ∨ ∃ sequence, sequence ∈ corpus ∧ s ∈ sequence)
    ∧ Forall (Forall (λ ix, ix < length (inventory p))) as_ixs
    ∧ training_data p ⊆ as_ixs ∧ dev_data p ⊆ as_ixs
    ∧ (if dev then training_data p ++ dev_data p else training_data p) = as_ixs.
Proof.
  intros Hp. apply (process_data_inv set_order set_order_NoDup set_order_elem) in Hp
    as (m & as_ixs & _ & Hinv & Hd & Hi & Hrows & _ & _ & Hparts).
  simpl in Hrows.
  assert (NoDup (inventory p)) as Hnd by (rewrite Hinv; apply inventory_NoDup; done).
  assert (0 < length (inventory p)) as Hpos by (rewrite Hinv; simpl; lia).
  exists m, as_ixs. split_and!; try done.
  - by rewrite Hinv.
  - intros s. rewrite Hinv, inventory_elem, padded_symbols by done.
    pose proof (shuffle_perm corpus g) as Hperm.
    split; (intros [->|(sequence & Hs & Hx)]; [by left|]);
      right; exists sequence; split; try done.
    + by rewrite <- Hperm.
    + by rewrite Hperm.
  - clear Hparts Hinv. revert Hrows. generalize (shuffle corpus g).1.
    intros ss Hrows.
    induction Hrows as [|sequence row ss rows (enc & Henc & ->) _ IH];
      constructor; [|done].
    apply Forall_app. split.
    + rewrite Hd in Henc. by eapply encode_bound.
    + by apply Forall_replicate.
  - destruct dev.
    + destruct Hparts as (split & _ & -> & _). unfold slice_to.
      apply subseteq_take.
    + by destruct Hparts as [-> _].
  - destruct dev.
    + destruct Hparts as (split & _ & _ & ->). unfold slice_from.
      apply subseteq_drop.
    + destruct Hparts as [_ ->]. unfold slice_from.
      apply subseteq_drop.
  - destruct dev.
    + destruct Hparts as (split & _ & -> & ->). apply slice_to_from_app.
    + by destruct Hparts as [-> _].
Qed.

(** A corpus with a sequence that is not empty gives tensors whose rows
    are not empty. *)
Lemma process_data_rows_nonempty (g g' : rng) (corpus : list (list string))
    (dev : bool) (training_split : Z) (p : processed) :
  process_data set_order g corpus dev training_split = (Ok p, g') →
  (∃ sequence, sequence ∈ corpus ∧ sequence ≠ []) →
  Forall (λ row, row ≠ []) (training_data p ++ dev_data p).
Proof.
  intros Hp (sequence & Hin & Hne).
  apply (process_data_inv set_order set_order_NoDup set_order_elem) in Hp
    as (m & as_ixs & Hm & _ & _ & _ & Hrows & _ & _ & Hparts).
  simpl in Hm, Hrows.
  pose proof (as_ixs_rows _ _ _ _ Hm Hrows) as Hlen.
  apply py_max_spec in Hm as [_ Hmax].
  assert (0 < m) as Hpos.
  { assert (length sequence ≤ m) as Hle.
    { apply Hmax, list_elem_of_fmap. exists sequence. split; [done|].
      by rewrite (shuffle_perm corpus g). }
    destruct sequence; [done|]. simpl in Hle. lia. }
  assert (training_data p ⊆ as_ixs ∧ dev_data p ⊆ as_ixs) as [Htrain Hdev].
  { destruct dev.
    - destruct Hparts as (split & _ & -> & ->). split.
      + unfold slice_to. apply subseteq_take.
      + unfold slice_from. apply subseteq_drop.
    - destruct Hparts as [-> ->]. split; [done|]. unfold slice_from.
      apply subseteq_drop. }
  apply Forall_forall. intros row Hrow.
  assert (row ∈ as_ixs) as Hr.
  { apply elem_of_app in Hrow as [Hrow|Hrow]; auto. }
  apply Hlen in Hr. intros ->. simpl in Hr. lia.
Qed.

(** The vocabulary that [process_data] builds from a corpus file: every
    sequence over the inventory encodes to indices below its length, and
    the inventory holds the boundary markers and every phone of the
    file. *)
Lemma corpus_vocabulary (g g' : rng) (train_file : list string) (dev : bool)
    (training_split : Z) (p : processed) :
  process_data set_order g (get_corpus_data train_file) dev training_split = (Ok p, g') →
  NoDup (inventory p)
  ∧ phone2ix p = build_phone2ix (inventory p)
  ∧ (∀ sequence, (∀ s, s ∈ sequence → s ∈ inventory p) →
       ∃ row, encode (phone2ix p) sequence = Ok row
              ∧ Forall (λ ix, ix < length (inventory p)) row)
  ∧ (∀ s ix, phone2ix p !! s = Some ix → s ∈ inventory p)
  ∧ "<s>" ∈ inventory p ∧ "<e>" ∈ inventory p
  ∧ (∀ line phone, line ∈ train_file → phone ∈ split_spaces (rstrip line) →
                   phone ∈ inventory p).
Proof.
  intros Hp. pose proof Hp as Hne.
  apply (process_data_inv set_order set_order_NoDup set_order_elem) in Hne
    as (_ & _ & _ & _ & _ & _ & _ & Htr & _ & _).
  apply process_data_rows in Hp
    as (m & as_ixs & Hrows & Hnd & Hpad & Hd & _ & Hinv & _ & Htrain & _ & _).
  assert (train_file ≠ []) as Hfile.
  { intros ->. destruct (training_data p) as [|row rows]; [done|].
    assert (row ∈ as_ixs) as Hrow by (apply Htrain; left).
    simpl in Hrows. apply Forall2_nil_inv_l in Hrows. subst.
    by apply elem_of_nil in Hrow. }
  split_and!; try done.
  - intros sequence Hseq.
    destruct (encode_total (phone2ix p) sequence) as [row Hrow].
    { intros s [ix Hix]%Hseq%list_elem_of_lookup. exists ix. rewrite Hd.
      by apply phone2ix_lookup. }
    exists row. split; [done|]. rewrite Hd in Hrow. by eapply encode_bound.
  - intros s ix Hs. rewrite Hd in Hs. apply phone2ix_lookup_inv in Hs; [|done].
    by eapply list_elem_of_lookup_2.
  - destruct train_file as [|l0 file]; [done|]. apply Hinv. right.
    exists (["<s>"] ++ split_spaces (rstrip l0) ++ ["<e>"]).
    split; [left | set_solver].
  - destruct train_file as [|l0 file]; [done|]. apply Hinv. right.
    exists (["<s>"] ++ split_spaces (rstrip l0) ++ ["<e>"]).
    split; [left | set_solver].
  - intros line phone Hline Hphone. apply Hinv. right.
    exists (["<s>"] ++ split_spaces (rstrip line) ++ ["<e>"]). split; [|set_solver].
    unfold get_corpus_data. apply list_elem_of_fmap. by exists line.
Qed.

End CorpusFacts.

Section ScorerFacts.
Context {F : Type} `{Scalar F}.

(** The records of the scorer, line by line. *)
Lemma get_probs_records (h : gmap loc (tensor F)) (input_file : list string)
    (model : Emb_RNNLM) (d : gmap string nat) (out : list (string * F)) :
  get_probs h input_file model d = Ok out ↔
  Forall2 (λ line rec,
             ∃ row, encode d (["<s>"] ++ split_spaces (rstrip line) ++ ["<e>"]) = Ok row
                    ∧ rec.1 = remove_spaces (rstrip line)
                    ∧ compute_perplexity h [row] model 64 = Ok rec.2)
    input_file out.
Proof.
  unfold get_probs. rewrite rbind_Ok. split.
  - intros (words & Hwords & Hout). apply rmapM_Ok in Hwords, Hout.
    revert out Hout. induction Hwords as [|line [s row] file words Hread _ IH];
      intros out Hout.
    + apply Forall2_nil_inv_l in Hout as ->. constructor.
    + apply Forall2_cons_inv_l in Hout as ([s' v] & out' & Hrec & Hout & ->).
      constructor; [|by apply IH].
      unfold read_word in Hread. apply rbind_Ok in Hread as (row' & Henc & [= <- <-]).
      apply rbind_Ok in Hrec as (v' & Hv & [= <- <-]).
      by exists row'.
  - intros Hrecs.
    exists (map (λ line_rec : string * (string * F),
                   (line_rec.2.1,
                    match encode d (["<s>"] ++ split_spaces (rstrip line_rec.1) ++ ["<e>"])
                    with Ok row => row | Raise _ => [] end))
              (zip input_file out)).
    induction Hrecs as [|line [s v] file out (row & Henc & Hs & Hv) _ [IH1 IH2]];
      [done|].
    simpl in *. unfold read_word at 1. simpl. rewrite Henc. simpl.
    rewrite IH1. simpl. rewrite Hv. simpl. rewrite IH2. simpl. by subst.
Qed.

(** The scorer returns when every line encodes to indices the model
    has. *)
Lemma get_probs_total (h : gmap loc (tensor F)) (input_file : list string)
    (model : Emb_RNNLM) (d : gmap string nat) :
  well_formed h model →
  (∀ line, line ∈ input_file →
     ∃ row, encode d (["<s>"] ++ split_spaces (rstrip line) ++ ["<e>"]) = Ok row
            ∧ Forall (λ ix, ix < vocab_size model) row) →
  ∃ out, get_probs h input_file model d = Ok out ∧ length out = length input_file.
Proof.
  intros Hwf Hlines.
  assert (∃ out, Forall2 (λ line rec,
             ∃ row, encode d (["<s>"] ++ split_spaces (rstrip line) ++ ["<e>"]) = Ok row
                    ∧ rec.1 = remove_spaces (rstrip line)
                    ∧ compute_perplexity h [row] model 64 = Ok rec.2)
            input_file out) as [out Hout].
  { induction input_file as [|line file IH]; [by exists []|].
    destruct (Hlines line) as (row & Hrow & Hb); [left|].
    destruct IH as [out Hout]; [intros l Hl; apply Hlines; by right|].
    destruct (compute_perplexity_total h model [row] 64 Hwf) as [v Hv];
      [by constructor | | lia | done |].
    { constructor; [|done]. apply encode_length in Hrow. intros ->. done. }
    exists ((remove_spaces (rstrip line), v) :: out). constructor; [|done].
    by exists row. }
  exists out. split; [by apply get_probs_records|].
  symmetry. by eapply Forall2_length.
Qed.
End ScorerFacts.

Section CorpusModel.
Context {F : Type} `{Scalar F}.
Variable set_order : list string → list string.
Hypothesis set_order_NoDup : ∀ l, NoDup (set_order l).
Hypothesis set_order_elem : ∀ l x, x ∈ set_order l ↔ x ∈ l.
Variable init_value : loc → nat → nat → F.

(** X9.  The data that [process_data] returns for a corpus with a
    sequence that is not empty fits a model built for its inventory:
    every index in the training and dev tensors is below
    [len(inventory)] and no row is empty, so a model constructed with
    [inv_size = len(inventory)] runs its forward pass on every batch of
    their rows (scores of shape [B x T x len(inventory)], no index out of
    range) and [compute_perplexity] returns on both tensors for every
    positive batch size. *)
Theorem model_embeds_corpus (g g' : rng) (corpus : list (list string)) (dev : bool)
    (training_split : Z) (p : processed) (params : hyper) (w w' : world F)
    (net : Emb_RNNLM) :
  process_data set_order g corpus dev training_split = (Ok p, g') →
  (∃ sequence, sequence ∈ corpus ∧ sequence ≠ []) →
  inv_size params = length (inventory p) →
  Emb_RNNLM_init init_value params w = (Ok net, w') →
  Forall (Forall (λ ix, ix < length (inventory p))) (training_data p ++ dev_data p)
  ∧ Forall (λ row, row ≠ []) (training_data p ++ dev_data p)
  ∧ (∀ batch, batch ≠ [] → batch ⊆ training_data p ++ dev_data p →
       ∃ out, forward (heap w') net batch = Ok out
              ∧ Forall2 (λ row scores,
                           length scores = length row
                           ∧ Forall (λ s, length s = length (inventory p)) scores)
                  batch out)
  ∧ (∀ bsz, 0 < bsz →
       (∃ v, compute_perplexity (heap w') (training_data p) net bsz = Ok v)
       ∧ (∃ v, compute_perplexity (heap w') (dev_data p) net bsz = Ok v)).
Proof.
  intros Hp Hword Hsize [Hwf Hv]%built_model_well_formed.
  pose proof (process_data_rows_nonempty set_order set_order_NoDup set_order_elem
                g g' corpus dev training_split p Hp Hword) as Hrows.
  pose proof Hp as Hne.
  apply (process_data_inv set_order set_order_NoDup set_order_elem) in Hne
    as (_ & _ & _ & _ & _ & _ & _ & Htr & Hdv & _).
  apply (process_data_rows set_order set_order_NoDup set_order_elem) in Hp
    as (m & as_ixs & _ & _ & _ & _ & _ & _ & Hbound & Htrain & Hdev & _).
  rewrite Hsize in Hv. rewrite <- Hv in *.
  assert (Forall (Forall (λ ix, ix < vocab_size net)) (training_data p ++ dev_data p))
    as Hall.
  { rewrite Forall_forall in Hbound. apply Forall_forall. intros row Hrow.
    apply Hbound. apply elem_of_app in Hrow as [Hrow|Hrow]; auto. }
  split_and!; [done | done | |].
  - intros batch _ Hsub. apply forward_total; [done | |].
    + rewrite Forall_forall in Hall. apply Forall_forall. intros row Hrow. auto.
    + rewrite Forall_forall in Hrows. apply Forall_forall. intros row Hrow. auto.
  - intros bsz Hb. apply Forall_app in Hall as [Ht Hd].
    apply Forall_app in Hrows as [Hrt Hrd].
    split; by apply compute_perplexity_total.
Qed.

End CorpusModel.

Section CorpusScoring.
Context {F : Type} `{Scalar F}.
Variable set_order : list string → list string.
Hypothesis set_order_NoDup : ∀ l, NoDup (set_order l).
Hypothesis set_order_elem : ∀ l x, x ∈ set_order l ↔ x ∈ l.

(** X8.  With the vocabulary that [process_data] built from a training
    file and a well-formed model of that size, [get_probs] returns on a
    test file exactly when every phone of every line of the test file is
    in the inventory; in particular it returns, with one record per
    line, on the training file itself. *)
Theorem get_probs_returns_iff (g g' : rng) (train_file test_file : list string)
    (dev : bool) (training_split : Z) (p : processed) (h : gmap loc (tensor F))
    (model : Emb_RNNLM) :
  process_data set_order g (get_corpus_data train_file) dev training_split = (Ok p, g') →
  well_formed h model →
  vocab_size model = length (inventory p) →
  ((∃ out, get_probs h test_file model (phone2ix p) = Ok out)
   ↔ ∀ line phone, line ∈ test_file → phone ∈ split_spaces (rstrip line) →
                   phone ∈ inventory p)
  ∧ ∃ out, get_probs h train_file model (phone2ix p) = Ok out
           ∧ length out = length train_file.
Proof.
  intros Hp Hwf Hv.
  destruct (corpus_vocabulary set_order set_order_NoDup set_order_elem
              g g' train_file dev training_split p Hp)
    as (Hnd & Hd & Hknown & Hdom & Hs & He & Hcorpus).
  assert (∀ file,
            (∀ line phone, line ∈ file → phone ∈ split_spaces (rstrip line) →
                           phone ∈ inventory p) →
            ∃ out, get_probs h file model (phone2ix p) = Ok out
                   ∧ length out = length file) as Hscore.
  { intros file Hfilephones. apply get_probs_total; [done|].
    intros line Hline. rewrite Hv. apply Hknown.
    intros s Hsin.
    apply elem_of_app in Hsin as [Hsin|Hsin]; [set_solver|].
    apply elem_of_app in Hsin as [Hsin|Hsin]; [by eapply Hfilephones | set_solver]. }
  split.
  - split.
    + intros [out Hout] line phone Hline Hphone.
      apply get_probs_records in Hout.
      apply list_elem_of_lookup in Hline as [i Hi].
      destruct (Forall2_lookup_l _ _ _ _ _ Hout Hi) as (rec & _ & row & Henc & _).
      apply encode_Ok in Henc.
      assert (phone ∈ ["<s>"] ++ split_spaces (rstrip line) ++ ["<e>"]) as Hin
        by set_solver.
      apply list_elem_of_lookup in Hin as [j Hj].
      destruct (Forall2_lookup_l _ _ _ _ _ Henc Hj) as (ix & _ & Hix).
      by eapply Hdom.
    + intros Hall. destruct (Hscore test_file Hall) as (out & Hout & _). by exists out.
  - apply Hscore. intros line phone Hline Hphone. by eapply Hcorpus.
Qed.
End CorpusScoring.

Lemma count_nonzero_all_start (dataset : LongTensor2) :
  Forall (λ row, starts_nonzero row = true) dataset →
  count_nonzero dataset = count_targets dataset + length dataset.
Proof.
  intros Hall. rewrite count_nonzero_targets. f_equal.
  induction Hall as [|row dataset Hrow _ IH]; [done|].
  simpl. rewrite Hrow. simpl. by rewrite IH.
Qed.

Section CorpusRows.
Variable set_order : list string → list string.
Hypothesis set_order_NoDup : ∀ l, NoDup (set_order l).
Hypothesis set_order_elem : ∀ l x, x ∈ set_order l ↔ x ∈ l.

(** X10.  Decoding undoes encoding on the data: row by row, looking every
    index up in [ix2phone] gives back the sequence of the shuffled corpus
    followed by [<p>] up to the common length; the shuffled corpus is a
    permutation of the corpus (no word is lost or repeated); and two
    sequences with the same encoding are the same sequence. *)
Theorem rows_decode_to_words (g g' : rng) (corpus : list (list string)) (dev : bool)
    (training_split : Z) (p : processed) :
  process_data set_order g corpus dev training_split = (Ok p, g') →
  ∃ m,
    Forall2 (λ sequence row,
               Forall2 (λ ix s, ix2phone p !! ix = Some s) row
                 (sequence ++ replicate (m - length sequence) pad_symbol))
      (shuffle corpus g).1
      (if dev then training_data p ++ dev_data p else training_data p)
    ∧ (shuffle corpus g).1 ≡ₚ corpus
    ∧ (∀ row sequence sequence',
         encode (phone2ix p) sequence = Ok row →
         encode (phone2ix p) sequence' = Ok row →
         sequence = sequence').
Proof.
  intros Hp.
  apply (process_data_rows set_order set_order_NoDup set_order_elem) in Hp
    as (m & as_ixs & Hrows & Hnd & Hpad & Hd & Hi & _ & _ & _ & _ & ->).
  assert (∀ s ix, phone2ix p !! s = Some ix → ix2phone p !! ix = Some s) as Hinv.
  { intros s ix Hs. rewrite Hi, ix2phone_lookup. rewrite Hd in Hs.
    by apply phone2ix_lookup_inv. }
  exists m. split_and!.
  - eapply Forall2_impl; [exact Hrows|].
    intros sequence row (enc & Henc & ->). apply encode_Ok in Henc.
    apply Forall2_app.
    + apply Forall2_flip. eapply Forall2_impl; [exact Henc|]. intros s ix. apply Hinv.
    + apply Forall2_replicate. rewrite Hi, ix2phone_lookup. done.
  - apply shuffle_perm.
  - intros row sequence sequence' H1%encode_Ok H2%encode_Ok.
    revert sequence' H2. induction H1 as [|s ix sequence row Hs _ IH];
      intros sequence' H2.
    + by apply Forall2_nil_inv_r in H2.
    + apply Forall2_cons_inv_r in H2 as (s' & sequence'' & Hs' & H2 & ->).
      f_equal; [|by apply IH].
      apply Hinv in Hs. apply Hinv in Hs'. congruence.
Qed.

(** X11.  On a corpus read by [get_corpus_data], every row of the training
    and dev tensors starts with the index of [<s>], which is not the
    padding index.  So for every dataset of such rows the count that
    [compute_perplexity] divides by ([torch.nonzero]) is the number of
    non-padding targets plus the number of rows. *)
Theorem corpus_rows_start_symbol (g g' : rng) (file : list string) (dev : bool)
    (training_split : Z) (p : processed) :
  process_data set_order g (get_corpus_data file) dev training_split = (Ok p, g') →
  ∃ start,
    phone2ix p !! "<s>" = Some start
    ∧ start ≠ 0
    ∧ ∀ dataset, dataset ⊆ training_data p ++ dev_data p →
        Forall (λ row, head row = Some start) dataset
        ∧ count_nonzero dataset = count_targets dataset + length dataset.
Proof.
  intros Hp.
  pose proof Hp as Hne.
  apply (process_data_inv set_order set_order_NoDup set_order_elem) in Hne
    as (_ & _ & _ & _ & _ & _ & _ & Htr & _ & _).
  apply (process_data_rows set_order set_order_NoDup set_order_elem) in Hp
    as (m & as_ixs & Hrows & Hnd & Hpad & Hd & _ & _ & _ & Htrain & Hdev & _).
  assert (∀ row, row ∈ as_ixs → ∃ start rest,
            phone2ix p !! "<s>" = Some start ∧ row = start :: rest) as Hstart.
  { pose proof (shuffle_perm (get_corpus_data file) g) as Hperm.
    intros row [i Hi]%list_elem_of_lookup.
    destruct (Forall2_lookup_r _ _ _ _ _ Hrows Hi) as (sequence & Hseq & enc & Henc & ->).
    apply list_elem_of_lookup_2 in Hseq. rewrite Hperm in Hseq.
    unfold get_corpus_data in Hseq. apply list_elem_of_fmap in Hseq as (line & -> & _).
    simpl in Henc. unfold encode in Henc. simpl in Henc.
    destruct (phone2ix p !! "<s>") as [start|] eqn:Hs; [|done].
    simpl in Henc. apply rbind_Ok in Henc as (rest & _ & [= <-]).
    by exists start, (rest ++ replicate (m - S (length (split_spaces (rstrip line) ++ ["<e>"]))) 0). }
  assert (∀ start, phone2ix p !! "<s>" = Some start → start ≠ 0) as Hnz.
  { intros start Hs ->. rewrite Hd in Hs. apply phone2ix_lookup_inv in Hs; [|done].
    rewrite Hpad in Hs. done. }
  assert (∃ start, phone2ix p !! "<s>" = Some start) as [start Hs].
  { destruct (training_data p) as [|row rows]; [done|].
    destruct (Hstart row) as (start & rest & Hs & _); [apply Htrain; left|].
    by exists start. }
  exists start. split; [done|]. split; [by apply Hnz|].
  intros dataset Hsub.
  assert (Forall (λ row, head row = Some start) dataset) as Hheads.
  { apply Forall_forall. intros row Hrow.
    destruct (Hstart row) as (start' & rest & Hs' & ->).
    - apply Hsub in Hrow. apply elem_of_app in Hrow as [Hrow|Hrow]; auto.
    - simpl. congruence. }
  split; [done|]. apply count_nonzero_all_start.
  eapply Forall_impl; [exact Hheads|]. intros [|ix row] Hrow; simplify_eq/=.
  apply negb_true_iff, Nat.eqb_neq. by apply Hnz.
Qed.
End CorpusRows.
(* ===================================================================== *)
(** * Trailing padding does not change the perplexity *)
(* ===================================================================== *)

Lemma rfoldl_ext_Ok {S A : Type} (f f' : S → A → result S) (l : list A) (s r : S) :
  (∀ s a s', f s a = Ok s' → f' s a = Ok s') →
  rfoldl f s l = Ok r → rfoldl f' s l = Ok r.
Proof.
  intros Hf. revert s. induction l as [|a l IH]; intros s; [done|]. simpl.
  intros (s1 & Hs1 & Hr)%rbind_Ok. rewrite (Hf _ _ _ Hs1). simpl. by apply IH.
Qed.

Lemma filter_nonzero_replicate (k : nat) :
  length (filter (λ ix, ix ≠ 0) (replicate k 0)) = 0.
Proof.
  induction k as [|k IHk]; [done|]. simpl. rewrite filter_cons.
  destruct (decide (0 ≠ 0)); [done|]. exact IHk.
Qed.

Lemma count_nonzero_pad_rows (k : nat) (dataset : LongTensor2) :
  count_nonzero (pad_rows k dataset) = count_nonzero dataset.
Proof.
  unfold count_nonzero, pad_rows. induction dataset as [|row dataset IH]; [done|].
  simpl. rewrite <- !app_assoc, !count_filter_app, IH.
  rewrite filter_nonzero_replicate. lia.
Qed.

Lemma slice_pad_rows (k : nat) (dataset : LongTensor2) (start stop : nat) :
  slice (pad_rows k dataset) start stop = pad_rows k (slice dataset start stop).
Proof. unfold slice, pad_rows. by rewrite <- fmap_take, <- fmap_drop. Qed.

Section Padding.
Context {F : Type} `{Scalar F}.

Lemma loss_terms_ignored (preds : list (list F)) (n : nat) :
  length preds = n → loss_terms 0 preds (replicate n 0) = Ok [].
Proof.
  revert n. induction preds as [|p preds IH]; intros [|n] Hn; simplify_eq/=; [done|].
  by apply IH.
Qed.

Lemma rbind_app_nil {A : Type} (r : result (list A)) :
  (a ←ᵣ r; b ←ᵣ Ok []; Ok (a ++ b)) = r.
Proof. destruct r; simpl; [by rewrite app_nil_r | done]. Qed.

(** One row: the scores of the longer row agree with those of the row on
    its positions, and every added target is ignored. *)
Lemma loss_terms_padded_row (scores scores' : list (list F)) (row : list nat) (k : nat) :
  length scores = length row →
  length scores' = length row + k →
  take (length row) scores' = scores →
  loss_terms 0 (slice_to scores' (-1)) (slice_from (row ++ replicate k 0) 1)
  = loss_terms 0 (slice_to scores (-1)) (slice_from row 1).
Proof.
  intros Hlen Hlen' Htake. rewrite !slice_to_drop_last, !slice_from_1.
  destruct k as [|k].
  { rewrite app_nil_r. rewrite take_ge in Htake by lia. by subst. }
  destruct row as [|ix row].
  - destruct scores; [|done]. simpl. rewrite drop_0.
    rewrite loss_terms_ignored; [done|]. rewrite length_take. simpl in Hlen'. lia.
  - simpl length in *. simpl drop.
    assert (take (S (length row) + S k - 1) scores'
            = take (length row) scores ++ drop (length row) (take (length row + S k) scores'))
      as Hsplit.
    { rewrite <- Htake. rewrite take_take.
      replace (length row `min` S (length row)) with (length row) by lia.
      replace (S (length row) + S k - 1) with (length row + S k) by lia.
      rewrite <- (take_drop (length row) (take (length row + S k) scores')) at 1.
      f_equal. rewrite take_take. f_equal. lia. }
    rewrite Hlen', Hsplit, Hlen.
    replace (S (length row) - 1) with (length row) by lia.
    rewrite !drop_0. change (0 :: replicate k 0) with (replicate (S k) 0).
    rewrite loss_terms_app by (rewrite length_take; lia).
    rewrite loss_terms_ignored.
    + apply rbind_app_nil.
    + rewrite length_drop, length_take. lia.
Qed.

Lemma loss_terms_padded (batch : LongTensor2) (out out' : list (list (list F))) (k : nat) :
  Forall2 (λ row scores, length scores = length row) batch out →
  Forall2 (λ row scores', length scores' = length row + k) batch out' →
  Forall2 (λ scores scores', take (length scores) scores' = scores) out out' →
  loss_terms 0 (shift_preds out') (shift_targets (pad_rows k batch))
  = loss_terms 0 (shift_preds out) (shift_targets batch).
Proof.
  intros H1. revert out'. induction H1 as [|row scores batch out Hlen _ IH];
    intros out' H2 H3.
  - apply Forall2_nil_inv_l in H2 as ->. done.
  - apply Forall2_cons_inv_l in H2 as (scores' & out'' & Hlen' & H2 & ->).
    apply Forall2_cons in H3 as [Htake H3].
    unfold shift_preds, shift_targets, pad_rows in *. cbn [map concat].
    rewrite !loss_terms_app.
    + rewrite (loss_terms_padded_row scores scores' row k); [|done|done|by rewrite <- Hlen].
      by rewrite (IH out'').
    + rewrite slice_to_drop_last, slice_from_1, length_take, length_drop. lia.
    + rewrite slice_to_drop_last, slice_from_1, length_take, length_drop, length_app,
        length_replicate. lia.
Qed.

Lemma embedding_lookup_pad (emb_w : list (list F)) (e0 : list F) (row : list nat)
    (embs : list (list F)) (k : nat) :
  emb_w !! 0 = Some e0 →
  rmapM (embedding_lookup emb_w) row = Ok embs →
  rmapM (embedding_lookup emb_w) (row ++ replicate k 0) = Ok (embs ++ replicate k e0).
Proof.
  intros H0. rewrite !rmapM_Ok. intros Hrow. apply Forall2_app; [done|].
  apply Forall2_replicate. unfold embedding_lookup. by rewrite H0.
Qed.

Lemma forward_padded (h : gmap loc (tensor F)) (net : Emb_RNNLM) (batch : LongTensor2)
    (out : list (list (list F))) (emb_w : list (list F)) (k : nat) :
  get_mat h (emb_weight (embeddings net)) = Ok emb_w → emb_w ≠ [] →
  forward h net batch = Ok out →
  ∃ out', forward h net (pad_rows k batch) = Ok out'
          ∧ Forall2 (λ row scores', length scores' = length row + k) batch out'
          ∧ Forall2 (λ scores scores', take (length scores) scores' = scores) out out'.
Proof.
  intros Hemb Hne Hfw. destruct emb_w as [|e0 emb_w]; [done|].
  apply forward_Ok in Hfw as (emb_w' & layers & out_w & out_b & Hemb' & Hl & Hw & Hb & Hrows).
  assert (emb_w' = e0 :: emb_w) as -> by congruence.
  set (score := λ row : list nat,
         map (linear out_w out_b)
           (rnn_forward layers (d_hid net)
              (map (λ ix, default [] ((e0 :: emb_w) !! ix)) (row ++ replicate k 0)))).
  assert (∀ row embs, rmapM (embedding_lookup (e0 :: emb_w)) row = Ok embs →
            embs = map (λ ix, default [] ((e0 :: emb_w) !! ix)) row) as Hembs.
  { intros row embs. rewrite rmapM_Ok. induction 1 as [|ix e row embs Hix _ IH]; [done|].
    simpl. rewrite <- IH. f_equal. unfold embedding_lookup in Hix.
    destruct ((e0 :: emb_w) !! ix); by simplify_eq/=. }
  assert (Forall2 (λ row scores,
            scores = map (linear out_w out_b)
                       (rnn_forward layers (d_hid net)
                          (map (λ ix, default [] ((e0 :: emb_w) !! ix)) row))
            ∧ row ≠ []
            ∧ ∃ embs, rmapM (embedding_lookup (e0 :: emb_w)) row = Ok embs)
            batch out) as Hrows'.
  { eapply Forall2_impl; [exact Hrows|]. intros row scores (Hr & embs & Hrow & ->).
    split; [|split; [done | by exists embs]]. by rewrite (Hembs row embs Hrow). }
  clear Hrows.
  exists (map score batch). split_and!.
  - apply forward_Ok. exists (e0 :: emb_w), layers, out_w, out_b. split_and!; try done.
    unfold pad_rows. apply Forall2_fmap, Forall_Forall2_diag.
    eapply Forall2_Forall_l; [exact Hrows'|]. apply Forall_true.
    intros scores row (_ & Hr & embs & Hrow).
    split; [by destruct row|].
    exists (embs ++ replicate k e0). split.
    + by apply embedding_lookup_pad.
    + unfold score. do 2 f_equal. rewrite (Hembs row embs Hrow).
      rewrite map_app. f_equal. clear. induction k as [|k IH]; [done|].
      simpl. by rewrite IH.
  - apply Forall2_fmap_r, Forall_Forall2_diag, Forall_true. intros row.
    unfold score, compose. cbv beta. rewrite length_map, rnn_forward_length, length_map, length_app,
      length_replicate. done.
  - apply Forall2_fmap_r, Forall2_flip.
    eapply Forall2_impl; [exact Hrows'|]. intros row scores [-> _]. simpl.
    unfold score. rewrite length_map, rnn_forward_length, length_map.
    rewrite <- fmap_take, rnn_forward_take, <- fmap_take.
    by rewrite take_app_length.
Qed.

Lemma total_nll_padded (h : gmap loc (tensor F)) (net : Emb_RNNLM) (batch : LongTensor2)
    (emb_w : list (list F)) (k : nat) (v : F) :
  get_mat h (emb_weight (embeddings net)) = Ok emb_w → emb_w ≠ [] →
  total_nll h net batch = Ok v →
  total_nll h net (pad_rows k batch) = Ok v.
Proof.
  intros Hemb Hne. unfold total_nll. intros (out & Hfw & Hloss)%rbind_Ok.
  destruct (forward_padded h net batch out emb_w k Hemb Hne Hfw)
    as (out' & Hfw' & Hlen' & Htake).
  rewrite Hfw'. cbn [rbind]. unfold CrossEntropyLoss in *.
  rewrite (loss_terms_padded batch out out' k); [done | | done | done].
  by eapply forward_shape.
Qed.

(** X12.  Padding does not change the perplexity: if [compute_perplexity]
    returns [v] on a dataset and the embedding matrix has a row for the
    padding index, it returns the same [v] on the dataset with [k] more
    padding indices at the end of every row (whatever the arithmetic of
    the scalars). *)
Theorem perplexity_ignores_trailing_padding (h : gmap loc (tensor F)) (net : Emb_RNNLM)
    (dataset : LongTensor2) (bsz k : nat) (emb_w : list (list F)) (v : F) :
  get_mat h (emb_weight (embeddings net)) = Ok emb_w → emb_w ≠ [] →
  compute_perplexity h dataset net bsz = Ok v →
  compute_perplexity h (pad_rows k dataset) net bsz = Ok v.
Proof.
  intros Hemb Hne. unfold compute_perplexity.
  replace (length (pad_rows k dataset)) with (length dataset)
    by (unfold pad_rows; by rewrite length_map).
  intros (batches & Hb & Hrun)%rbind_Ok. rewrite Hb. cbn [rbind].
  apply rbind_Ok in Hrun as ([nll total] & Hacc & Hv).
  rewrite (rfoldl_ext_Ok (perplexity_step h net dataset)
             (perplexity_step h net (pad_rows k dataset)) batches (s_zero, s_zero)
             (nll, total)); [done | | done].
  intros [nll1 total1] [start stop] acc'.
  rewrite !perplexity_step_total_nll. rewrite slice_pad_rows, count_nonzero_pad_rows.
  intros (loss & Hloss & Hacc')%rbind_Ok.
  by rewrite (total_nll_padded h net _ emb_w k loss Hemb Hne Hloss).
Qed.
End Padding.

(* ===================================================================== *)
(** * The parameter objects of a model *)
(* ===================================================================== *)

Lemma dedup_spec (seen ls : list loc) :
  NoDup (dedup seen ls)
  ∧ ∀ x, x ∈ dedup seen ls ↔ x ∈ ls ∧ x ∉ seen.
Proof.
  revert seen. induction ls as [|l ls IH]; intros seen.
  - split; [constructor|]. intros x. simpl. set_solver.
  - simpl. destruct (bool_decide (l ∈ seen)) eqn:Hl.
    + apply bool_decide_eq_true in Hl. destruct (IH seen) as [Hnd Hel].
      split; [done|]. intros x. rewrite Hel. set_solver.
    + apply bool_decide_eq_false in Hl. destruct (IH (l :: seen)) as [Hnd Hel].
      split.
      * constructor; [|done]. rewrite Hel. set_solver.
      * intros x. rewrite elem_of_cons, Hel. 
        destruct (decide (x = l)) as [->|Hx]; set_solver.
Qed.

Lemma dedup_fresh (seen ls : list loc) :
  NoDup ls → (∀ x, x ∈ ls → x ∉ seen) → dedup seen ls = ls.
Proof.
  revert seen. induction ls as [|l ls IH]; intros seen Hnd Hfresh; [done|].
  apply NoDup_cons in Hnd as [Hl Hnd]. simpl.
  rewrite bool_decide_eq_false_2 by (apply Hfresh; left).
  f_equal. apply IH; [done|]. intros x Hx. 
  rewrite not_elem_of_cons. split; [intros ->; done|]. apply Hfresh. by right.
Qed.

Lemma dedup_app_fresh (seen l1 l2 : list loc) :
  NoDup l1 → (∀ x, x ∈ l1 → x ∉ seen) →
  dedup seen (l1 ++ l2) = l1 ++ dedup (reverse l1 ++ seen) l2.
Proof.
  revert seen. induction l1 as [|l l1 IH]; intros seen Hnd Hfresh; [done|].
  apply NoDup_cons in Hnd as [Hl Hnd]. simpl.
  rewrite bool_decide_eq_false_2 by (apply Hfresh; left).
  f_equal. rewrite IH; [by rewrite reverse_cons, <- app_assoc | done |].
  intros x Hx. rewrite not_elem_of_cons. split; [intros ->; done|].
  apply Hfresh. by right.
Qed.

Lemma param_list_eq (e k : nat) :
  e :: seq (S e) k ++ [S e + k; S (S e + k)] = seq e (k + 3).
Proof.
  replace (k + 3) with (S k + 2) by lia. rewrite seq_app. simpl.
  repeat f_equal; lia.
Qed.

Section ParameterFacts.
Context {F : Type} `{Scalar F}.
Variable init_value : loc → nat → nat → F.

(** The layers of [nn.RNN] take four consecutive objects each. *)
Lemma new_RNN_layers_locs (input_size hidden_size n : nat) (w : world F) :
  ∃ ls w',
    allocates (new_RNN_layers init_value input_size hidden_size n) (4 * n) w ls w'
    ∧ concat (map layer_parameters ls) = seq (next_loc w) (4 * n)
    ∧ length ls = n.
Proof.
  revert input_size w. induction n as [|n IH]; intros input_size w.
  - exists [], w. split; [apply allocates_ret|]. done.
  - set (l0 := next_loc w).
    set (l := {| weight_ih := l0; weight_hh := S l0; bias_ih := S (S l0);
                 bias_hh := S (S (S l0)) |}).
    set (w1 := (new_RNNLayer init_value input_size hidden_size w).2).
    assert (allocates (new_RNNLayer init_value input_size hidden_size) 4 w l w1) as Hl.
    { unfold allocates. subst w1 l l0. simpl. split_and!; try done; [lia|].
      intros k Hk. by rewrite !lookup_insert_ne by lia. }
    destruct (IH hidden_size w1) as (ls & w' & Hls & Hlocs & Hlen).
    exists (l :: ls), w'. split_and!.
    + replace (4 * S n) with (4 + (4 * n + 0)) by lia. cbn [new_RNN_layers].
      eapply allocates_bind; [exact Hl|].
      eapply allocates_bind; [exact Hls|]. apply allocates_ret.
    + cbn [map concat]. rewrite Hlocs.
      destruct Hl as (_ & Hn1 & _). rewrite Hn1.
      replace (4 * S n) with (4 + 4 * n) by lia. rewrite seq_app.
      subst l l0. unfold layer_parameters. simpl. done.
    + simpl. by rewrite Hlen.
Qed.

(** The constructor returns whenever the recurrent layer has positive
    sizes and depth. *)
Lemma constructor_returns (params : hyper) (w : world F) :
  0 < p_d_emb params → 0 < p_d_hid params → 0 < num_layers params →
  ∃ net w', Emb_RNNLM_init init_value params w = (Ok net, w').
Proof.
  intros Hemb Hhid Hlayers. unfold Emb_RNNLM_init, new_Embedding.
  unfold mbind at 1. unfold mbind at 1. cbn [alloc mret].
  set (w1 := World _ (S (next_loc w)) (stdout w) (rand w)).
  unfold mbind at 1. unfold new_RNN.
  destruct (p_d_emb params =? 0) eqn:E0; [apply Nat.eqb_eq in E0; lia|].
  destruct (p_d_hid params =? 0) eqn:E1; [apply Nat.eqb_eq in E1; lia|].
  destruct (num_layers params =? 0) eqn:E2; [apply Nat.eqb_eq in E2; lia|].
  destruct (new_RNN_layers_locs (p_d_emb params) (p_d_hid params)
              (num_layers params) w1)
    as (ls & w2 & (Hrun & _) & _).
  rewrite Hrun. unfold new_Linear.
  unfold mbind at 1. unfold mbind at 1. unfold mbind at 1. cbn [alloc mret].
  destruct (tied params); [destruct (p_d_emb params =? p_d_hid params)|];
    unfold mbind, print, mret; by eexists _, _.
Qed.

(** The constructor prints the diagnostic when asked to tie weights of
    different dimensions, and nothing else. *)
Lemma constructor_prints (params : hyper) (w w' : world F) (net : Emb_RNNLM) :
  Emb_RNNLM_init init_value params w = (Ok net, w') →
  stdout w' = stdout w
              ++ (if tied params && negb (p_d_emb params =? p_d_hid params)
                  then [Msg tied_diagnostic] else []).
Proof.
  unfold Emb_RNNLM_init, new_Embedding. unfold mbind at 1. unfold mbind at 1.
  cbn [alloc mret].
  set (w1 := World _ (S (next_loc w)) (stdout w) (rand w)).
  unfold mbind at 1. unfold new_RNN.
  destruct (p_d_emb params =? 0); [done|].
  destruct (p_d_hid params =? 0); [done|].
  destruct (num_layers params =? 0); [done|].
  destruct (new_RNN_layers_locs (p_d_emb params) (p_d_hid params)
              (num_layers params) w1)
    as (ls & w2 & (Hrun & _ & Hout & _) & _).
  rewrite Hrun. unfold new_Linear.
  unfold mbind at 1. unfold mbind at 1. unfold mbind at 1. cbn [alloc mret].
  destruct (tied params); [destruct (p_d_emb params =? p_d_hid params)|];
    unfold mbind, print, mret; cbn [andb negb]; intros [= _ <-];
    cbn [stdout]; rewrite Hout; subst w1; cbn [stdout]; by rewrite ?app_nil_r.
Qed.

(** X14.  What a run of [Emb_RNNLM.__init__] that returned has done: it
    allocated [4 * num_layers + 3] parameter objects, left the existing
    objects and the state of [random] alone, and printed the diagnostic
    exactly when [tied] is set and the dimensions differ.  The output
    weight is the embedding object exactly when [tied] is set and the
    dimensions agree.  [parameters()] lists every parameter once, in
    allocation order: all [4 * num_layers + 3] objects, or, when the
    weight is shared, all but the output weight that was replaced; each
    of them is in the heap. *)
Theorem model_constructor_effects (params : hyper) (w w' : world F) (net : Emb_RNNLM) :
  Emb_RNNLM_init init_value params w = (Ok net, w') →
  let n := num_layers params in
  let same := p_d_emb params =? p_d_hid params in
  let sharing := tied params && same in
  next_loc w' = next_loc w + 4 * n + 3
  ∧ (∀ l, l < next_loc w → heap w' !! l = heap w !! l)
  ∧ rand w' = rand w
  ∧ stdout w' = stdout w ++ (if tied params && negb same then [Msg tied_diagnostic]
                             else [])
  ∧ (lin_weight (R2o net) = emb_weight (embeddings net) ↔ sharing = true)
  ∧ NoDup (parameters net)
  ∧ parameters net
    = (if sharing then seq (next_loc w) (4 * n + 1) ++ [next_loc w + 4 * n + 2]
       else seq (next_loc w) (4 * n + 3))
  ∧ Forall (λ l, is_Some (heap w' !! l)) (parameters net).
Proof.
  intros Hinit n same sharing.
  pose proof (built_model_well_formed init_value params w w' net Hinit) as [Hwf _].
  assert (Forall (λ l, is_Some (heap w' !! l)) (parameters net)) as Hheap.
  { destruct Hwf as ((emb_w & Hemb & _) & (layers & Hlayers) & (out_w & Hw & _)
                     & (out_b & Hb & _)).
    apply Forall_forall. intros l [Hl _]%dedup_spec.
    assert (∀ k m, get_mat (heap w') k = Ok m → is_Some (heap w' !! k)) as Hmat.
    { intros k m. unfold get_mat. destruct (heap w' !! k); [by eexists | done]. }
    assert (∀ k v, get_vec (heap w') k = Ok v → is_Some (heap w' !! k)) as Hvec.
    { intros k v. unfold get_vec. destruct (heap w' !! k); [by eexists | done]. }
    apply elem_of_cons in Hl as [->|Hl]; [by eapply Hmat|].
    apply elem_of_app in Hl as [Hl|Hl].
    - apply elem_of_concat in Hl as (ps & Hl & Hps).
      apply list_elem_of_fmap in Hps as (layer & -> & Hlayer).
      apply rmapM_Ok in Hlayers. apply list_elem_of_lookup in Hlayer as [i Hi].
      destruct (Forall2_lookup_l _ _ _ _ _ Hlayers Hi) as (cw & _ & Hread).
      unfold read_layer in Hread.
      apply rbind_Ok in Hread as (wih & Hwih & Hread).
      apply rbind_Ok in Hread as (whh & Hwhh & Hread).
      apply rbind_Ok in Hread as (bih & Hbih & Hread).
      apply rbind_Ok in Hread as (bhh & Hbhh & _).
      unfold layer_parameters in Hl.
      repeat (apply elem_of_cons in Hl as [->|Hl]; [by eauto|]).
      by apply elem_of_nil in Hl.
    - repeat (apply elem_of_cons in Hl as [->|Hl]; [by eauto|]).
      by apply elem_of_nil in Hl. }
  pose proof (proj1 (dedup_spec []
                (emb_weight (embeddings net) :: concat (map layer_parameters (i2R net))
                 ++ [lin_weight (R2o net); lin_bias (R2o net)]))) as Hnd.
  fold (parameters net) in Hnd.
  revert Hinit Hheap Hnd. clear Hwf. subst n same sharing.
  remember (4 * num_layers params) as k eqn:Hk.
  unfold Emb_RNNLM_init, new_Embedding. unfold mbind at 1. unfold mbind at 1.
  cbn [alloc mret].
  set (w1 := World _ (S (next_loc w)) (stdout w) (rand w)).
  unfold mbind at 1. unfold new_RNN.
  destruct (p_d_emb params =? 0); [done|].
  destruct (p_d_hid params =? 0); [done|].
  destruct (num_layers params =? 0); [done|].
  destruct (new_RNN_layers_locs (p_d_emb params) (p_d_hid params)
              (num_layers params) w1)
    as (ls & w2 & (Hrun & Hnext & Hout & Hrand & Hh) & Hlocs & Hlen).
  rewrite Hrun. unfold new_Linear.
  unfold mbind at 1. unfold mbind at 1. unfold mbind at 1. cbn [alloc mret].
  rewrite <- Hk in Hnext, Hlocs.
  assert (next_loc w1 = S (next_loc w)) as Hn1 by done.
  assert (stdout w1 = stdout w) as Ho1 by done.
  assert (rand w1 = rand w) as Hr1 by done.
  assert (∀ l, l < next_loc w → heap w1 !! l = heap w !! l) as Hh1.
  { intros l Hl. subst w1. simpl. by rewrite lookup_insert_ne by lia. }
  rewrite Hn1 in Hnext, Hlocs, Hh. clearbody w1.
  assert (∀ l, l < next_loc w →
            <[S (next_loc w2) := init_vec init_value (S (next_loc w2)) (inv_size params)]>
              (<[next_loc w2 := init_mat init_value (next_loc w2) (inv_size params)
                                  (p_d_hid params)]> (heap w2)) !! l
            = heap w !! l) as Hpres.
  { intros l Hl. rewrite !lookup_insert_ne by lia. rewrite Hh by lia. by apply Hh1. }
  destruct (tied params); [destruct (p_d_emb params =? p_d_hid params)|];
    unfold mbind, print, mret; cbn [andb negb next_loc heap stdout rand];
    intros [= <- <-] Hheap Hnd;
    cbn [next_loc heap stdout rand embeddings emb_weight R2o lin_weight lin_bias];
    (split; [lia|]); (split; [exact Hpres|]); (split; [congruence|]);
    (split; [rewrite ?app_nil_r; congruence|]);
    (split; [split; [done || lia | done || lia]|]);
    (split; [exact Hnd|]); (split; [|exact Hheap]); unfold parameters;
    cbn [embeddings emb_weight i2R R2o lin_weight lin_bias]; rewrite Hlocs, Hnext.
  - (* the output weight is the embedding object *)
    change (next_loc w :: seq (S (next_loc w)) k
              ++ [next_loc w; S (S (next_loc w) + k)])
      with (seq (next_loc w) (S k) ++ [next_loc w; S (S (next_loc w) + k)]).
    rewrite dedup_app_fresh; [|apply NoDup_seq | intros x _; apply not_elem_of_nil].
    f_equal; [f_equal; lia|]. cbn [dedup].
    rewrite bool_decide_eq_true_2.
    2:{ rewrite app_nil_r, elem_of_reverse. apply elem_of_seq. lia. }
    rewrite bool_decide_eq_false_2.
    2:{ rewrite app_nil_r, elem_of_reverse, elem_of_seq. lia. }
    f_equal. lia.
  - rewrite dedup_fresh; [apply param_list_eq | | intros x _; apply not_elem_of_nil].
    rewrite param_list_eq. apply NoDup_seq.
  - rewrite dedup_fresh; [apply param_list_eq | | intros x _; apply not_elem_of_nil].
    rewrite param_list_eq. apply NoDup_seq.
Qed.

End ParameterFacts.
(* ===================================================================== *)
(** * Batches *)
(* ===================================================================== *)

Lemma concat_Permutation {A : Type} (ls ls' : list (list A)) :
  ls ≡ₚ ls' → concat ls ≡ₚ concat ls'.
Proof.
  induction 1 as [|l ls ls' _ IH|l1 l2 ls|ls1 ls2 ls3 _ IH1 _ IH2]; simpl.
  - done.
  - by rewrite IH.
  - rewrite !app_assoc. f_equiv. apply Permutation_app_comm.
  - by rewrite IH1.
Qed.

Lemma batches_concat {A : Type} (dataset : list A) (bsz c : nat) :
  concat (map (λ b : nat * nat, slice dataset b.1 b.2)
            (map (λ k, (k * bsz, k * bsz + bsz)) (seq 0 c)))
  = take (c * bsz) dataset.
Proof.
  induction c as [|c IH]; [done|].
  rewrite seq_S, !map_app, concat_app, IH. simpl. rewrite app_nil_r.
  replace (bsz + c * bsz) with (c * bsz + bsz) by lia.
  by rewrite take_slice_app.
Qed.

(** X16.  For a positive batch size the batches of [train_lm] and
    [compute_perplexity] cut the dataset into consecutive non-empty
    slices of at most [bsz] rows: laid end to end in order they are the
    dataset, there are fewer than [n / bsz + 1] of them, and after
    [random.shuffle] they still hold every row exactly once. *)
Theorem batches_cover_dataset {A : Type} (dataset : list A) (bsz : nat) (g : rng) :
  0 < bsz →
  ∃ batches,
    make_batches (length dataset) bsz = Ok batches
    ∧ concat (map (λ b : nat * nat, slice dataset b.1 b.2) batches) = dataset
    ∧ Forall (λ b : nat * nat, 0 < length (slice dataset b.1 b.2) ≤ bsz) batches
    ∧ length batches * bsz < length dataset + bsz
    ∧ concat (map (λ b : nat * nat, slice dataset b.1 b.2) (shuffle batches g).1)
      ≡ₚ dataset.
Proof.
  intros Hb. rewrite make_batches_Ok by done. eexists. split; [done|].
  set (c := (length dataset + bsz - 1) / bsz).
  assert (c * bsz ≤ length dataset + bsz - 1) as Hc.
  { subst c. rewrite Nat.mul_comm. apply Nat.Div0.mul_div_le. }
  pose proof (batch_count_covers (length dataset) bsz Hb) as Hcov. fold c in Hcov.
  assert (concat (map (λ b : nat * nat, slice dataset b.1 b.2)
                    (map (λ k, (k * bsz, k * bsz + bsz)) (seq 0 c))) = dataset) as Hcat.
  { rewrite batches_concat. by apply take_ge. }
  split_and!.
  - done.
  - apply Forall_fmap, Forall_forall. intros k [_ Hk]%elem_of_seq. simpl.
    unfold slice. rewrite length_drop, length_take. nia.
  - rewrite length_map, length_seq. lia.
  - transitivity (concat (map (λ b : nat * nat, slice dataset b.1 b.2)
                            (map (λ k, (k * bsz, k * bsz + bsz)) (seq 0 c))));
      [|by rewrite Hcat].
    apply concat_Permutation, Permutation_map', shuffle_perm.
Qed.

Section Degenerate.
Context {F : Type} `{Scalar F}.
Variable optimizer : Type.
Variable adam_init : list loc → spec_float → optimizer.
Variable adam_step :
  optimizer → Emb_RNNLM → LongTensor2 → gmap loc (tensor F)
  → optimizer * gmap loc (tensor F).

Lemma compute_perplexity_empty (h : gmap loc (tensor F)) (net : Emb_RNNLM) (bsz : nat) :
  compute_perplexity h [] net bsz
  = Raise (if bsz =? 0 then ValueError else ZeroDivisionError).
Proof.
  unfold compute_perplexity. destruct bsz as [|b]; [done|].
  rewrite make_batches_Ok by lia. simpl length. by rewrite batch_count_zero by lia.
Qed.

(** X17.  Degenerate inputs of the trainer.  A learning rate for which
    [0.0 <= lr] does not hold makes [train_lm] raise [ValueError] (the
    constructor of the optimizer), and so does [batch_size = 0] (the
    step of [range]), before anything is printed or updated; with a
    learning rate that is accepted, a positive batch size and no epochs
    it returns at once and leaves the world as it was; with an empty dev
    set and at least one epoch it never returns normally and prints
    nothing.  [compute_perplexity] raises [ValueError] for [bsz = 0] and
    [ZeroDivisionError] on a dataset without rows. *)
Theorem train_lm_degenerate (dataset dev : LongTensor2) (params : hyper)
    (net : Emb_RNNLM) (w : world F) :
  let run := train_lm optimizer adam_init adam_step dataset dev params net w in
  (Float64.nonneg (learning_rate params) = false → run = (Raise ValueError, w))
  ∧ (batch_size params = 0 → run = (Raise ValueError, w))
  ∧ (Float64.nonneg (learning_rate params) = true → 0 < batch_size params →
     epochs params = 0 → run = (Ok tt, w))
  ∧ (0 < epochs params → dev = [] →
     ∃ e, run.1 = Raise e ∧ stdout run.2 = stdout w)
  ∧ (∀ (h : gmap loc (tensor F)) bsz,
       compute_perplexity h dataset net 0 = Raise ValueError
       ∧ compute_perplexity h [] net (S bsz) = Raise ZeroDivisionError).
Proof.
  intros run. subst run. split_and!.
  - intros Hlr. unfold train_lm, Adam. by rewrite Hlr.
  - intros Hb. unfold train_lm, Adam, make_batches, py_range. rewrite Hb.
    by destruct (Float64.nonneg (learning_rate params)).
  - intros Hlr Hb He. unfold train_lm, Adam. rewrite Hlr.
    rewrite make_batches_Ok by done. rewrite He. done.
  - intros He ->. unfold train_lm.
    match goal with |- context [mbind ?m ?f ?w0] =>
      destruct (mbind_cases m f w0)
        as [(opt & w0' & Hm0 & ->)|(e & w0' & Hm0 & ->)] end;
      unfold mlift in Hm0; injection Hm0 as _ <-; [|by exists e].
    match goal with |- context [mbind ?m ?f ?w0] =>
      destruct (mbind_cases m f w0)
        as [(batches & w1 & Hm1 & ->)|(e & w1 & Hm1 & ->)] end;
      unfold mlift in Hm1; injection Hm1 as _ <-; [|by exists e].
    destruct (epochs params) as [|n]; [lia|]. cbn [seq epoch_loop].
    match goal with |- context [mbind ?m ?f ?w0] =>
      destruct (mbind_cases m f w0)
        as [(batches' & w1 & Hm1 & ->)|(e & w1 & Hm1 & ->)] end;
      pose proof (silent_run _ _ _ _ (silent_shuffle_batches batches) Hm1) as Hs1.
    2:{ by exists e. }
    match goal with |- context [mbind ?m ?f ?w0] =>
      destruct (mbind_cases m f w0)
        as [([opt' ep_loss] & w2 & Hm2 & ->)|(e & w2 & Hm2 & ->)] end;
      pose proof (silent_run _ _ _ _
                    (silent_mfoldl _ _ _
                       (silent_train_batch optimizer adam_step net dataset)) Hm2) as Hs2.
    2:{ exists e. split; [done|]. simpl. congruence. }
    unfold mbind at 1. simpl.
    eexists. split; [done|]. congruence.
  - intros h bsz. split; [done|]. apply (compute_perplexity_empty h net (S bsz)).
Qed.
End Degenerate.

(* ===================================================================== *)
(** * When the forward pass returns *)
(* ===================================================================== *)

Lemma rmapM_Raise_inv {A B : Type} (f : A → result B) (l : list A) (e : exn) :
  rmapM f l = Raise e → ∃ a, a ∈ l ∧ f a = Raise e.
Proof.
  induction l as [|a l IH]; [done|]. simpl.
  destruct (f a) as [b|e'] eqn:Ha; simpl.
  - destruct (rmapM f l) as [bs|e'] eqn:Hl; [done|]. simpl. intros [= ->].
    destruct IH as (a' & Ha' & Hf); [done|]. exists a'. split; [by right | done].
  - intros [= ->]. exists a. split; [left | done].
Qed.

Section ForwardDomain.
Context {F : Type} `{Scalar F}.

(** X15.  The forward pass of a well-formed model on a batch with at
    least one row returns exactly when every index is below
    [vocab_size] and no row is empty.  Otherwise it raises [IndexError]
    when an index is not below [vocab_size] (the embedding does not have
    it), and [RuntimeError] when the indices are in range and a sequence
    has length 0 (which [nn.RNN] refuses).  What it returns has shape
    [B x T x vocab_size]. *)
Theorem forward_returns_iff (h : gmap loc (tensor F)) (net : Emb_RNNLM)
    (batch : LongTensor2) :
  well_formed h net →
  batch ≠ [] →
  ((∃ out, forward h net batch = Ok out)
   ↔ Forall (Forall (λ ix, ix < vocab_size net)) batch
     ∧ Forall (λ row, row ≠ []) batch)
  ∧ (∀ e, forward h net batch = Raise e →
       (e = IndexError ∧ ¬ Forall (Forall (λ ix, ix < vocab_size net)) batch)
       ∨ (e = RuntimeError
          ∧ Forall (Forall (λ ix, ix < vocab_size net)) batch
          ∧ ¬ Forall (λ row, row ≠ []) batch))
  ∧ (∀ out, forward h net batch = Ok out →
       Forall2 (λ row scores,
                  length scores = length row
                  ∧ Forall (λ s, length s = vocab_size net) scores) batch out).
Proof.
  intros Hwf _.
  assert (∀ emb_w embs,
            get_mat h (emb_weight (embeddings net)) = Ok emb_w →
            rmapM (rmapM (embedding_lookup emb_w)) batch = Ok embs →
            Forall (Forall (λ ix, ix < vocab_size net)) batch) as Hrange.
  { destruct Hwf as ((emb_w & Hemb & Hlen) & _).
    intros emb_w' embs Hemb' Hembs.
    assert (emb_w' = emb_w) as -> by congruence.
    apply rmapM_Ok in Hembs.
    eapply Forall2_Forall_l; [exact Hembs|]. apply Forall_true.
    intros xs row Hrow. apply rmapM_Ok in Hrow.
    eapply Forall2_Forall_l; [exact Hrow|]. apply Forall_true.
    intros e ix. unfold embedding_lookup.
    destruct (emb_w !! ix) eqn:Hix; [|done]. intros _.
    rewrite <- Hlen. by eapply lookup_lt_Some. }
  assert ((∃ out, forward h net batch = Ok out)
          → Forall (Forall (λ ix, ix < vocab_size net)) batch
            ∧ Forall (λ row, row ≠ []) batch) as Hdom.
  { intros [out Hout]. split; [|by eapply forward_rows_nonempty].
    unfold forward in Hout.
    apply rbind_Ok in Hout as (emb_w & Hemb & Hout).
    apply rbind_Ok in Hout as (layers & _ & Hout).
    apply rbind_Ok in Hout as (out_w & _ & Hout).
    apply rbind_Ok in Hout as (out_b & _ & Hout).
    apply rbind_Ok in Hout as (embs & Hembs & _).
    by eapply Hrange. }
  split_and!.
  - split; [exact Hdom|]. intros [Hall Hne].
    destruct (forward_total h net batch Hwf Hall Hne) as (out & Hout & _). by exists out.
  - intros e Hraise.
    assert (¬ (Forall (Forall (λ ix, ix < vocab_size net)) batch
               ∧ Forall (λ row, row ≠ []) batch)) as Hnot.
    { intros [Hall Hne].
      destruct (forward_total h net batch Hwf Hall Hne) as (out & Hout & _).
      congruence. }
    pose proof Hwf as ((emb_w & Hemb & Hlen) & (layers & Hlayers) & (out_w & Hw & _)
                       & (out_b & Hb & _)).
    unfold forward in Hraise. rewrite Hemb, Hlayers, Hw, Hb in Hraise.
    cbn [rbind] in Hraise.
    destruct (rmapM (rmapM (embedding_lookup emb_w)) batch) as [embs|e'] eqn:Hembs.
    + right. cbn [rbind] in Hraise.
      pose proof (Hrange emb_w embs Hemb Hembs) as Hall.
      unfold rnn_batch in Hraise. destruct (forallb _ embs); [done|].
      simpl in Hraise. injection Hraise as <-. split; [done|]. split; [done|].
      intros Hne. by apply Hnot.
    + left. simpl in Hraise. injection Hraise as <-.
      apply rmapM_Raise_inv in Hembs as (row & Hin & Hrow).
      apply rmapM_Raise_inv in Hrow as (ix & Hix_in & Hix).
      unfold embedding_lookup in Hix.
      destruct (emb_w !! ix) eqn:Hlook; simplify_eq. split; [done|].
      intros Hall. rewrite Forall_forall in Hall. specialize (Hall row Hin).
      rewrite Forall_forall in Hall. specialize (Hall ix Hix_in). simpl in Hall.
      apply lookup_ge_None in Hlook. lia.
  - intros out Hout.
    destruct Hdom as [Hall Hne]; [by exists out|].
    destruct (forward_total h net batch Hwf Hall Hne) as (out' & Hout' & Hshape).
    assert (out' = out) as -> by congruence. exact Hshape.
Qed.
End ForwardDomain.

Local Open Scope Z_scope.

(* ===================================================================== *)
(** * The split point of the pipeline in binary64 *)
(* ===================================================================== *)

Lemma digits2_pos_bounds (p : positive) :
  2 ^ (Z.pos (digits2_pos p) - 1) ≤ Z.pos p < 2 ^ Z.pos (digits2_pos p).
Proof.
  induction p as [p IH|p IH|]; simpl digits2_pos; rewrite ?Pos2Z.inj_succ.
  - replace (Z.succ (Z.pos (digits2_pos p)) - 1) with (Z.succ (Z.pos (digits2_pos p) - 1))
      by lia.
    rewrite !Z.pow_succ_r by lia. lia.
  - replace (Z.succ (Z.pos (digits2_pos p)) - 1) with (Z.succ (Z.pos (digits2_pos p) - 1))
      by lia.
    rewrite !Z.pow_succ_r by lia. lia.
  - simpl. lia.
Qed.

Lemma digits2_pos_unique (p : positive) (d : Z) :
  2 ^ (d - 1) ≤ Z.pos p < 2 ^ d → Z.pos (digits2_pos p) = d.
Proof.
  intros [Hlo Hhi]. pose proof (digits2_pos_bounds p) as [Hlo' Hhi'].
  assert (0 < d) as Hd.
  { destruct (Z.lt_ge_cases 0 d) as [|Hneg]; [done|].
    assert (2 ^ d ≤ 1); [|lia].
    destruct (Z.eq_dec d 0) as [->|]; [simpl; lia|].
    rewrite Z.pow_neg_r by lia. lia. }
  assert (d - 1 < Z.pos (digits2_pos p)) as H1.
  { apply (Z.pow_lt_mono_r_iff 2); lia. }
  assert (Z.pos (digits2_pos p) - 1 < d) as H2.
  { apply (Z.pow_lt_mono_r_iff 2); lia. }
  lia.
Qed.

Lemma iter_xO_mul (p d : positive) :
  Z.pos (Pos.iter xO p d) = Z.pos p * 2 ^ Z.pos d.
Proof.
  induction d as [|d IH] using Pos.peano_ind.
  - simpl. lia.
  - rewrite Pos.iter_succ, Pos2Z.inj_xO, IH, Pos2Z.inj_succ, Z.pow_succ_r by lia. lia.
Qed.

Lemma iter_pos_iter {A : Type} (f : A → A) (p : positive) (x : A) :
  SpecFloat.iter_pos f p x = Pos.iter f x p.
Proof.
  revert x. induction p as [p IH|p IH|]; intros x; simpl.
  - rewrite !IH. by rewrite !Pos.iter_swap.
  - by rewrite !IH.
  - done.
Qed.

Lemma fexp_normal (x : Z) : -1021 ≤ x → fexp 53 1024 x = x - 53.
Proof. intros Hx. unfold fexp, emin. lia. Qed.

Lemma shr_inv_start (M : Z) : 0 ≤ M → shr_inv M 0 (Build_shr_record M false false).
Proof. intros HM. exists 0. simpl. lia. Qed.

Lemma shr_inv_step (M j : Z) (mrs : shr_record) :
  0 ≤ j → shr_inv M j mrs → shr_inv M (j + 1) (shr_1 mrs).
Proof.
  intros Hj (rem & HM & Hrem & Hm & Hr & Hs).
  assert (0 < 2 ^ j) as Hpow by (apply Z.pow_pos_nonneg; lia).
  assert (2 ^ (j + 1) = 2 * 2 ^ j) as Hsucc by (rewrite Z.pow_add_r by lia; lia).
  assert (orb (shr_r mrs) (shr_s mrs) = negb (rem =? 0)) as Hsticky.
  { rewrite Hr, Hs.
    destruct (Z.leb_spec (2 ^ j) (2 * rem)), (Z.eqb_spec rem 0),
      (Z.eqb_spec (2 * rem) (2 ^ j)); simpl; lia. }
  destruct mrs as [m r s]. simpl in *.
  destruct m as [|[p|p|]|p]; [| | | |lia]; simpl; rewrite Hsticky.
  - exists rem. simpl. rewrite Hsucc.
    destruct (Z.leb_spec (2 * 2 ^ j) (2 * rem)), (Z.eqb_spec rem 0),
      (Z.eqb_spec (2 * rem) (2 * 2 ^ j)); simpl; lia.
  - exists (2 ^ j + rem). simpl. rewrite Hsucc.
    destruct (Z.leb_spec (2 * 2 ^ j) (2 * (2 ^ j + rem))), (Z.eqb_spec rem 0),
      (Z.eqb_spec (2 ^ j + rem) 0),
      (Z.eqb_spec (2 * (2 ^ j + rem)) (2 * 2 ^ j)); simpl; lia.
  - exists rem. simpl. rewrite Hsucc.
    destruct (Z.leb_spec (2 * 2 ^ j) (2 * rem)), (Z.eqb_spec rem 0),
      (Z.eqb_spec (2 * rem) (2 * 2 ^ j)); simpl; lia.
  - exists (2 ^ j + rem). simpl. rewrite Hsucc.
    destruct (Z.leb_spec (2 * 2 ^ j) (2 * (2 ^ j + rem))), (Z.eqb_spec rem 0),
      (Z.eqb_spec (2 ^ j + rem) 0),
      (Z.eqb_spec (2 * (2 ^ j + rem)) (2 * 2 ^ j)); simpl; lia.
Qed.

Lemma shr_inv_iter (M : Z) (p : positive) :
  0 ≤ M → shr_inv M (Z.pos p) (SpecFloat.iter_pos shr_1 p (Build_shr_record M false false)).
Proof.
  intros HM. rewrite iter_pos_iter.
  induction p as [|p IH] using Pos.peano_ind.
  - cbn [Pos.iter]. apply (shr_inv_step M 0); [lia|]. by apply shr_inv_start.
  - rewrite Pos.iter_succ, Pos2Z.inj_succ.
    apply (shr_inv_step M (Z.pos p)); [lia|done].
Qed.

Lemma round_nearest_spec (M j : Z) (mrs : shr_record) :
  0 < j → shr_inv M j mrs →
  let R := round_nearest_even (shr_m mrs) (loc_of_shr_record mrs) in
  shr_m mrs ≤ R ≤ shr_m mrs + 1 ∧ 2 * Z.abs (R * 2 ^ j - M) ≤ 2 ^ j.
Proof.
  intros Hj (rem & HM & Hrem & Hm & Hr & Hs).
  destruct mrs as [m r s]. simpl in *.
  assert (0 < 2 ^ j) as Hpow by (apply Z.pow_pos_nonneg; lia).
  destruct (Z.leb_spec (2 ^ j) (2 * rem)), (Z.eqb_spec rem 0),
    (Z.eqb_spec (2 * rem) (2 ^ j)); simpl in Hr, Hs; subst r s; simpl;
    try destruct (Z.even m); lia.
Qed.

Lemma pow2_52 : 2 ^ 52 = 4503599627370496.
Proof. reflexivity. Qed.

Lemma pow2_53 : 2 ^ 53 = 9007199254740992.
Proof. reflexivity. Qed.

Lemma round_finish (R e1 : Z) :
  2 ^ 52 ≤ R ≤ 2 ^ 53 → -1074 ≤ e1 → e1 < 971 →
  ∃ m_r e_r,
    (let '(mrs, e2) := shr_fexp 53 1024 R e1 loc_Exact in
     match shr_m mrs with
     | 0 => S754_zero false
     | Z.pos m => if e2 <=? 1024 - 53 then S754_finite false m e2
                  else S754_infinity false
     | Z.neg _ => S754_nan
     end) = S754_finite false m_r e_r
    ∧ e1 ≤ e_r ≤ e1 + 1
    ∧ Z.pos m_r * 2 ^ (e_r - e1) = R.
Proof.
  intros HR He1 He1'. pose proof pow2_52. pose proof pow2_53.
  destruct R as [|pr|pr]; [lia | | lia].
  destruct (Z.eq_dec (Z.pos pr) 9007199254740992) as [Heq|Hne].
  - injection Heq as ->. exists 4503599627370496%positive, (e1 + 1).
    unfold shr_fexp.
    change (Zdigits2 9007199254740992) with 54.
    rewrite fexp_normal by lia.
    replace (54 + e1 - 53 - e1) with 1 by lia.
    unfold shr_record_of_loc, shr. cbn [SpecFloat.iter_pos shr_1 shr_m].
    destruct (Z.leb_spec (e1 + 1) (1024 - 53)); [|lia].
    split; [done|]. split; [lia|].
    replace (e1 + 1 - e1) with 1 by lia. reflexivity.
  - exists pr, e1. unfold shr_fexp.
    replace (Zdigits2 (Z.pos pr)) with 53.
    2:{ symmetry. apply (digits2_pos_unique pr 53). simpl Z.sub. lia. }
    rewrite fexp_normal by lia.
    replace (53 + e1 - 53 - e1) with 0 by lia.
    unfold shr_record_of_loc, shr. cbn [shr_m].
    destruct (Z.leb_spec e1 (1024 - 53)); [|lia].
    split; [done|]. split; [lia|].
    replace (e1 - e1) with 0 by lia. simpl. lia.
Qed.

(** Rounding a long mantissa to 53 bits: the result is a multiple of the
    unit in the last place that is within half a unit of the operand. *)
Lemma binary_round_aux_spec (P : positive) (e : Z) :
  let dP := Z.pos (digits2_pos P) in
  53 < dP → -1021 ≤ dP + e → dP + e < 1024 →
  ∃ m_r e_r,
    binary_round_aux 53 1024 false (Z.pos P) e loc_Exact = S754_finite false m_r e_r
    ∧ e + (dP - 53) ≤ e_r ≤ e + (dP - 53) + 1
    ∧ ∃ k, Z.pos m_r * 2 ^ (e_r - e) = k * 2 ^ (dP - 53)
           ∧ 2 * Z.abs (k * 2 ^ (dP - 53) - Z.pos P) ≤ 2 ^ (dP - 53).
Proof.
  intros dP Hd Hlo Hhi. unfold binary_round_aux.
  unfold shr_fexp at 1. change (Zdigits2 (Z.pos P)) with dP.
  rewrite fexp_normal by lia.
  replace (dP + e - 53 - e) with (dP - 53) by lia.
  destruct (dP - 53) as [|pj|pj] eqn:Hj; [lia| |lia].
  unfold shr_record_of_loc, shr.
  pose proof (shr_inv_iter (Z.pos P) pj ltac:(lia)) as Hinv.
  set (mrs := SpecFloat.iter_pos shr_1 pj _) in *.
  pose proof (round_nearest_spec (Z.pos P) (Z.pos pj) mrs ltac:(lia) Hinv) as [HR Hnear].
  set (R := round_nearest_even (shr_m mrs) (loc_of_shr_record mrs)) in *.
  assert (2 ^ 52 ≤ shr_m mrs < 2 ^ 53) as Hm.
  { destruct Hinv as (rem & HM & Hrem & Hm0 & _).
    pose proof (digits2_pos_bounds P) as [HPlo HPhi]. fold dP in HPlo, HPhi.
    assert (dP = Z.pos pj + 53) as HdP by lia.
    assert (2 ^ dP = 2 ^ 53 * 2 ^ Z.pos pj) as E1.
    { rewrite HdP, Z.pow_add_r by lia. lia. }
    assert (2 ^ (dP - 1) = 2 ^ 52 * 2 ^ Z.pos pj) as E2.
    { replace (dP - 1) with (Z.pos pj + 52) by lia. rewrite Z.pow_add_r by lia. lia. }
    assert (0 < 2 ^ Z.pos pj) as Hpow by (apply Z.pow_pos_nonneg; lia).
    rewrite E1 in HPhi. rewrite E2 in HPlo. nia. }
  destruct (round_finish R (e + Z.pos pj) ltac:(lia) ltac:(lia) ltac:(lia))
    as (m_r & e_r & Hfin & He & Hval).
  exists m_r, e_r. split; [exact Hfin|]. split; [lia|].
  exists R. split; [|done].
  replace (e_r - e) with ((e_r - (e + Z.pos pj)) + Z.pos pj) by lia.
  rewrite Z.pow_add_r by lia. rewrite Z.mul_assoc, Hval. done.
Qed.

Lemma binary_round_aux_exact (m : positive) (e : Z) :
  Z.pos (digits2_pos m) = 53 → -1074 ≤ e ≤ 971 →
  binary_round_aux 53 1024 false (Z.pos m) e loc_Exact = S754_finite false m e.
Proof.
  intros Hd He. unfold binary_round_aux, shr_fexp.
  change (Zdigits2 (Z.pos m)) with (Z.pos (digits2_pos m)). rewrite Hd.
  rewrite fexp_normal by lia. replace (53 + e - 53 - e) with 0 by lia.
  unfold shr_record_of_loc, shr. cbn [shr_m loc_of_shr_record round_nearest_even].
  change (Zdigits2 (Z.pos m)) with (Z.pos (digits2_pos m)). rewrite Hd.
  rewrite fexp_normal by lia. replace (53 + e - 53 - e) with 0 by lia.
  cbn [shr_m]. destruct (Z.leb_spec e (1024 - 53)); [done|lia].
Qed.

(** [float(z)] of a positive integer below [2^53]: the integer itself,
    its mantissa shifted to 53 bits. *)
Lemma of_int_small (p : positive) :
  let d := Z.pos (digits2_pos p) in
  d < 53 →
  ∃ mz, Float64.of_int (Z.pos p) = S754_finite false mz (d - 53)
        ∧ Z.pos mz = Z.pos p * 2 ^ (53 - d).
Proof.
  intros d Hd. unfold Float64.of_int, Float64.prec, Float64.emax.
  unfold binary_normalize, binary_round, shl_align. fold d.
  rewrite fexp_normal by lia.
  replace (d + 0 - 53 - 0) with (d - 53) by lia.
  destruct (d - 53) as [|pd|pd] eqn:Hpd; [lia|lia|].
  assert (Z.pos pd = 53 - d) as Hpd' by lia.
  exists (Pos.iter xO p pd).
  assert (Z.pos (Pos.iter xO p pd) = Z.pos p * 2 ^ (53 - d)) as Hmz.
  { by rewrite iter_xO_mul, Hpd'. }
  split; [|done].
  replace (d + 0 - 53) with (Z.neg pd) by lia.
  apply binary_round_aux_exact; [|lia].
  apply digits2_pos_unique. rewrite Hmz.
  pose proof (digits2_pos_bounds p) as [Hlo Hhi]. fold d in Hlo, Hhi.
  assert (0 < 2 ^ (53 - d)) as Hpow by (apply Z.pow_pos_nonneg; lia).
  assert (2 ^ 53 = 2 ^ d * 2 ^ (53 - d)) as E1.
  { rewrite <- Z.pow_add_r by lia. f_equal. lia. }
  assert (2 ^ (53 - 1) = 2 ^ (d - 1) * 2 ^ (53 - d)) as E2.
  { rewrite <- Z.pow_add_r by lia. f_equal. lia. }
  rewrite E1, E2. nia.
Qed.

Lemma multiples_close (k k' J : Z) :
  0 < J → Z.abs (k * J - k' * J) < J → k = k'.
Proof. intros HJ Hlt. nia. Qed.

(** The arithmetic behind the split point: a multiple [R] of the unit
    [J] within half a unit of [W * 0.6] (in units of [2^-53 / A]) has
    integer part [floor(3z/5)]. *)
Lemma split_arith (W A V J R k' : Z) :
  let B := 2 ^ 53 in
  let P := W * 5404319552844595 in
  8 ≤ A → 0 < W < B → 0 < J →
  3 * W = 5 * V ∨ 5 * V + A ≤ 3 * W →
  3 * W ≤ 5 * V + 4 * A →
  J * 2 ^ 52 ≤ P < J * B →
  (∃ k, R = k * J) → V * B = k' * J →
  2 * Z.abs (R - P) ≤ J →
  V * B ≤ R < V * B + A * B.
Proof.
  intros B P HA HW HJ HV HV' HP [k ->] HQ Hnear. subst B P.
  rewrite pow2_53 in *. rewrite pow2_52 in *.
  split; [|lia].
  destruct HV as [Heq|Hrho]; [|lia].
  assert (k = k') as ->; [|lia].
  apply (multiples_close k k' J); lia.
Qed.

(** The split point of the pipeline, [int(n * (60/100))], is
    [floor(60 n / 100)] for every [n] below [2^50]: the rounding of
    [60/100] to binary64 and of the product never reaches the next
    integer. *)
Lemma split_index_60 (n : nat) :
  Z.of_nat n < 2 ^ 50 → split_index n 60 = Ok (Z.of_nat n * 60 / 100).
Proof.
  intros Hn. unfold split_index.
  replace (Float64.int_div 60 100)
    with (Ok (S754_finite false 5404319552844595 (-53))) by (vm_compute; reflexivity).
  cbn [rbind].
  destruct (Z.of_nat n) as [|p|p] eqn:Hz; [reflexivity | | lia].
  set (d := Z.pos (digits2_pos p)).
  pose proof (digits2_pos_bounds p) as [Hlo Hhi]. fold d in Hlo, Hhi.
  assert (0 < d) as Hd0 by (subst d; lia).
  assert (d ≤ 50) as Hd.
  { assert (d - 1 < 50); [|lia]. apply (Z.pow_lt_mono_r_iff 2); lia. }
  destruct (of_int_small p ltac:(fold d; lia)) as (mz & Hof & Hmz).
  unfold Float64.int_to_float. rewrite Hof. cbn [rbind]. fold d in Hmz |- *.
  unfold Float64.mul, Float64.prec, Float64.emax, SFmul. cbn [xorb].
  set (A := 2 ^ (53 - d)) in *.
  assert (2 ^ 53 = 2 ^ d * A) as E53.
  { subst A. rewrite <- Z.pow_add_r by lia. f_equal. lia. }
  assert (2 ^ 52 = 2 ^ (d - 1) * A) as E52.
  { subst A. rewrite <- Z.pow_add_r by lia. f_equal. lia. }
  assert (8 ≤ A) as HA.
  { subst A. change 8 with (2 ^ 3). apply Z.pow_le_mono_r; lia. }
  set (W := Z.pos mz) in *.
  assert (2 ^ 52 ≤ W < 2 ^ 53) as HW by (rewrite E52, E53, Hmz; nia).
  set (P := (mz * 5404319552844595)%positive).
  assert (Z.pos P = W * 5404319552844595) as HP by (subst P W; lia).
  set (dP := Z.pos (digits2_pos P)).
  pose proof (digits2_pos_bounds P) as [HPlo HPhi]. fold dP in HPlo, HPhi.
  assert (104 < dP ≤ 106) as HdP.
  { pose proof pow2_52 as E1. pose proof pow2_53 as E2. split.
    - apply (Z.pow_lt_mono_r_iff 2); [lia | subst dP; lia |].
      eapply Z.le_lt_trans; [|exact HPhi]. rewrite HP.
      change (2 ^ 104) with (2 ^ 52 * 2 ^ 52). rewrite E1 in *. nia.
    - assert (dP - 1 < 106); [|lia].
      apply (Z.pow_lt_mono_r_iff 2); [lia | lia |].
      eapply Z.le_lt_trans; [exact HPlo|]. rewrite HP.
      change (2 ^ 106) with (2 ^ 53 * 2 ^ 53). rewrite E2 in *. nia. }
  destruct (binary_round_aux_spec P (d - 53 + -53) ltac:(fold dP; lia)
              ltac:(fold dP; lia) ltac:(fold dP; lia))
    as (m_r & e_r & -> & He_r & k & HR & Hnear).
  fold dP in He_r, HR, Hnear.
  unfold Float64.to_int. destruct (Z.leb_spec 0 e_r) as [|_]; [lia|]. f_equal.
  set (J := 2 ^ (dP - 53)) in *.
  set (U := 2 ^ (106 - d)).
  set (q := Z.pos p * 60 / 100).
  assert (0 < J) as HJ by (subst J; apply Z.pow_pos_nonneg; lia).
  assert (U = A * 2 ^ 53) as HU.
  { subst U A. rewrite <- Z.pow_add_r by lia. f_equal. lia. }
  assert (U = 2 ^ (- e_r) * 2 ^ (e_r - (d - 53 + -53))) as HU'.
  { subst U. rewrite <- Z.pow_add_r by lia. f_equal. lia. }
  assert (U = 2 ^ (159 - d - dP) * J) as HUJ.
  { subst U J. rewrite <- Z.pow_add_r by lia. f_equal. lia. }
  assert (2 ^ dP = J * 2 ^ 53) as EdP.
  { subst J. rewrite <- Z.pow_add_r by lia. f_equal. lia. }
  assert (2 ^ (dP - 1) = J * 2 ^ 52) as EdP'.
  { subst J. rewrite <- Z.pow_add_r by lia. f_equal. lia. }
  assert (5 * q ≤ 3 * Z.pos p < 5 * q + 5) as Hq.
  { subst q. pose proof (Z.div_mod (Z.pos p * 60) 100 ltac:(lia)) as Hdm.
    pose proof (Z.mod_pos_bound (Z.pos p * 60) 100 ltac:(lia)). lia. }
  destruct (split_arith W A (q * A) J (k * J) (q * 2 ^ (159 - d - dP)))
    as [Hqlo Hqhi].
  - exact HA.
  - pose proof pow2_52. lia.
  - exact HJ.
  - rewrite Hmz. destruct (Z.eq_dec (3 * Z.pos p) (5 * q)); [left|right]; nia.
  - rewrite Hmz. nia.
  - rewrite <- HP, <- EdP, <- EdP'. done.
  - by exists k.
  - rewrite <- Z.mul_assoc, <- HU. rewrite <- !Z.mul_assoc, <- HUJ. done.
  - rewrite <- HP. exact Hnear.
  - rewrite <- (Z.div_mul_cancel_r (Z.pos m_r) (2 ^ (- e_r))
                  (2 ^ (e_r - (d - 53 + -53)))).
    2:{ apply Z.pow_nonzero; lia. }
    2:{ apply Z.pow_nonzero; lia. }
    rewrite <- HU', HR. symmetry.
    apply (Z.div_unique (k * J) U q (k * J - U * q)); [|lia].
    left. rewrite HU. lia.
Qed.

Local Close Scope Z_scope.
(* ===================================================================== *)
(** * Training returns *)
(* ===================================================================== *)

Section TrainTotal.
Context {F : Type} `{Scalar F}.
Variable optimizer : Type.
Variable adam_init : list loc → spec_float → optimizer.
Variable adam_step :
  optimizer → Emb_RNNLM → LongTensor2 → gmap loc (tensor F)
  → optimizer * gmap loc (tensor F).
Hypothesis adam_keeps_shapes : keeps_shapes adam_step.

Lemma train_batch_total (net : Emb_RNNLM) (dataset : LongTensor2)
    (st : optimizer * F) (b : nat * nat) (w : world F) :
  well_formed (heap w) net →
  Forall (Forall (λ ix, ix < vocab_size net)) dataset →
  Forall (λ row, row ≠ []) dataset →
  ∃ st' w', train_batch optimizer adam_step net dataset st b w = (Ok st', w')
            ∧ well_formed (heap w') net.
Proof.
  intros Hwf Hds Hrows. destruct st as [opt ep_loss], b as [start stop].
  unfold train_batch. unfold mbind at 1. unfold read_heap at 1.
  destruct (total_nll_total (heap w) net (slice dataset start stop) Hwf) as [nll Hnll];
    [by apply Forall_slice | by apply Forall_slice |].
  unfold total_nll in Hnll. apply rbind_Ok in Hnll as (out & Hout & Hloss).
  unfold CrossEntropyLoss in Hloss. apply rbind_Ok in Hloss as (terms & Hterms & _).
  unfold mbind at 1. unfold mlift at 1. rewrite Hout.
  unfold mbind at 1. unfold mlift at 1. unfold CrossEntropyLoss. rewrite Hterms.
  cbn [rbind].
  pose proof (adam_keeps_shapes opt net (slice dataset start stop) (heap w) Hwf) as Hk.
  destruct (adam_step opt net (slice dataset start stop) (heap w)) as [opt' h'].
  unfold mbind, write_heap, mret. simpl. by eexists _, _.
Qed.

Lemma train_epoch_total (net : Emb_RNNLM) (dataset : LongTensor2)
    (batches : list (nat * nat)) (st : optimizer * F) (w : world F) :
  well_formed (heap w) net →
  Forall (Forall (λ ix, ix < vocab_size net)) dataset →
  Forall (λ row, row ≠ []) dataset →
  ∃ st' w', mfoldl (train_batch optimizer adam_step net dataset) st batches w
            = (Ok st', w')
            ∧ well_formed (heap w') net.
Proof.
  intros Hwf Hds Hrows. revert st w Hwf.
  induction batches as [|b batches IH]; intros st w Hwf.
  - by exists st, w.
  - destruct (train_batch_total net dataset st b w Hwf Hds Hrows)
      as (st1 & w1 & Hrun & Hwf1).
    destruct (IH st1 w1 Hwf1) as (st' & w' & Hrun' & Hwf').
    exists st', w'. split; [|done]. cbn [mfoldl]. unfold mbind. by rewrite Hrun.
Qed.

Lemma epoch_loop_total (net : Emb_RNNLM) (dataset dev : LongTensor2)
    (epochs_left : list nat) (prev : F) (opt : optimizer)
    (batches : list (nat * nat)) (w : world F) :
  well_formed (heap w) net →
  Forall (Forall (λ ix, ix < vocab_size net)) dataset →
  Forall (λ row, row ≠ []) dataset →
  Forall (Forall (λ ix, ix < vocab_size net)) dev →
  Forall (λ row, row ≠ []) dev →
  dev ≠ [] →
  ∃ w', epoch_loop optimizer adam_step net dataset dev epochs_left prev opt batches w
        = (Ok tt, w')
        ∧ well_formed (heap w') net.
Proof.
  intros Hwf Hds Hrows Hdev Hdrows Hne. revert opt batches w Hwf.
  induction epochs_left as [|epoch epochs_left IH]; intros opt batches w Hwf.
  - by exists w.
  - cbn [epoch_loop]. unfold mbind at 1. unfold shuffle_batches at 1.
    destruct (shuffle batches (rand w)) as [batches' g'].
    set (w1 := World (heap w) (next_loc w) (stdout w) g').
    destruct (train_epoch_total net dataset batches' (opt, s_zero) w1 Hwf Hds Hrows)
      as ([opt' ep_loss] & w2 & Hrun & Hwf2).
    unfold mbind at 1. rewrite Hrun.
    unfold mbind at 1. unfold read_heap at 1.
    destruct (compute_perplexity_total (heap w2) net dev 64 Hwf2 Hdev Hdrows
                ltac:(lia) Hne) as [ppl Hppl].
    unfold mbind at 1. unfold mlift at 1. rewrite Hppl.
    unfold mbind at 1. unfold print at 1.
    set (w3 := World (heap w2) (next_loc w2) _ (rand w2)).
    destruct (s_gtb _ _).
    + unfold print. by eexists.
    + apply IH. done.
Qed.
End TrainTotal.

(* ===================================================================== *)
(** * The default split *)
(* ===================================================================== *)

Section DefaultSplit.
Variable set_order : list string → list string.
Hypothesis set_order_NoDup : ∀ l, NoDup (set_order l).
Hypothesis set_order_elem : ∀ l x, x ∈ set_order l ↔ x ∈ l.

Lemma default_split_bound (n : nat) :
  2 ≤ n → slice_bound n (Z.of_nat n * 60 / 100) = n * 60 / 100
          ∧ 0 < n * 60 / 100 < n.
Proof.
  intros Hn.
  assert (Z.of_nat n * 60 / 100 = Z.of_nat (n * 60 / 100))%Z as ->.
  { rewrite Nat2Z.inj_div. f_equal. lia. }
  assert (n * 60 / 100 < n) as Hlt.
  { apply Nat.Div0.div_lt_upper_bound. lia. }
  assert (0 < n * 60 / 100) as Hpos.
  { apply Nat.div_str_pos. lia. }
  split; [|lia]. unfold slice_bound.
  destruct (Z.ltb_spec (Z.of_nat (n * 60 / 100)) 0); lia.
Qed.

(** With the split of the pipeline, a corpus of two words or more is
    always split: the call returns. *)
Lemma process_data_default_Ok (g : rng) (corpus : list (list string)) :
  2 ≤ length corpus → (Z.of_nat (length corpus) < 2 ^ 50)%Z →
  ∃ p, process_data set_order g corpus true 60 = (Ok p, (shuffle corpus g).2).
Proof.
  intros Hn Hsmall.
  apply (process_data_dev_Ok set_order set_order_NoDup set_order_elem g corpus 60
           (Z.of_nat (length corpus) * 60 / 100)).
  - intros ->. simpl in Hn. lia.
  - by apply split_index_60.
  - destruct (default_split_bound (length corpus) Hn) as [-> Hb]. exact Hb.
Qed.
End DefaultSplit.

(* ===================================================================== *)
(** * The pipeline *)
(* ===================================================================== *)

Section PipelineFacts.
Context {F : Type} `{Scalar F}.
Variable set_order : list string → list string.
Hypothesis set_order_NoDup : ∀ l, NoDup (set_order l).
Hypothesis set_order_elem : ∀ l x, x ∈ set_order l ↔ x ∈ l.
Variable init_value : loc → nat → nat → F.
Variable optimizer : Type.
Variable adam_init : list loc → spec_float → optimizer.
Variable adam_step :
  optimizer → Emb_RNNLM → LongTensor2 → gmap loc (tensor F)
  → optimizer * gmap loc (tensor F).

Lemma train_lm_outcome (dataset dev : LongTensor2) (params : hyper)
    (net : Emb_RNNLM) (w : world F) :
  loop_outcome 0 (epochs params) (s_lit 1 10) w
    (train_lm optimizer adam_init adam_step dataset dev params net w).
Proof.
  unfold train_lm.
  match goal with |- context [mbind ?m ?f ?w0] =>
    destruct (mbind_cases m f w0)
      as [(opt & w0' & Hm0 & ->)|(e & w0' & Hm0 & ->)] end.
  2:{ unfold mlift in Hm0. injection Hm0 as _ <-.
      apply (loop_outcome_raise 0 (epochs params) (s_lit 1 10) w w e eq_refl). }
  unfold mlift in Hm0. injection Hm0 as _ <-.
  match goal with |- context [mbind ?m ?f ?w0] =>
    destruct (mbind_cases m f w0)
      as [(batches & w1 & Hm1 & ->)|(e & w1 & Hm1 & ->)] end.
  - unfold mlift in Hm1. injection Hm1 as _ <-.
    apply (epoch_loop_outcome optimizer adam_step net dataset dev (epochs params) 0).
  - unfold mlift in Hm1. injection Hm1 as _ <-.
    apply (loop_outcome_raise 0 (epochs params) (s_lit 1 10) w w e eq_refl).
Qed.

(** The model of the pipeline: its hyperparameters are fixed but for the
    size of the inventory. *)
Lemma pipeline_constructor (size : nat) (w : world F) :
  let params := {| p_d_emb := 24; p_d_hid := 64; num_layers := 1; batch_size := 64;
                   learning_rate := Float64.decimal 5 3; epochs := 10; tied := true;
                   inv_size := size |} in
  ∃ net w', Emb_RNNLM_init init_value params w = (Ok net, w')
            ∧ stdout w' = stdout w ++ [Msg tied_diagnostic]
            ∧ well_formed (heap w') net
            ∧ vocab_size net = size.
Proof.
  intros params.
  destruct (constructor_returns init_value params w) as (net & w' & Hinit);
    [simpl; lia | simpl; lia | simpl; lia |].
  exists net, w'. split; [done|].
  pose proof (constructor_prints init_value params w w' net Hinit) as Hout.
  destruct (built_model_well_formed init_value params w w' net Hinit) as [Hwf Hv].
  by split_and!.
Qed.

(** X21.  What [run_full_pipeline] prints.  If [process_data] raises, the
    pipeline raises the same exception and has printed nothing and built
    nothing.  Otherwise the first line printed is always "Dimensions
    don't support tied embeddings" (the pipeline asks for tied weights
    with [d_emb = 24] and [d_hid = 64]), followed by the epoch reports
    numbered from 0, at most 10 of them, and the stop message if training
    stopped early; when the pipeline returns, the records it wrote are
    those of the lines of the test file, in order, and 10 epochs were
    reported unless training stopped early. *)
Theorem pipeline_output (train_file test_file : list string) (w : world F) :
  let run := run_full_pipeline set_order init_value optimizer adam_init adam_step
               train_file test_file w in
  match (process_data set_order (rand w) (get_corpus_data train_file) true 60).1 with
  | Raise e => run.1 = Raise e ∧ stdout run.2 = stdout w ∧ heap run.2 = heap w
  | Ok p =>
      ∃ (reports : list (nat * F * F)) (stopped : bool),
        stdout run.2 = stdout w ++ [Msg tied_diagnostic] ++ map report_line reports
                         ++ (if stopped then [Msg "Stop early reached"] else [])
        ∧ map (λ r, r.1.1) reports = seq 0 (length reports)
        ∧ length reports ≤ 10
        ∧ ∀ out, run.1 = Ok out →
            map fst out = map (λ l, remove_spaces (rstrip l)) test_file
            ∧ (stopped = false → length reports = 10)
  end.
Proof.
  intros run. subst run.
  destruct (run_full_pipeline set_order init_value optimizer adam_init adam_step
              train_file test_file w) as [r w'] eqn:Hrun.
  unfold run_full_pipeline in Hrun.
  unfold mbind at 1 in Hrun. unfold process_data_io at 1 in Hrun.
  destruct (process_data set_order (rand w) (get_corpus_data train_file) true 60)
    as [[p|e] g'].
  2:{ injection Hrun as <- <-. done. }
  cbn [fst snd].
  set (w1 := World (heap w) (next_loc w) (stdout w) g') in *.
  destruct (pipeline_constructor (length (inventory p)) w1)
    as (net & w2 & Hinit & Hout2 & _).
  unfold mbind at 1 in Hrun. rewrite Hinit in Hrun.
  set (params := Build_hyper _ _ _ _ _ _ _ _) in *.
  pose proof (train_lm_outcome (training_data p) (dev_data p) params net w2)
    as (reports & stopped & Hout & Hep & Hlen & _ & Hall & _).
  exists reports, stopped.
  unfold mbind at 1 in Hrun.
  destruct (train_lm optimizer adam_init adam_step (training_data p) (dev_data p)
              params net w2) as [[[]|e] w3] eqn:Htrain.
  - unfold mbind, read_heap, mlift in Hrun. injection Hrun as <- <-.
    cbn [fst snd] in *.
    rewrite Hout, Hout2. subst w1. cbn [stdout]. rewrite <- !app_assoc.
    split_and!; try done.
    intros out Hget. split; [|by apply Hall].
    apply get_probs_records in Hget. clear -Hget.
    induction Hget as [|line rec file out (row & _ & Hs & _) _ IH]; [done|].
    simpl. by rewrite Hs, IH.
  - injection Hrun as <- <-. cbn [fst snd] in *. rewrite Hout, Hout2. subst w1.
    cbn [stdout]. rewrite <- !app_assoc. split_and!; try done.
Qed.

Hypothesis adam_keeps_shapes : keeps_shapes adam_step.

(** X22.  The pipeline returns.  With an optimizer that keeps the shapes
    of the parameters, [run_full_pipeline] returns without an exception,
    with one record per line of the test file, whenever the training
    file has at least two lines (and fewer than [2^50]) and every phone
    of the test file occurs in the training file. *)
Theorem pipeline_returns (train_file test_file : list string) (w : world F) :
  2 ≤ length train_file →
  (Z.of_nat (length train_file) < 2 ^ 50)%Z →
  (∀ line phone, line ∈ test_file → phone ∈ split_spaces (rstrip line) →
     ∃ line', line' ∈ train_file ∧ phone ∈ split_spaces (rstrip line')) →
  ∃ out w',
    run_full_pipeline set_order init_value optimizer adam_init adam_step
      train_file test_file w = (Ok out, w')
    ∧ length out = length test_file.
Proof.
  intros Hn Hsmall Hphones. unfold run_full_pipeline.
  unfold mbind at 1. unfold process_data_io at 1.
  destruct (process_data_default_Ok set_order set_order_NoDup set_order_elem (rand w)
              (get_corpus_data train_file)) as [p Hp].
  { unfold get_corpus_data. by rewrite length_map. }
  { unfold get_corpus_data. by rewrite length_map. }
  rewrite Hp.
  set (w1 := World (heap w) (next_loc w) (stdout w) _).
  destruct (pipeline_constructor (length (inventory p)) w1)
    as (net & w2 & Hinit & _ & Hwf & Hv).
  unfold mbind at 1. rewrite Hinit.
  set (params := Build_hyper _ _ _ _ _ _ _ _) in *.
  pose proof Hp as Hne.
  apply (process_data_inv set_order set_order_NoDup set_order_elem) in Hne
    as (_ & _ & _ & _ & _ & _ & _ & _ & Hdv & _).
  pose proof Hp as Hrows.
  apply (process_data_rows set_order set_order_NoDup set_order_elem) in Hrows
    as (m & as_ixs & _ & _ & _ & _ & _ & _ & Hbound & Htrain & Hdev & _).
  rewrite <- Hv in Hbound.
  assert (∀ rows, rows ⊆ as_ixs → Forall (Forall (λ ix, ix < vocab_size net)) rows)
    as Hsub.
  { intros rows Hrows. rewrite Forall_forall in Hbound. apply Forall_forall.
    intros row Hrow. apply Hbound. by apply Hrows. }
  assert (Forall (λ row, row ≠ []) (training_data p)
          ∧ Forall (λ row, row ≠ []) (dev_data p)) as [Hrt Hrd].
  { apply Forall_app.
    apply (process_data_rows_nonempty set_order set_order_NoDup set_order_elem
             _ _ _ _ _ _ Hp).
    destruct train_file as [|line file]; [simpl in Hn; lia|].
    exists (["<s>"] ++ split_spaces (rstrip line) ++ ["<e>"]). split; [left | done]. }
  assert (∃ w3, train_lm optimizer adam_init adam_step (training_data p) (dev_data p)
                  params net w2 = (Ok tt, w3)
                ∧ well_formed (heap w3) net) as (w3 & Htrain_run & Hwf3).
  { unfold train_lm, Adam.
    replace (Float64.nonneg (learning_rate params)) with true
      by (vm_compute; reflexivity).
    unfold mbind at 1. unfold mlift at 1.
    rewrite make_batches_Ok by (simpl; lia).
    unfold mbind at 1. unfold mlift at 1.
    apply (epoch_loop_total optimizer adam_step adam_keeps_shapes); auto. }
  unfold mbind at 1. rewrite Htrain_run.
  unfold mbind, read_heap, mlift.
  destruct (corpus_vocabulary set_order set_order_NoDup set_order_elem _ _ _ _ _ _ Hp)
    as (_ & _ & Hknown & _ & Hs & He & Hcorpus).
  destruct (get_probs_total (heap w3) test_file net (phone2ix p) Hwf3)
    as (out & Hout & Hlen).
  { intros line Hline. rewrite Hv. apply Hknown. intros s Hsin.
    apply elem_of_app in Hsin as [Hsin|Hsin]; [set_solver|].
    apply elem_of_app in Hsin as [Hsin|Hsin]; [|set_solver].
    destruct (Hphones line s Hline Hsin) as (line' & Hline' & Hs').
    by eapply Hcorpus. }
  exists out, w3. by rewrite Hout.
Qed.
End PipelineFacts.

Section ScorerWords.
Context {F : Type} `{Scalar F}.

(** X7.  [get_probs] reads its file as [get_corpus_data] does: it returns
    [out] exactly when, word by word of [get_corpus_data(input_file)],
    the word encodes under [phone2ix], the string of the record is the
    concatenation of the word's phones (without the boundary markers),
    and the value of the record is [compute_perplexity] of the encoded
    word as a batch of one row. *)
Theorem get_probs_line_by_line (h : gmap loc (tensor F)) (input_file : list string)
    (model : Emb_RNNLM) (d : gmap string nat) (out : list (string * F)) :
  get_probs h input_file model d = Ok out ↔
  Forall2 (λ word rec,
             ∃ phones row,
               word = "<s>" :: phones ++ ["<e>"]
               ∧ encode d word = Ok row
               ∧ rec.1 = String.concat "" phones
               ∧ compute_perplexity h [row] model 64 = Ok rec.2)
    (get_corpus_data input_file) out.
Proof.
  rewrite get_probs_records. unfold get_corpus_data. rewrite Forall2_fmap_l.
  split; intros HF; (eapply Forall2_impl; [exact HF|]); intros line rec; simpl.
  - intros (row & Henc & Hs & Hv).
    exists (split_spaces (rstrip line)), row. split_and!; try done.
    by rewrite split_spaces_concat.
  - intros (phones & row & Hword & Henc & Hs & Hv).
    injection Hword as Hword. apply app_inj_tail in Hword as [<- _].
    exists row. split_and!; try done. by rewrite <- split_spaces_concat.
Qed.
End ScorerWords.

(** X19.  The split point of the pipeline is exact: for every number of
    sequences [n] below [2^50], [int(n * (60/100))] evaluated in binary64
    is [floor(60 n / 100)], and for [n >= 2] it is strictly between 0
    and [n]. *)
Theorem default_split_exact (n : nat) :
  (Z.of_nat n < 2 ^ 50)%Z →
  split_index n 60 = Ok (Z.of_nat n * 60 / 100)%Z
  ∧ (2 ≤ n → (0 < Z.of_nat n * 60 / 100 < Z.of_nat n)%Z).
Proof.
  intros Hn. split; [by apply split_index_60|].
  intros H2. split.
  - apply Z.div_str_pos. lia.
  - apply Z.div_lt_upper_bound; lia.
Qed.

Section DefaultSizes.
Variable set_order : list string → list string.
Hypothesis set_order_NoDup : ∀ l, NoDup (set_order l).
Hypothesis set_order_elem : ∀ l x, x ∈ set_order l ↔ x ∈ l.

(** X20.  With [dev=True] and the default [training_split = 60],
    [process_data] returns on every corpus of at least two sequences,
    with [floor(0.6 n)] training rows and the other [n - floor(0.6 n)]
    rows as dev data; on a corpus of one sequence it raises
    [RuntimeError] (the training part is empty). *)
Theorem default_split_sizes (g : rng) (corpus : list (list string)) :
  (Z.of_nat (length corpus) < 2 ^ 50)%Z →
  let n := length corpus in
  (2 ≤ n →
   ∃ p, process_data set_order g corpus true 60 = (Ok p, (shuffle corpus g).2)
        ∧ length (training_data p) = n * 60 / 100
        ∧ length (dev_data p) = n - n * 60 / 100)
  ∧ (n = 1 →
     process_data set_order g corpus true 60
     = (Raise RuntimeError, (shuffle corpus g).2)).
Proof.
  intros Hsmall n. split.
  - intros Hn.
    destruct (process_data_default_Ok set_order set_order_NoDup set_order_elem
                g corpus Hn Hsmall) as [p Hp].
    exists p. split; [done|].
    apply (process_data_inv set_order set_order_NoDup set_order_elem) in Hp
      as (m & as_ixs & _ & _ & _ & _ & Hrows & _ & _ & split & Hsplit & -> & ->).
    simpl in Hrows.
    assert (length as_ixs = n) as Hlen.
    { rewrite <- (Forall2_length _ _ _ Hrows). apply Permutation_length, shuffle_perm. }
    rewrite Hlen in Hsplit. rewrite split_index_60 in Hsplit by done.
    injection Hsplit as <-. unfold slice_to, slice_from.
    rewrite length_take, length_drop, Hlen.
    destruct (default_split_bound n Hn) as [-> Hb]. lia.
  - intros Hn. subst n. destruct corpus as [|word [|? ?]]; [done| |done].
    unfold process_data, shuffle.
    cbn [length Nat.sub shuffle_loop map py_max foldl rbind]. cbv zeta.
    destruct (encode_padded set_order set_order_NoDup set_order_elem [word] (length word))
      as (as_ixs & Henc & Hrows).
    cbv zeta in Henc. rewrite Henc. cbn [rbind negb].
    apply Forall2_length in Hrows. destruct as_ixs as [|row [|? ?]]; [done| |done].
    cbn [length]. rewrite (split_index_60 1) by (vm_compute; reflexivity).
    done.
Qed.
End DefaultSizes.

Section TrainReturns.
Context {F : Type} `{Scalar F}.
Variable optimizer : Type.
Variable adam_init : list loc → spec_float → optimizer.
Variable adam_step :
  optimizer → Emb_RNNLM → LongTensor2 → gmap loc (tensor F)
  → optimizer * gmap loc (tensor F).

(** X18.  Training returns.  With an optimizer that keeps the shapes of
    the parameters, [train_lm] returns without an exception, and leaves
    a well-formed model, whenever the model is well formed, the learning
    rate is one the optimizer accepts ([0.0 <= lr]), the rows of the
    training and dev data are not empty and hold indices below
    [vocab_size], the dev set has a row and the batch size is positive
    (whatever the number of epochs and the arithmetic of the scalars). *)
Theorem train_lm_returns (dataset dev : LongTensor2) (params : hyper)
    (net : Emb_RNNLM) (w : world F) :
  keeps_shapes adam_step →
  well_formed (heap w) net →
  Float64.nonneg (learning_rate params) = true →
  Forall (Forall (λ ix, ix < vocab_size net)) dataset →
  Forall (λ row, row ≠ []) dataset →
  Forall (Forall (λ ix, ix < vocab_size net)) dev →
  Forall (λ row, row ≠ []) dev →
  dev ≠ [] → 0 < batch_size params →
  ∃ w', train_lm optimizer adam_init adam_step dataset dev params net w = (Ok tt, w')
        ∧ well_formed (heap w') net.
Proof.
  intros Hk Hwf Hlr Hds Hrows Hdev Hdrows Hne Hb. unfold train_lm, Adam.
  rewrite Hlr. unfold mbind at 1. unfold mlift at 1.
  rewrite make_batches_Ok by done. unfold mbind at 1. unfold mlift at 1.
  by apply (epoch_loop_total optimizer adam_step Hk).
Qed.
End TrainReturns.
(* ===================================================================== *)
(** * The perplexity of a dataset against that of its parts *)
(* ===================================================================== *)

Section PerplexityMean.
Local Open Scope R_scope.

Lemma exp_le_mono (x y : R) : x <= y → exp x <= exp y.
Proof.
  intros [Hlt| ->]; [left; by apply exp_increasing | right; reflexivity].
Qed.

Lemma mediant_between (n1 n2 c1 c2 : R) :
  0 < c1 → 0 < c2 → n1 / c1 <= n2 / c2 →
  n1 / c1 <= (n1 + n2) / (c1 + c2) <= n2 / c2.
Proof.
  intros H1 H2 Hle.
  assert (n1 * c2 <= n2 * c1) as Hcross.
  { apply (Rmult_le_compat_r (c1 * c2)) in Hle; [|nra].
    unfold Rdiv in Hle.
    replace (n1 * / c1 * (c1 * c2)) with (n1 * c2) in Hle by (field; lra).
    replace (n2 * / c2 * (c1 * c2)) with (n2 * c1) in Hle by (field; lra).
    done. }
  split.
  - apply (Rmult_le_reg_r (c1 * (c1 + c2))); [nra|].
    unfold Rdiv.
    replace (n1 * / c1 * (c1 * (c1 + c2))) with (n1 * (c1 + c2)) by (field; lra).
    replace ((n1 + n2) * / (c1 + c2) * (c1 * (c1 + c2))) with ((n1 + n2) * c1)
      by (field; lra).
    nra.
  - apply (Rmult_le_reg_r (c2 * (c1 + c2))); [nra|].
    unfold Rdiv.
    replace (n2 * / c2 * (c2 * (c1 + c2))) with (n2 * (c1 + c2)) by (field; lra).
    replace ((n1 + n2) * / (c1 + c2) * (c2 * (c1 + c2))) with ((n1 + n2) * c2)
      by (field; lra).
    nra.
Qed.

(** X13.  In exact arithmetic the perplexity of two datasets put together
    is the token-weighted geometric mean of their perplexities:
    [count * ln v = count1 * ln v1 + count2 * ln v2] for the counts of
    non-zero entries; so it lies between the two. *)
Theorem perplexity_weighted_mean (h : gmap loc (tensor R)) (net : Emb_RNNLM)
    (b1 b2 : LongTensor2) (bsz : nat) (v1 v2 : R) :
  compute_perplexity h b1 net bsz = Ok v1 →
  compute_perplexity h b2 net bsz = Ok v2 →
  (0 < count_nonzero b1)%nat → (0 < count_nonzero b2)%nat →
  ∃ v, compute_perplexity h (b1 ++ b2) net bsz = Ok v
       ∧ INR (count_nonzero (b1 ++ b2)) * ln v
         = INR (count_nonzero b1) * ln v1 + INR (count_nonzero b2) * ln v2
       ∧ Rmin v1 v2 <= v <= Rmax v1 v2.
Proof.
  intros Hv1 Hv2 Hc1 Hc2.
  destruct (compute_perplexity_Ok_inputs _ _ _ _ _ Hv1) as [Hb Hne1].
  destruct (compute_perplexity_Ok_inputs _ _ _ _ _ Hv2) as [_ Hne2].
  apply compute_perplexity_Ok in Hv1 as (n1 & Hn1 & ->); [|done..].
  apply compute_perplexity_Ok in Hv2 as (n2 & Hn2 & ->); [|done..].
  set (c1 := INR (count_nonzero b1)). set (c2 := INR (count_nonzero b2)).
  assert (0 < c1) as Hc1' by (subst c1; by apply lt_0_INR).
  assert (0 < c2) as Hc2' by (subst c2; by apply lt_0_INR).
  assert (INR (count_nonzero (b1 ++ b2)) = c1 + c2) as Hc.
  { rewrite count_nonzero_app, plus_INR. done. }
  exists (exp ((n1 + n2) / (c1 + c2))). split; [|split].
  - apply compute_perplexity_Ok; [done | by destruct b1 |].
    exists (n1 + n2). split; [|by rewrite Hc].
    apply total_nll_app. by exists n1, n2.
  - rewrite Hc, !ln_exp. field. lra.
  - unfold Rmin, Rmax.
    destruct (Rle_dec (exp (n1 / c1)) (exp (n2 / c2))) as [Hle|Hgt].
    + assert (n1 / c1 <= n2 / c2) as Hx.
      { destruct (Rle_dec (n1 / c1) (n2 / c2)) as [|Hn]; [done|].
        apply Rnot_le_lt, exp_increasing in Hn. lra. }
      destruct (mediant_between n1 n2 c1 c2 Hc1' Hc2' Hx). split; by apply exp_le_mono.
    + assert (n2 / c2 <= n1 / c1) as Hx.
      { destruct (Rle_dec (n2 / c2) (n1 / c1)) as [|Hn]; [done|].
        apply Rnot_le_lt, exp_increasing in Hn. lra. }
      destruct (mediant_between n2 n1 c2 c1 Hc2' Hc1' Hx) as [Hlo Hhi].
      replace ((n2 + n1) / (c2 + c1)) with ((n1 + n2) / (c1 + c2)) in Hlo, Hhi
        by (f_equal; lra).
      split; by apply exp_le_mono.
Qed.
End PerplexityMean.

(* ===================================================================== *)
(** * Concrete runs of the pipeline *)
(* ===================================================================== *)

Lemma small_world_well_formed : well_formed (heap small_world) small_net.
Proof.
  apply (built_model_well_formed small_init small_params empty_world small_world
           small_net).
  reflexivity.
Qed.

Lemma model_embeds_corpus_witness :
  ∃ p, process_data remove_dups [] (get_corpus_data small_file) true 60 = (Ok p, [])
       ∧ (∃ sequence, sequence ∈ get_corpus_data small_file ∧ sequence ≠ [])
       ∧ inv_size small_params = length (inventory p)
       ∧ Forall (Forall (λ ix, ix < length (inventory p)))
           (training_data p ++ dev_data p)
       ∧ Forall (λ row, row ≠ []) (training_data p ++ dev_data p)
       ∧ (∀ batch, batch ≠ [] → batch ⊆ training_data p ++ dev_data p →
            ∃ out, forward (heap small_world) small_net batch = Ok out
                   ∧ Forall2 (λ row scores,
                                length scores = length row
                                ∧ Forall (λ s : list R, length s = length (inventory p))
                                    scores)
                       batch out)
       ∧ (∀ bsz, 0 < bsz →
            (∃ v, compute_perplexity (heap small_world) (training_data p) small_net bsz
                  = Ok v)
            ∧ (∃ v, compute_perplexity (heap small_world) (dev_data p) small_net bsz
                    = Ok v)).
Proof.
  assert (∃ sequence, sequence ∈ get_corpus_data small_file ∧ sequence ≠ []) as Hword.
  { exists ["<s>"; "a"; "<e>"]. split; [left | discriminate]. }
  eexists. split; [vm_compute; reflexivity|]. split; [exact Hword|].
  split; [reflexivity|].
  apply (model_embeds_corpus remove_dups remove_dups_NoDup remove_dups_elem small_init
           [] [] (get_corpus_data small_file) true 60 _ small_params empty_world
           small_world small_net);
    [vm_compute; reflexivity | exact Hword | reflexivity | reflexivity].
Defined.

Lemma get_probs_returns_iff_witness :
  ∃ p, process_data remove_dups [] (get_corpus_data small_file) true 60 = (Ok p, [])
       ∧ ((∃ out, get_probs (heap small_world) ["a"] small_net (phone2ix p) = Ok out)
          ↔ ∀ line phone, line ∈ ["a"] → phone ∈ split_spaces (rstrip line) →
                          phone ∈ inventory p)
       ∧ ∃ out, get_probs (heap small_world) small_file small_net (phone2ix p) = Ok out
                ∧ length out = length small_file.
Proof.
  eexists. split; [vm_compute; reflexivity|].
  apply (get_probs_returns_iff remove_dups remove_dups_NoDup remove_dups_elem
           [] [] small_file ["a"] true 60 _ (heap small_world) small_net);
    [vm_compute; reflexivity | exact small_world_well_formed | reflexivity].
Defined.

Lemma rows_decode_to_words_witness :
  ∃ p, process_data remove_dups [3; 1; 4] corpus3 true 60 = (Ok p, [4])
       ∧ ∃ m,
           Forall2 (λ sequence row,
                      Forall2 (λ ix s, ix2phone p !! ix = Some s) row
                        (sequence ++ replicate (m - length sequence) pad_symbol))
             (shuffle corpus3 [3; 1; 4]).1 (training_data p ++ dev_data p)
           ∧ (shuffle corpus3 [3; 1; 4]).1 ≡ₚ corpus3
           ∧ (∀ row sequence sequence',
                encode (phone2ix p) sequence = Ok row →
                encode (phone2ix p) sequence' = Ok row →
                sequence = sequence').
Proof.
  eexists.
  assert (process_data remove_dups [3; 1; 4] corpus3 true 60 = (Ok _, [4])) as Hp
    by (vm_compute; reflexivity).
  split; [exact Hp|].
  exact (rows_decode_to_words remove_dups remove_dups_NoDup remove_dups_elem
           [3; 1; 4] [4] corpus3 true 60 _ Hp).
Defined.

Lemma corpus_rows_start_symbol_witness :
  ∃ p, process_data remove_dups [] (get_corpus_data small_file) true 60 = (Ok p, [])
       ∧ ∃ start,
           phone2ix p !! "<s>" = Some start
           ∧ start ≠ 0
           ∧ ∀ dataset, dataset ⊆ training_data p ++ dev_data p →
               Forall (λ row, head row = Some start) dataset
               ∧ count_nonzero dataset = count_targets dataset + length dataset.
Proof.
  eexists.
  assert (process_data remove_dups [] (get_corpus_data small_file) true 60
          = (Ok _, [])) as Hp by (vm_compute; reflexivity).
  split; [exact Hp|].
  exact (corpus_rows_start_symbol remove_dups remove_dups_NoDup remove_dups_elem
           [] [] small_file true 60 _ Hp).
Defined.

Lemma perplexity_ignores_trailing_padding_witness :
  ∃ emb_w v,
    get_mat small_heap (emb_weight (embeddings small_net)) = Ok emb_w
    ∧ emb_w ≠ []
    ∧ compute_perplexity small_heap [[1; 2; 3]] small_net 64 = Ok v
    ∧ compute_perplexity small_heap (pad_rows 2 [[1; 2; 3]]) small_net 64 = Ok v.
Proof.
  destruct small_world_well_formed as ((emb_w & Hemb & Hlen) & _).
  destruct (compute_perplexity_total small_heap small_net [[1; 2; 3]] 64
              small_world_well_formed) as [v Hv];
    [repeat constructor | by repeat constructor | lia | discriminate |].
  assert (emb_w ≠ []) as Hne by (intros ->; discriminate Hlen).
  exists emb_w, v. split; [exact Hemb|]. split; [exact Hne|]. split; [exact Hv|].
  exact (perplexity_ignores_trailing_padding small_heap small_net [[1; 2; 3]] 64 2
           emb_w v Hemb Hne Hv).
Defined.

Lemma model_constructor_effects_witness :
  Emb_RNNLM_init small_init small_params empty_world = (Ok small_net, small_world)
  ∧ next_loc small_world = 7
  ∧ stdout small_world = []
  ∧ lin_weight (R2o small_net) = emb_weight (embeddings small_net)
  ∧ parameters small_net = [0; 1; 2; 3; 4; 6].
Proof.
  assert (Emb_RNNLM_init small_init small_params empty_world
          = (Ok small_net, small_world)) as Hinit by reflexivity.
  destruct (model_constructor_effects small_init small_params empty_world small_world
              small_net Hinit) as (Hnext & _ & _ & Hout & Hshare & _ & Hps & _).
  split; [exact Hinit|]. split; [exact Hnext|]. split; [exact Hout|].
  split; [apply Hshare; reflexivity | exact Hps].
Defined.

Lemma batches_cover_dataset_witness :
  0 < 2
  ∧ ∃ batches,
      make_batches (length [[1]; [2]; [3]; [4]; [5]]) 2 = Ok batches
      ∧ concat (map (λ b : nat * nat, slice [[1]; [2]; [3]; [4]; [5]] b.1 b.2) batches)
        = [[1]; [2]; [3]; [4]; [5]]
      ∧ Forall (λ b : nat * nat,
                  0 < length (slice [[1]; [2]; [3]; [4]; [5]] b.1 b.2) ≤ 2) batches
      ∧ length batches * 2 < length [[1]; [2]; [3]; [4]; [5]] + 2
      ∧ concat (map (λ b : nat * nat, slice [[1]; [2]; [3]; [4]; [5]] b.1 b.2)
                  (shuffle batches [1; 0]).1)
        ≡ₚ [[1]; [2]; [3]; [4]; [5]].
Proof.
  split; [lia|].
  apply (batches_cover_dataset [[1]; [2]; [3]; [4]; [5]] 2 [1; 0]). lia.
Defined.

Lemma forward_returns_iff_witness :
  well_formed small_heap small_net
  ∧ [[1; 2; 3]; [4; 0; 0]] ≠ []
  ∧ ((∃ out, forward small_heap small_net [[1; 2; 3]; [4; 0; 0]] = Ok out)
     ↔ Forall (Forall (λ ix, ix < vocab_size small_net)) [[1; 2; 3]; [4; 0; 0]]
       ∧ Forall (λ row, row ≠ []) [[1; 2; 3]; [4; 0; 0]])
  ∧ (∀ e, forward small_heap small_net [[1; 2; 3]; [4; 0; 0]] = Raise e →
       (e = IndexError
        ∧ ¬ Forall (Forall (λ ix, ix < vocab_size small_net)) [[1; 2; 3]; [4; 0; 0]])
       ∨ (e = RuntimeError
          ∧ Forall (Forall (λ ix, ix < vocab_size small_net)) [[1; 2; 3]; [4; 0; 0]]
          ∧ ¬ Forall (λ row, row ≠ []) [[1; 2; 3]; [4; 0; 0]]))
  ∧ (∀ out, forward small_heap small_net [[1; 2; 3]; [4; 0; 0]] = Ok out →
       Forall2 (λ row scores,
                  length scores = length row
                  ∧ Forall (λ s : list R, length s = vocab_size small_net) scores)
         [[1; 2; 3]; [4; 0; 0]] out).
Proof.
  split; [exact small_world_well_formed|]. split; [discriminate|].
  apply (forward_returns_iff small_heap small_net [[1; 2; 3]; [4; 0; 0]]);
    [exact small_world_well_formed | discriminate].
Defined.

Lemma default_split_exact_witness :
  (Z.of_nat (Z.to_nat 93821) < 2 ^ 50)%Z
  ∧ split_index (Z.to_nat 93821) 60 = Ok 56292%Z.
Proof.
  assert (Z.of_nat (Z.to_nat 93821) = 93821%Z) as Hn by (apply Z2Nat.id; lia).
  assert (Z.of_nat (Z.to_nat 93821) < 2 ^ 50)%Z as Hsmall by (rewrite Hn; reflexivity).
  split; [exact Hsmall|].
  destruct (default_split_exact (Z.to_nat 93821) Hsmall) as [Hsplit _].
  rewrite Hsplit, Hn. reflexivity.
Defined.

Lemma default_split_sizes_witness :
  (Z.of_nat (length corpus3) < 2 ^ 50)%Z
  ∧ ∃ p, process_data remove_dups [3; 1; 4] corpus3 true 60
         = (Ok p, (shuffle corpus3 [3; 1; 4]).2)
         ∧ length (training_data p) = 1
         ∧ length (dev_data p) = 2.
Proof.
  assert (Z.of_nat (length corpus3) < 2 ^ 50)%Z as Hsmall by reflexivity.
  split; [exact Hsmall|].
  destruct (default_split_sizes remove_dups remove_dups_NoDup remove_dups_elem
              [3; 1; 4] corpus3 Hsmall) as [Hsplit _].
  apply Hsplit. simpl. lia.
Defined.

Lemma idle_step_keeps_shapes : keeps_shapes idle_step.
Proof. intros opt net batch h Hwf. exact Hwf. Qed.

Lemma train_lm_returns_witness :
  keeps_shapes idle_step
  ∧ well_formed (heap small_world) small_net
  ∧ Float64.nonneg (learning_rate small_params) = true
  ∧ ∃ w', train_lm unit idle_init idle_step [[1; 2; 3; 0]; [1; 3; 0; 0]]
            [[1; 2; 0; 0]] small_params small_net small_world = (Ok tt, w')
          ∧ well_formed (heap w') small_net.
Proof.
  assert (Float64.nonneg (learning_rate small_params) = true) as Hlr
    by (vm_compute; reflexivity).
  split; [exact idle_step_keeps_shapes|]. split; [exact small_world_well_formed|].
  split; [exact Hlr|].
  apply (train_lm_returns unit idle_init idle_step [[1; 2; 3; 0]; [1; 3; 0; 0]]
           [[1; 2; 0; 0]] small_params small_net small_world idle_step_keeps_shapes
           small_world_well_formed Hlr).
  - repeat constructor.
  - by repeat constructor.
  - repeat constructor.
  - by repeat constructor.
  - discriminate.
  - simpl. lia.
Defined.

Lemma pipeline_returns_witness :
  2 ≤ length small_file
  ∧ ∃ out w',
      run_full_pipeline remove_dups small_init unit idle_init idle_step
        small_file ["a"] empty_world = (Ok out, w')
      ∧ length out = length ["a"].
Proof.
  assert (2 ≤ length small_file) as Hn by (simpl; lia).
  split; [exact Hn|].
  apply (pipeline_returns remove_dups remove_dups_NoDup remove_dups_elem small_init
           unit idle_init idle_step idle_step_keeps_shapes small_file ["a"]
           empty_world Hn).
  - reflexivity.
  - intros line phone Hline Hphone. exists (String.append "a" newline).
    split; [left|]. apply list_elem_of_singleton in Hline as ->. exact Hphone.
Defined.

Local Open Scope R_scope.

Lemma perplexity_weighted_mean_witness :
  ∃ v1 v2,
    compute_perplexity small_heap [[1; 2; 3]]%nat small_net 64 = Ok v1
    ∧ compute_perplexity small_heap [[1; 3; 0]]%nat small_net 64 = Ok v2
    ∧ ∃ v, compute_perplexity small_heap ([[1; 2; 3]] ++ [[1; 3; 0]])%nat small_net 64
           = Ok v
           ∧ INR (count_nonzero ([[1; 2; 3]] ++ [[1; 3; 0]])%nat) * ln v
             = INR (count_nonzero [[1; 2; 3]]%nat) * ln v1
               + INR (count_nonzero [[1; 3; 0]]%nat) * ln v2
           ∧ Rmin v1 v2 <= v <= Rmax v1 v2.
Proof.
  destruct (compute_perplexity_total small_heap small_net [[1; 2; 3]]%nat 64
              small_world_well_formed) as [v1 Hv1];
    [repeat constructor | by repeat constructor | lia | discriminate |].
  destruct (compute_perplexity_total small_heap small_net [[1; 3; 0]]%nat 64
              small_world_well_formed) as [v2 Hv2];
    [repeat constructor | by repeat constructor | lia | discriminate |].
  exists v1, v2. split; [exact Hv1|]. split; [exact Hv2|].
  apply (perplexity_weighted_mean small_heap small_net [[1; 2; 3]]%nat [[1; 3; 0]]%nat
           64 v1 v2 Hv1 Hv2); unfold count_nonzero; simpl; lia.
Defined.

Local Close Scope R_scope.
(* ===================================================================== *)
(** * How [process_data] can fail *)
(* ===================================================================== *)

Lemma torch_stack_Raise (tensors : list (list nat)) (e : exn) :
  torch_stack tensors = Raise e → e = RuntimeError.
Proof.
  destruct tensors as [|t ts]; [by intros [= <-]|]. unfold torch_stack.
  destruct (forallb _ _); [done|]. by intros [= <-].
Qed.

Lemma to_int_Raise (f : spec_float) (e : exn) :
  Float64.to_int f = Raise e → e = OverflowError ∨ e = ValueError.
Proof. destruct f; simpl; intros [= <-]; auto. Qed.

Lemma split_index_Raise (n : nat) (training_split : Z) (e : exn) :
  split_index n training_split = Raise e → e = OverflowError ∨ e = ValueError.
Proof.
  unfold split_index, Float64.int_div, Float64.int_to_float.
  change (100 =? 0)%Z with false. cbv iota.
  assert (∀ fraction,
            (len ←ᵣ match Float64.of_int (Z.of_nat n) with
                    | S754_infinity _ => Raise OverflowError
                    | x => Ok x
                    end;
             Float64.to_int (Float64.mul len fraction)) = Raise e →
            e = OverflowError ∨ e = ValueError) as Hrest.
  { intros fraction. destruct (Float64.of_int (Z.of_nat n)); cbn [rbind];
      first [by apply to_int_Raise | intros [= <-]; by left]. }
  destruct (training_split =? 0)%Z; cbn [rbind]; [by apply Hrest|].
  destruct (SFdiv _ _ _ _); cbn [rbind];
    first [by apply Hrest | intros [= <-]; by left].
Qed.

Lemma slice_bound_le (len : nat) (k : Z) : slice_bound len k ≤ len.
Proof. unfold slice_bound. destruct (Z.ltb_spec k 0); lia. Qed.

Section ProcessDataFailures.
Variable set_order : list string → list string.
Hypothesis set_order_NoDup : ∀ l, NoDup (set_order l).
Hypothesis set_order_elem : ∀ l x, x ∈ set_order l ↔ x ∈ l.

(** X4.  The ways [process_data] fails.  On an empty corpus it raises
    [ValueError] (at [max] of no lengths), whatever the other arguments.
    On a corpus with a word in it, it fails only when asked for a dev
    split: either [int(...)] of the split point raises, or the split
    point leaves one of the two parts without a row and [torch.stack]
    raises [RuntimeError].  In particular it never raises [KeyError]:
    the dictionary it builds has every symbol it looks up. *)
Theorem process_data_failures (g : rng) (corpus : list (list string)) (dev : bool)
    (training_split : Z) (e : exn) :
  (process_data set_order g corpus dev training_split).1 = Raise e →
  (corpus = [] ∧ e = ValueError)
  ∨ (corpus ≠ [] ∧ dev = true
     ∧ ((split_index (length corpus) training_split = Raise e
         ∧ (e = OverflowError ∨ e = ValueError))
        ∨ ∃ split, split_index (length corpus) training_split = Ok split
                   ∧ e = RuntimeError
                   ∧ (slice_bound (length corpus) split = 0
                      ∨ slice_bound (length corpus) split = length corpus))).
Proof.
  intros Hraise. destruct corpus as [|word corpus'] eqn:Hc.
  { left. split; [done|]. simpl in Hraise. by injection Hraise as <-. }
  right. rewrite <- Hc in *. assert (corpus ≠ []) as Hne by (by rewrite Hc).
  clear Hc. split; [done|]. destruct dev.
  2:{ destruct (process_data_no_dev_Ok set_order set_order_NoDup set_order_elem
                  g corpus training_split Hne) as [p Hp].
      by rewrite Hp in Hraise. }
  split; [done|].
  destruct (split_index (length corpus) training_split) as [split|e1] eqn:Hsplit.
  - right. exists split. split; [done|].
    destruct (decide (0 < slice_bound (length corpus) split < length corpus))
      as [Hb|Hb].
    { destruct (process_data_dev_Ok set_order set_order_NoDup set_order_elem
                  g corpus training_split split Hne Hsplit Hb) as [p Hp].
      by rewrite Hp in Hraise. }
    split; [|pose proof (slice_bound_le (length corpus) split); lia].
    unfold process_data in Hraise.
    pose proof (shuffle_perm corpus g) as Hperm.
    destruct (shuffle corpus g) as [shuffled g1]. simpl in Hperm, Hraise.
    destruct (py_max_nonempty (map length shuffled)) as [m Hm].
    { destruct shuffled; [|done]. by apply Permutation_nil_l in Hperm. }
    rewrite Hm in Hraise. simpl in Hraise.
    destruct (encode_padded set_order set_order_NoDup set_order_elem shuffled m)
      as (as_ixs & Henc & Hrows).
    simpl in Henc. rewrite Henc in Hraise. simpl in Hraise.
    assert (length as_ixs = length corpus) as Hn.
    { rewrite <- (Forall2_length _ _ _ Hrows). by apply Permutation_length. }
    rewrite Hn, Hsplit in Hraise. simpl in Hraise.
    destruct (torch_stack (slice_to as_ixs split)) as [tr|e2] eqn:Htr;
      simpl in Hraise.
    + destruct (torch_stack (slice_from as_ixs split)) as [dv|e3] eqn:Hdv;
        simpl in Hraise; [done|].
      injection Hraise as <-. by eapply torch_stack_Raise.
    + injection Hraise as <-. by eapply torch_stack_Raise.
  - left. assert (e = e1) as ->.
    { unfold process_data in Hraise.
      pose proof (shuffle_perm corpus g) as Hperm.
      destruct (shuffle corpus g) as [shuffled g1]. simpl in Hperm, Hraise.
      destruct (py_max_nonempty (map length shuffled)) as [m Hm].
      { destruct shuffled; [|done]. by apply Permutation_nil_l in Hperm. }
      rewrite Hm in Hraise. simpl in Hraise.
      destruct (encode_padded set_order set_order_NoDup set_order_elem shuffled m)
        as (as_ixs & Henc & Hrows).
      simpl in Henc. rewrite Henc in Hraise. simpl in Hraise.
      assert (length as_ixs = length corpus) as Hn.
      { rewrite <- (Forall2_length _ _ _ Hrows). by apply Permutation_length. }
      rewrite Hn, Hsplit in Hraise. simpl in Hraise. by injection Hraise. }
    split; [done|]. by eapply split_index_Raise.
Qed.
End ProcessDataFailures.

Lemma process_data_failures_witness :
  (process_data remove_dups [] corpus3 true 100).1 = Raise RuntimeError
  ∧ ((corpus3 = [] ∧ RuntimeError = ValueError)
     ∨ (corpus3 ≠ [] ∧ true = true
        ∧ ((split_index (length corpus3) 100 = Raise RuntimeError
            ∧ (RuntimeError = OverflowError ∨ RuntimeError = ValueError))
           ∨ ∃ split, split_index (length corpus3) 100 = Ok split
                      ∧ RuntimeError = RuntimeError
                      ∧ (slice_bound (length corpus3) split = 0
                         ∨ slice_bound (length corpus3) split = length corpus3)))).
Proof.
  assert ((process_data remove_dups [] corpus3 true 100).1 = Raise RuntimeError)
    as Hp by (vm_compute; reflexivity).
  split; [exact Hp|].
  exact (process_data_failures remove_dups remove_dups_NoDup remove_dups_elem
           [] corpus3 true 100 RuntimeError Hp).
Defined.
